(** * env.sh: run-time substitution of placeholder tokens

    A shallow embedding of the shell script [env.sh] (the runtime script of
    the repository, printed in full in its README) together with the POSIX
    utilities it drives: [env], [grep], the [read] builtin, [test -d],
    [find -type f -exec ... {} +] and [sed -i "s|KEY|VALUE|g"].

    The script is modelled as a function from the exported environment and a
    file system to a trace of observable events, a final file system and an
    exit status.  Byte strings are lists of [ascii]; the single-byte (C)
    locale is assumed throughout. *)

From Stdlib Require Import Ascii String List Bool Arith Lia.
Import ListNotations.

Open Scope string_scope.
Open Scope list_scope.

(** ** Byte strings *)

Definition text := list ascii.

Definition tx (s : string) : text := list_ascii_of_string s.

Definition NL : ascii := "010"%char.
Definition TAB : ascii := "009"%char.
Definition SP : ascii := " "%char.

Fixpoint teqb (a b : text) : bool :=
  match a, b with
  | [], [] => true
  | x :: a', y :: b' => Ascii.eqb x y && teqb a' b'
  | _, _ => false
  end.

Definition mem (c : ascii) (s : text) : bool := existsb (Ascii.eqb c) s.

Definition is_nil {A : Type} (l : list A) : bool :=
  match l with [] => true | _ => false end.

(** [starts_with p s]: [p] is a prefix of [s], byte for byte. *)
Fixpoint starts_with (p s : text) : bool :=
  match p, s with
  | [], _ => true
  | a :: p', b :: s' => Ascii.eqb a b && starts_with p' s'
  | _ :: _, [] => false
  end.

(** [occursb k s]: [k] occurs in [s] as a contiguous substring. *)
Fixpoint occursb (k s : text) : bool :=
  starts_with k s ||
  match s with
  | [] => false
  | _ :: s' => occursb k s'
  end.

Definition occurs (k s : text) : Prop := exists a b, s = a ++ k ++ b.

(** [cut d s]: the part of [s] before the first [d], and the part after it
    when there is one. *)
Fixpoint cut (d : ascii) (s : text) : text * option text :=
  match s with
  | [] => ([], None)
  | c :: s' =>
      if Ascii.eqb c d then ([], Some s')
      else let (a, b) := cut d s' in (c :: a, b)
  end.

(** [pieces keep s]: [s] cut at every byte [c] with [sep c = true]; the
    separators are dropped and empty pieces are kept. *)
Fixpoint pieces (sep : ascii -> bool) (s : text) : list text :=
  match s with
  | [] => [[]]
  | c :: s' =>
      if sep c then [] :: pieces sep s'
      else match pieces sep s' with
           | [] => [[c]]
           | w :: ws => (c :: w) :: ws
           end
  end.

(** The lines of a text stream: every newline ends a line; a last line
    without its newline counts as a line too. *)
Fixpoint lines (s : text) : list text :=
  match s with
  | [] => []
  | c :: s' =>
      if Ascii.eqb c NL then [] :: lines s'
      else match lines s' with
           | [] => [[c]]
           | l :: ls => (c :: l) :: ls
           end
  end.

(** ** POSIX basic regular expressions, as [grep] and [sed] read them

    The fragment covers ordinary characters, [.], [*], and the anchors [^]
    (leading) and [$] (trailing).  A pattern with a backslash or a bracket
    expression, or with a star applied to a starred atom, is outside the
    fragment: [parse] answers [None].  So is a pattern with a newline:
    grep reads it as a list of patterns, one per line, and sed as the end
    of its command. *)

Module Bre.

Inductive atom : Type :=
| Lit (c : ascii)
| AnyChar.

(** An item is an atom and whether a [*] follows it. *)
Definition item : Type := (atom * bool)%type.

Record regex : Type := mk_regex {
  bol : bool;            (* anchored at the beginning of the line *)
  body : list item;
  eol : bool             (* anchored at the end of the line *)
}.

Definition atom_of (c : ascii) : atom :=
  if Ascii.eqb c "."%char then AnyChar else Lit c.

(** A leading [*] is an ordinary character; elsewhere it stars the atom
    before it. *)
Fixpoint parse_items (s : text) : option (list item) :=
  match s with
  | [] => Some []
  | c :: s' =>
      match s' with
      | d :: s'' =>
          if Ascii.eqb d "*"%char then
            match s'' with
            | e :: _ =>
                if Ascii.eqb e "*"%char then None
                else option_map (cons (atom_of c, true)) (parse_items s'')
            | [] => Some [(atom_of c, true)]
            end
          else option_map (cons (atom_of c, false)) (parse_items s')
      | [] => Some [(atom_of c, false)]
      end
  end.

(** [strip_eol s]: [s] without a final [$], and whether there was one. *)
Fixpoint strip_eol (s : text) : text * bool :=
  match s with
  | [] => ([], false)
  | [c] => if Ascii.eqb c "$"%char then ([], true) else ([c], false)
  | c :: s' => let (r, e) := strip_eol s' in (c :: r, e)
  end.

Definition parse (s : text) : option regex :=
  if mem "\"%char s || mem "["%char s || mem NL s then None
  else
    let (b, s1) :=
      match s with
      | c :: s' => if Ascii.eqb c "^"%char then (true, s') else (false, s)
      | [] => (false, s)
      end in
    let (s2, e) := strip_eol s1 in
    match parse_items s2 with
    | Some its => Some (mk_regex b its e)
    | None => None
    end.

Definition atom_ok (a : atom) (c : ascii) : bool :=
  match a with
  | Lit x => Ascii.eqb x c
  | AnyChar => true
  end.

Definition longer (a b : option nat) : option nat :=
  match a, b with
  | Some x, Some y => Some (Nat.max x y)
  | Some x, None => Some x
  | None, _ => b
  end.

(** [match_items its e s]: the length of the longest prefix of [s] that
    [its] matches (reaching the end of [s] when [e] is set), if any. *)
Fixpoint match_items (its : list item) (e : bool) (s : text) : option nat :=
  match its with
  | [] => if e then (if is_nil s then Some 0 else None) else Some 0
  | (a, false) :: r =>
      match s with
      | c :: s' => if atom_ok a c then option_map S (match_items r e s') else None
      | [] => None
      end
  | (a, true) :: r =>
      (fix star (s : text) : option nat :=
         match s with
         | c :: s' =>
             if atom_ok a c
             then longer (option_map S (star s')) (match_items r e s)
             else match_items r e s
         | [] => match_items r e s
         end) s
  end.

(** The longest match that starts at the head of [s]; [at_bol] tells
    whether the head of [s] is the beginning of the line. *)
Definition match_here (r : regex) (at_bol : bool) (s : text) : option nat :=
  if bol r && negb at_bol then None else match_items (body r) (eol r) s.

(** [search r at_bol s]: [r] matches somewhere in [s]. *)
Fixpoint search (r : regex) (at_bol : bool) (s : text) : bool :=
  match match_here r at_bol s with
  | Some _ => true
  | None =>
      match s with
      | [] => false
      | _ :: s' => search r false s'
      end
  end.

End Bre.

(** ** sed -i "s|KEY|VALUE|g" *)

Module Sed.

(** The replacement text of an [s] command without backslashes: [&] stands
    for the matched text [m], every other byte for itself. *)
Definition expand (v m : text) : text :=
  flat_map (fun c => if Ascii.eqb c "&"%char then m else [c]) v.

(** [s/r/v/g] on one line (the pattern space, without its newline).
    The scan goes left to right: [skip] counts the bytes of the current
    match still to be dropped, [at_bol] is set at the first byte only, and
    [adj] is set where the previous match has just ended (an empty match is
    not taken there). *)
Fixpoint subst_g (r : Bre.regex) (v : text) (skip : nat)
         (at_bol adj : bool) (s : text) : text :=
  match skip with
  | S k =>
      match s with
      | [] => []
      | _ :: s' => subst_g r v k false true s'
      end
  | O =>
      match Bre.match_here r at_bol s with
      | Some (S n) =>
          expand v (firstn (S n) s) ++
          match s with
          | [] => []
          | _ :: s' => subst_g r v n false true s'
          end
      | Some O =>
          (if adj then [] else expand v []) ++
          match s with
          | [] => []
          | c :: s' => c :: subst_g r v 0 false false s'
          end
      | None =>
          match s with
          | [] => []
          | c :: s' => c :: subst_g r v 0 false false s'
          end
      end
  end.

Definition subst_line (r : Bre.regex) (v : text) (line : text) : text :=
  subst_g r v 0 true false line.

(** [per_line f cur s]: [f] applied to every line of [cur ++ s]; newlines
    are kept, and so is the absence of one after the last line. *)
Fixpoint per_line (f : text -> text) (cur : text) (s : text) : text :=
  match s with
  | [] => match cur with [] => [] | _ => f cur end
  | c :: s' =>
      if Ascii.eqb c NL then f cur ++ NL :: per_line f [] s'
      else per_line f (cur ++ [c]) s'
  end.

(** What [sed] makes of the script text ["s|" ++ key ++ "|" ++ value ++ "|g"]. *)
Inductive script : Type :=
| Subst (r : Bre.regex) (v : text)   (* a well-formed global substitution *)
| Rejected                           (* sed refuses the script and exits non-zero *)
| Beyond.                            (* the script is outside the modelled fragment *)

(** A [|] or a backslash in the key or the value changes how the script
    text is cut into pattern, replacement and flags; such scripts are not
    modelled.  An empty pattern is refused by sed ("no previous regular
    expression"). *)
Definition compile (key value : text) : script :=
  if mem "|"%char key || mem "\"%char key
     || mem "|"%char value || mem "\"%char value then Beyond
  else if is_nil key then Rejected
  else match Bre.parse key with
       | Some r => Subst r value
       | None => Beyond
       end.

(** The new content of a file under the script. *)
Definition edit (r : Bre.regex) (v : text) (content : text) : text :=
  per_line (subst_line r v) [] content.

End Sed.

(** ** The file system

    A snapshot of the tree: every directory and every regular file, under its
    absolute path given as the list of its components.  A regular file
    carries its content and whether sed can open, read and rewrite it.
    Symbolic links are not modelled. *)

Module Fs.

Definition path := list text.

Inductive node : Type :=
| Dir
| File (accessible : bool) (content : text).

Record t : Type := mk {
  cwd : path;
  entries : list (path * node)
}.

Fixpoint peqb (p q : path) : bool :=
  match p, q with
  | [], [] => true
  | a :: p', b :: q' => teqb a b && peqb p' q'
  | _, _ => false
  end.

(** [under root p]: [p] lies in the tree rooted at [root]. *)
Fixpoint under (root p : path) : bool :=
  match root, p with
  | [], _ => true
  | a :: r', b :: p' => teqb a b && under r' p'
  | _ :: _, [] => false
  end.

Fixpoint lookup (es : list (path * node)) (p : path) : option node :=
  match es with
  | [] => None
  | (q, n) :: es' => if peqb q p then Some n else lookup es' p
  end.

Definition is_dir (es : list (path * node)) (p : path) : bool :=
  match p with
  | [] => true
  | _ => match lookup es p with Some Dir => true | _ => false end
  end.

(** Path resolution, one component at a time: every component but the
    last must lead through a directory; empty components and [.] stay,
    [..] goes up. *)
Fixpoint walk (es : list (path * node)) (cur : path) (comps : list text) : option path :=
  match comps with
  | [] => if is_dir es cur then Some cur else None
  | c :: cs =>
      if is_dir es cur then
        if is_nil c || teqb c (tx ".") then walk es cur cs
        else if teqb c (tx "..") then walk es (removelast cur) cs
        else walk es (cur ++ [c]) cs
      else None
  end.

(** [test -d s]: the directory that the path string [s] names, if any. *)
Definition directory (fs : t) (s : text) : option path :=
  match s with
  | [] => None
  | c :: _ =>
      walk (entries fs) (if Ascii.eqb c "/"%char then [] else cwd fs)
           (pieces (Ascii.eqb "/"%char) s)
  end.

(** [find root -type f]: the regular files of the tree under [root]. *)
Definition is_target (root : path) (e : path * node) : bool :=
  match e with
  | (p, File _ _) => under root p
  | (_, Dir) => false
  end.

Definition is_blocked (root : path) (e : path * node) : bool :=
  match e with
  | (p, File false _) => under root p
  | _ => false
  end.

(** [sed -i] on one entry: an accessible regular file under [root] gets
    its content rewritten by [f]; everything else stays as it is. *)
Definition rewrite (root : path) (f : text -> text) (e : path * node) : path * node :=
  match e with
  | (p, File true c) => if under root p then (p, File true (f c)) else e
  | _ => e
  end.

(** [sed -i] over the tree under [root]. *)
Definition sed_i (root : path) (f : text -> text) (fs : t) : t :=
  mk (cwd fs) (map (rewrite root f) (entries fs)).

(** What path resolution and access control see of an entry: its path, and
    for a regular file whether it is accessible. *)
Definition shape (e : path * node) : path * option bool :=
  match e with
  | (p, Dir) => (p, None)
  | (p, File a _) => (p, Some a)
  end.

Definition content (fs : t) (p : path) : option text :=
  match lookup (entries fs) p with
  | Some (File _ c) => Some c
  | _ => None
  end.

End Fs.

(** ** The script env.sh *)

(** The exported variables of the shell that runs the script, as the [env]
    utility lists them: name and value, in listing order. *)
Definition environ := list (text * text).

Fixpoint getvar (E : environ) (name : text) : option text :=
  match E with
  | [] => None
  | (n, v) :: E' => if teqb n name then Some v else getvar E' name
  end.

(** Assignment to a shell variable, seen from the environment: a variable
    that came in through the environment stays exported and takes the new
    value; any other variable is local to the shell and [env] never shows
    it. *)
Definition setvar (E : environ) (name v : text) : environ :=
  map (fun nv => if teqb (fst nv) name then (fst nv, v) else nv) E.

(** The output of [env]: one [NAME=value] record per variable, each ended by
    a newline. *)
Definition env_output (E : environ) : text :=
  flat_map (fun nv => fst nv ++ "="%char :: snd nv ++ [NL]) E.

(** [grep PATTERN]: the input lines that the pattern matches somewhere;
    [None] when the pattern is outside the modelled fragment. *)
Definition grep (pattern input : text) : option (list text) :=
  match Bre.parse pattern with
  | Some r => Some (filter (Bre.search r true) (lines input))
  | None => None
  end.

(** [IFS='=' read -r key value] on one line: [key] is the text before the
    first [=]; [value] is all the rest, except that a rest made of one field
    and one closing [=] loses that [=] (in field splitting a delimiter that
    is not white space ends the field before it; it does not open an empty
    one after it: [K=a=] gives [a], [K=a==] gives [a==]). *)
Definition read_kv (line : text) : text * text :=
  match cut "="%char line with
  | (k, None) => (k, [])
  | (k, Some rest) =>
      match cut "="%char rest with
      | (a, Some []) => (k, a)
      | _ => (k, rest)
      end
  end.

(** Field splitting of the unquoted [$ASSET_DIRS] under the default IFS. *)
Definition ifs_ws (c : ascii) : bool :=
  Ascii.eqb c SP || Ascii.eqb c TAB || Ascii.eqb c NL.

Definition fields (s : text) : list text :=
  filter (fun w => negb (is_nil w)) (pieces ifs_ws s).

(** Pathname expansion follows field splitting.  A word without pattern
    characters stands for itself; words with one or with a backslash, and
    words that [find] would read as part of its expression (a leading dash,
    [!], [(], [)], [,]) are not modelled: [expand_words] answers [None],
    and the run is [Unmodelled] before its first root, whatever directories
    the shell would have found for the pattern. *)
Definition word_plain (w : text) : bool :=
  negb (mem "*"%char w || mem "?"%char w || mem "["%char w || mem "\"%char w
        || starts_with (tx "-") w
        || teqb w (tx "!") || teqb w (tx "(") || teqb w (tx ")") || teqb w (tx ",")).

Definition expand_words (s : text) : option (list text) :=
  let ws := fields s in
  if forallb word_plain ws then Some ws else None.

(** What an observer of the run sees, in order. *)
Inductive event : Type :=
| Stdout (line : text)                 (* a line printed by [echo] *)
| ExecEnv                              (* the environment is listed by [env] *)
| ExecFindSed (dir key value : text).  (* [find dir -type f -exec sed -i s|key|value|g {} +] *)

Inductive failure : Type :=
| Missing (name message : text)        (* the [${name:?message}] expansion failed *)
| CommandFailed.                       (* a command failed under [set -e] *)

(** How a run ends.  [Unmodelled] is not an exit of the script: it marks a
    run that has met something outside the modelled fragment (a pattern
    that the regular expressions above do not cover, a sed script with a
    [|] or a backslash in it, a line with a backslash handed to [echo], a
    root with a pattern character, which the shell would expand).  The
    trace and the file system that come with it are those the model had
    when it stopped; they say nothing about what the script goes on to
    do. *)
Inductive status : Type :=
| Exit0
| ExitNonZero (why : failure)
| Unmodelled.                          (* the run left the modelled fragment *)

Definition outcome : Type := (list event * Fs.t * status)%type.

Definition warning (d : text) : text :=
  tx "Warning: directory '" ++ d ++ tx "' not found, skipping.".

Definition scanning (d : text) : text :=
  tx "Scanning directory: " ++ d.

Definition replacing (key value : text) : text :=
  tx "  • Replacing " ++ key ++ tx " → " ++ value.

(** [find root -type f -exec sed -i "s|key|value|g" {} +].  Without a
    regular file under [root] sed is never started.  Otherwise sed rewrites
    the files it can open, reports those it cannot and exits non-zero if
    there was one; find passes that on.  (Which of the other files a
    failing sed has rewritten depends on the kind of failure; the model
    follows the case of a file that cannot be opened.)  For a script
    outside the fragment the answer is [Unmodelled], with the file system
    as it was: what sed does with such a script (it may well write files)
    is not described. *)
Definition find_exec_sed (root : Fs.path) (key value : text) (fs : Fs.t)
  : Fs.t * status :=
  if negb (existsb (Fs.is_target root) (Fs.entries fs)) then (fs, Exit0)
  else
    match Sed.compile key value with
    | Sed.Beyond => (fs, Unmodelled)
    | Sed.Rejected => (fs, ExitNonZero CommandFailed)
    | Sed.Subst r v =>
        (Fs.sed_i root (Sed.edit r v) fs,
         if existsb (Fs.is_blocked root) (Fs.entries fs)
         then ExitNonZero CommandFailed else Exit0)
    end.

(** The body of the pipeline's [while IFS='=' read -r key value] loop, run
    over the lines that grep let through.  The loop runs in a subshell with
    [set -e] in force: the first failing [find] ends it, and with it the
    script.  ([echo] of a text with a backslash depends on the shell and is
    not modelled: at such a line the model stops with [Unmodelled], before
    the echo and the find that the script goes on to run.) *)
Fixpoint while_read (d : text) (root : Fs.path) (ls : list text) (fs : Fs.t)
  : outcome :=
  match ls with
  | [] => ([], fs, Exit0)
  | l :: ls' =>
      let (key, value) := read_kv l in
      if mem "\"%char key || mem "\"%char value then ([], fs, Unmodelled)
      else
        let evs := [Stdout (replacing key value); ExecFindSed d key value] in
        match find_exec_sed root key value fs with
        | (fs1, Exit0) =>
            let '(t, fs2, st) := while_read d root ls' fs1 in
            (evs ++ t, fs2, st)
        | (fs1, st) => (evs, fs1, st)
        end
  end.

(** [env | grep "^${APP_PREFIX}" | while ...; do ...; done] *)
Definition pipeline (prefix d : text) (root : Fs.path) (E : environ) (fs : Fs.t)
  : outcome :=
  match grep ("^"%char :: prefix) (env_output E) with
  | None => ([ExecEnv], fs, Unmodelled)
  | Some ls =>
      let '(t, fs1, st) := while_read d root ls fs in
      (ExecEnv :: t, fs1, st)
  end.

(** [for dir in $ASSET_DIRS; do ... done] *)
Fixpoint for_dirs (prefix : text) (ds : list text) (E : environ) (fs : Fs.t)
  : outcome :=
  match ds with
  | [] => ([], fs, Exit0)
  | d :: ds' =>
      let E1 := setvar E (tx "dir") d in
      match Fs.directory fs d with
      | None =>
          let '(t, fs1, st) := for_dirs prefix ds' E1 fs in
          (Stdout (warning d) :: t, fs1, st)
      | Some root =>
          match pipeline prefix d root E1 fs with
          | (t1, fs1, Exit0) =>
              let '(t2, fs2, st) := for_dirs prefix ds' E1 fs1 in
              (Stdout (scanning d) :: t1 ++ t2, fs2, st)
          | (t1, fs1, st) => (Stdout (scanning d) :: t1, fs1, st)
          end
      end
  end.

Definition APP_PREFIX : text := tx "APP_PREFIX".
Definition ASSET_DIRS : text := tx "ASSET_DIRS".

Definition msg_prefix : text :=
  tx "APP_PREFIX must be set (e.g. APP_PREFIX='APP_PREFIX_')".
Definition msg_dirs : text :=
  tx "Must set ASSET_DIRS to one or more paths (space-delimited)".

(** [: "${name:?message}"]: the value of a variable that is set and not
    empty. *)
Definition require (E : environ) (name : text) : option text :=
  match getvar E name with
  | Some (c :: v) => Some (c :: v)
  | _ => None
  end.

Definition run (E : environ) (fs : Fs.t) : outcome :=
  match require E APP_PREFIX with
  | None => ([], fs, ExitNonZero (Missing APP_PREFIX msg_prefix))
  | Some prefix =>
      match require E ASSET_DIRS with
      | None => ([], fs, ExitNonZero (Missing ASSET_DIRS msg_dirs))
      | Some dirs =>
          match expand_words dirs with
          | None => ([], fs, Unmodelled)
          | Some ds => for_dirs prefix ds E fs
          end
      end
  end.

(** Projections of an outcome. *)
Definition trace_of (o : outcome) : list event := fst (fst o).
Definition files_of (o : outcome) : Fs.t := snd (fst o).
Definition status_of (o : outcome) : status := snd o.

Definition stdout (t : list event) : list text :=
  flat_map (fun e => match e with Stdout l => [l] | _ => [] end) t.

Definition env_runs (t : list event) : nat :=
  length (filter (fun e => match e with ExecEnv => true | _ => false end) t).

Definition sed_runs (t : list event) : list (text * text * text) :=
  flat_map (fun e => match e with ExecFindSed d k v => [(d, k, v)] | _ => [] end) t.

(** ** Literal replacement, as the specification words it

    "Every occurrence of the variable's name is replaced with the variable's
    value", scanning left to right over occurrences that do not overlap.
    [replace_from k v skip s] drops [skip] bytes first (the rest of the
    occurrence being replaced). *)

Fixpoint replace_from (k v : text) (skip : nat) (s : text) : text :=
  match s with
  | [] => []
  | c :: s' =>
      match skip with
      | S n => replace_from k v n s'
      | O =>
          if starts_with k s then v ++ replace_from k v (length k - 1) s'
          else c :: replace_from k v 0 s'
      end
  end.

Definition replace_all (k v s : text) : text := replace_from k v 0 s.

(** [join sep us]: the segments [us] with [sep] between neighbours. *)
Fixpoint join (sep : text) (us : list text) : text :=
  match us with
  | [] => []
  | u :: us' =>
      match us' with
      | [] => u
      | _ :: _ => u ++ sep ++ join sep us'
      end
  end.

(** Bytes with a meaning of their own in a pattern, in a replacement, or in
    the script text around them. *)
Definition pattern_special (c : ascii) : bool :=
  mem c (tx ".*^$[\|") || Ascii.eqb c NL.

Definition replacement_special (c : ascii) : bool :=
  mem c (tx "&\|") || Ascii.eqb c NL.

(** A key that sed reads as its own literal text, and a value that sed
    inserts as it stands. *)
Definition plain_key (k : text) : bool :=
  negb (is_nil k) && forallb (fun c => negb (pattern_special c)) k.

Definition plain_value (v : text) : bool :=
  forallb (fun c => negb (replacement_special c)) v.

(** A prefix that grep reads as its own literal text. *)
Definition plain_prefix (p : text) : bool :=
  forallb (fun c => negb (pattern_special c)) p.

(** No byte of [a] occurs in [b]. *)
Definition apart (a b : text) : bool :=
  forallb (fun c => negb (mem c b)) a.

(** Some non-empty end of [a] is a beginning of [b]. *)
Fixpoint overlaps (a b : text) : bool :=
  match a with
  | [] => false
  | _ :: a' => starts_with a b || overlaps a' b
  end.

(** [touches a b]: the texts [a] and [b] can meet on a line, that is, one
    occurs in the other or a non-empty end of one is a beginning of the
    other.  Two texts that do not touch are both non-empty. *)
Definition touches (a b : text) : bool :=
  occursb a b || occursb b a || overlaps a b || overlaps b a.

(** [read] hands over the text after the first [=] unchanged unless that
    text is one field closed by a single [=]. *)
Definition closing_eq (v : text) : bool :=
  match cut "="%char v with
  | (_, Some []) => true
  | _ => false
  end.

(** The record of a variable in the [env] listing, without its newline. *)
Definition record (nv : text * text) : text := fst nv ++ "="%char :: snd nv.

(** The substitutions of a whole pass, in listing order. *)
Definition replace_pairs (ps : list (text * text)) (c : text) : text :=
  fold_left (fun acc kv => replace_all (fst kv) (snd kv) acc) ps c.

(** ** Vocabulary of the statements *)

(** The lines that grep hands to the loop ([[]] outside the fragment, where
    the run is [Unmodelled] anyway). *)
Definition selected_lines (prefix : text) (E : environ) : list text :=
  match grep ("^"%char :: prefix) (env_output E) with
  | Some ls => ls
  | None => []
  end.

(** The variables whose record starts with the prefix. *)
Definition selected (prefix : text) (E : environ) : list (text * text) :=
  filter (fun nv => starts_with prefix (record nv)) E.

(** The scripts of a list of lines, when sed accepts them all. *)
Fixpoint compile_all (ls : list text) : option (list (Bre.regex * text)) :=
  match ls with
  | [] => Some []
  | l :: ls' =>
      match Sed.compile (fst (read_kv l)) (snd (read_kv l)), compile_all ls' with
      | Sed.Subst r w, Some rs => Some ((r, w) :: rs)
      | _, _ => None
      end
  end.

(** The edits of a list of scripts, first to last. *)
Definition edits (rs : list (Bre.regex * text)) (c : text) : text :=
  fold_left (fun acc rw => Sed.edit (fst rw) (snd rw) acc) rs c.

(** The events of a loop that runs to its end. *)
Definition loop_events (d : text) (ls : list text) : list event :=
  flat_map (fun l => [Stdout (replacing (fst (read_kv l)) (snd (read_kv l)));
                      ExecFindSed d (fst (read_kv l)) (snd (read_kv l))]) ls.

(** The events of a [for] loop that runs to its end, when the pass over
    root [d] is given the lines [L d]. *)
Definition dir_events (L : text -> list text) (fs : Fs.t) (ds : list text)
  : list event :=
  flat_map (fun d => match Fs.directory fs d with
                     | None => [Stdout (warning d)]
                     | Some _ => Stdout (scanning d) :: ExecEnv :: loop_events d (L d)
                     end) ds.

(** The roots among [ds] that exist. *)
Definition existing (fs : Fs.t) (ds : list text) : list Fs.path :=
  flat_map (fun d => match Fs.directory fs d with
                     | None => []
                     | Some root => [root]
                     end) ds.

(** Every regular file can be opened, read and rewritten. *)
Definition all_accessible (fs : Fs.t) : bool :=
  forallb (fun e => match snd e with Fs.File false _ => false | _ => true end)
          (Fs.entries fs).

(** A line that is a per-root diagnostic of the script. *)
Definition root_line (l : text) : Prop :=
  exists d, l = warning d \/ l = scanning d.

(** Two snapshots with the same directories and files, and the same access
    rights; only contents may differ. *)
Definition same_shape (fs fs' : Fs.t) : Prop :=
  Fs.cwd fs' = Fs.cwd fs /\
  map Fs.shape (Fs.entries fs') = map Fs.shape (Fs.entries fs).

(** The file system after the passes over the roots [ds], when the pass
    over root [d] applies the scripts [R d]; directories are looked up in
    the initial snapshot [fs0]. *)
Definition after_passes (R : text -> list (Bre.regex * text)) (fs0 : Fs.t)
           (ds : list text) (fs : Fs.t) : Fs.t :=
  fold_left (fun acc d => match Fs.directory fs0 d with
                          | Some root => Fs.sed_i root (edits (R d)) acc
                          | None => acc
                          end) ds fs.

(** The content of the file at [p] after the same passes. *)
Definition content_after (R : text -> list (Bre.regex * text)) (fs0 : Fs.t)
           (ds : list text) (p : Fs.path) (c : text) : text :=
  fold_left (fun acc d => match Fs.directory fs0 d with
                          | Some root => if Fs.under root p then edits (R d) acc else acc
                          | None => acc
                          end) ds c.

(** How many of the existing roots among [ds] have [p] in their tree. *)
Definition covering (fs : Fs.t) (ds : list text) (p : Fs.path) : nat :=
  length (filter (fun r => Fs.under r p) (existing fs ds)).

(** Every key is non-empty, every value is non-empty, and no value shares a
    byte with any key. *)
Definition clean_pairs (ps : list (text * text)) : Prop :=
  forall kv, In kv ps ->
    fst kv <> [] /\ snd kv <> [] /\
    forall kv', In kv' ps -> apart (snd kv) (fst kv') = true.

(** No value touches a key: neither occurs in the other, and no non-empty
    end of one is a beginning of the other. *)
Definition values_clear_of_keys (ps : list (text * text)) : Prop :=
  forall kv kv', In kv ps -> In kv' ps -> touches (snd kv) (fst kv') = false.

Definition values_clear_of_keysb (ps : list (text * text)) : bool :=
  forallb (fun kv => forallb (fun kv' => negb (touches (snd kv) (fst kv'))) ps) ps.

(** The pattern that matches the text [k] and nothing else. *)
Definition lits (k : text) : list Bre.item := map (fun c => (Bre.Lit c, false)) k.

(** The script that sed makes of a plain pair. *)
Definition script_of (kv : text * text) : Bre.regex * text :=
  (Bre.mk_regex false (lits (fst kv)) false, snd kv).

(** A variable that reaches sed as it stands in the environment: a plain
    name without [=], and a plain value that [read] hands over whole. *)
Definition plain_pair (nv : text * text) : bool :=
  plain_key (fst nv) && plain_value (snd nv) &&
  negb (mem "="%char (fst nv)) && negb (closing_eq (snd nv)).

(** Decidable forms of the side conditions. *)
Definition one_line_records (E : environ) : bool :=
  forallb (fun nv => negb (mem NL (record nv))) E.

Definition clean_pairsb (ps : list (text * text)) : bool :=
  forallb (fun kv => negb (is_nil (fst kv)) && negb (is_nil (snd kv)) &&
                     forallb (fun kv' => apart (snd kv) (fst kv')) ps) ps.

(** ** Sample environments and trees *)

Definition env_of (prefix dirs : string) (vars : list (string * string)) : environ :=
  (APP_PREFIX, tx prefix) :: (ASSET_DIRS, tx dirs) ::
  map (fun nv => (tx (fst nv), tx (snd nv))) vars.

Definition site_js : Fs.path := [tx "site"; tx "index.js"].

(** A tree with the directory [/site] and the file [/site/index.js]. *)
Definition site (accessible : bool) (content : string) : Fs.t :=
  Fs.mk [] [([tx "site"], Fs.Dir); (site_js, Fs.File accessible (tx content))].

(** The tree of [site] with one more file, [/site/locked.js], that sed
    cannot open. *)
Definition site_locked (content : string) : Fs.t :=
  Fs.mk [] [([tx "site"], Fs.Dir); (site_js, Fs.File true (tx content));
            ([tx "site"; tx "locked.js"], Fs.File false (tx content))].

(** A tree with the directory [/my] and the directory [/my site], one file
    in each. *)
Definition my_site : Fs.t :=
  Fs.mk [] [([tx "my"], Fs.Dir);
            ([tx "my"; tx "a.js"], Fs.File true (tx "PREFIX_A"));
            ([tx "my site"], Fs.Dir);
            ([tx "my site"; tx "index.js"], Fs.File true (tx "PREFIX_A"))].

(** A tree with the directories [/a] and [/b], one file in each. *)
Definition two_roots (in_a in_b : string) : Fs.t :=
  Fs.mk [] [([tx "a"], Fs.Dir); ([tx "a"; tx "x.js"], Fs.File true (tx in_a));
            ([tx "b"], Fs.Dir); ([tx "b"; tx "y.js"], Fs.File true (tx in_b))].

(** An environment in which the value of [name] is [first], a newline,
    and [second]. *)
Definition env_two_lines (name first second : string) : environ :=
  [(APP_PREFIX, tx "PREFIX_"); (ASSET_DIRS, tx "/site");
   (tx name, tx first ++ NL :: tx second)].

(** ** The earlier script

    The article new2.md prints an earlier env.sh: the prefix is tested with
    [[ -z ]], the two trees are fixed, the environment is listed once, and
    there is no [set -e]. *)

Definition APP_ENV_PREFIX : text := tx "APP_ENV_PREFIX".
Definition served_tree : text := tx "/usr/share/nginx/html/web-app".
Definition template_tree : text := tx "/tmpl/dist/web-app".
Definition error_line : text := tx "ERROR: APP_ENV_PREFIX is not set.".

Definition replacing_plainly (key value : text) : text :=
  tx "Replacing " ++ key ++ tx " → " ++ value.

(** The starting point of [find]: the path must lead through directories
    to an entry of any kind. *)
Fixpoint locate (es : list (Fs.path * Fs.node)) (cur : Fs.path) (comps : list text)
  : option Fs.path :=
  match comps with
  | [] =>
      match cur with
      | [] => Some cur
      | _ => match Fs.lookup es cur with Some _ => Some cur | None => None end
      end
  | c :: cs =>
      if Fs.is_dir es cur then
        if is_nil c || teqb c (tx ".") then locate es cur cs
        else if teqb c (tx "..") then locate es (removelast cur) cs
        else locate es (cur ++ [c]) cs
      else None
  end.

Definition start_point (fs : Fs.t) (s : text) : option Fs.path :=
  match s with
  | [] => None
  | c :: _ =>
      locate (Fs.entries fs) (if Ascii.eqb c "/"%char then [] else Fs.cwd fs)
             (pieces (Ascii.eqb "/"%char) s)
  end.

(** [find s -type f -exec sed -i ... {} +] without a test of [s] before it:
    a starting point that does not exist makes find fail; one that is a
    regular file is itself the only target. *)
Definition find_from (s key value : text) (fs : Fs.t) : Fs.t * status :=
  match start_point fs s with
  | None => (fs, ExitNonZero CommandFailed)
  | Some p => find_exec_sed p key value fs
  end.

Inductive old_status : Type :=
| OldExit0
| OldExit1            (* [exit 1] after the error line *)
| OldFindFailed       (* the non-zero status of the last find *)
| OldUnmodelled.

Definition old_of (st : status) : old_status :=
  match st with
  | Exit0 => OldExit0
  | ExitNonZero _ => OldFindFailed
  | Unmodelled => OldUnmodelled
  end.

Definition is_unmodelled (st : status) : bool :=
  match st with Unmodelled => true | _ => false end.

(** The loop of the earlier script.  Nothing stops it: both finds run for
    every line, and the status of the loop is the status of the last
    command it ran ([last] before the first line: zero).  As in
    [while_read], a line with a backslash or a sed script outside the
    fragment stops the model with [Unmodelled], not the script. *)
Fixpoint old_loop (ls : list text) (fs : Fs.t) (last : status)
  : list event * Fs.t * status :=
  match ls with
  | [] => ([], fs, last)
  | l :: ls' =>
      let (key, value) := read_kv l in
      if mem "\"%char key || mem "\"%char value then ([], fs, Unmodelled)
      else
        let (fs1, st1) := find_from served_tree key value fs in
        if is_unmodelled st1
        then ([Stdout (replacing_plainly key value);
               ExecFindSed served_tree key value], fs1, Unmodelled)
        else
          let (fs2, st2) := find_from template_tree key value fs1 in
          let evs := [Stdout (replacing_plainly key value);
                      ExecFindSed served_tree key value;
                      ExecFindSed template_tree key value] in
          if is_unmodelled st2 then (evs, fs2, Unmodelled)
          else
            let '(t, fs3, st) := old_loop ls' fs2 st2 in
            (evs ++ t, fs3, st)
  end.

Definition old_run (E : environ) (fs : Fs.t) : list event * Fs.t * old_status :=
  match getvar E APP_ENV_PREFIX with
  | Some (c :: p) =>
      match grep ("^"%char :: c :: p) (env_output E) with
      | None => ([ExecEnv], fs, OldUnmodelled)
      | Some ls =>
          let '(t, fs1, st) := old_loop ls fs Exit0 in
          (ExecEnv :: t, fs1, old_of st)
      end
  | _ => ([Stdout error_line], fs, OldExit1)
  end.

(** The events of the earlier loop when it runs over all of [ls]. *)
Definition old_events (ls : list text) : list event :=
  flat_map (fun l => [Stdout (replacing_plainly (fst (read_kv l)) (snd (read_kv l)));
                      ExecFindSed served_tree (fst (read_kv l)) (snd (read_kv l));
                      ExecFindSed template_tree (fst (read_kv l)) (snd (read_kv l))]) ls.

Definition old_trace_of (o : list event * Fs.t * old_status) : list event := fst (fst o).
Definition old_files_of (o : list event * Fs.t * old_status) : Fs.t := snd (fst o).
Definition old_status_of (o : list event * Fs.t * old_status) : old_status := snd o.

(** The two trees of the earlier script as paths. *)
Definition served_path : Fs.path :=
  [tx "usr"; tx "share"; tx "nginx"; tx "html"; tx "web-app"].
Definition template_path : Fs.path := [tx "tmpl"; tx "dist"; tx "web-app"].

(** What sed does to a content for one pair, when it accepts the pair. *)
Definition edit_of (key value : text) : text -> text :=
  match Sed.compile key value with
  | Sed.Subst r w => Sed.edit r w
  | _ => fun c => c
  end.

(** The edits of a list of lines, first to last. *)
Definition edits_of (ls : list text) (c : text) : text :=
  fold_left (fun acc l => edit_of (fst (read_kv l)) (snd (read_kv l)) acc) ls c.

(** An environment for the earlier script. *)
Definition old_env_of (prefix : string) (vars : list (string * string)) : environ :=
  (APP_ENV_PREFIX, tx prefix) :: map (fun nv => (tx (fst nv), tx (snd nv))) vars.

(** A tree with the two directories of the earlier script, one file in
    each. *)
Definition web_app (served_ok : bool) (in_served in_template : string) : Fs.t :=
  Fs.mk []
    [([tx "usr"], Fs.Dir); ([tx "usr"; tx "share"], Fs.Dir);
     ([tx "usr"; tx "share"; tx "nginx"], Fs.Dir);
     ([tx "usr"; tx "share"; tx "nginx"; tx "html"], Fs.Dir);
     (served_path, Fs.Dir);
     (served_path ++ [tx "index.js"], Fs.File served_ok (tx in_served));
     ([tx "tmpl"], Fs.Dir); ([tx "tmpl"; tx "dist"], Fs.Dir);
     (template_path, Fs.Dir);
     (template_path ++ [tx "index.js"], Fs.File true (tx in_template));
     ([tx "etc"], Fs.Dir); ([tx "etc"; tx "motd"], Fs.File true (tx in_served))].

(** The find of one line succeeds on the tree under [root]: the line has
    no backslash, and find ends with status zero. *)
Definition find_succeeds (root : Fs.path) (fs : Fs.t) (l : text) : Prop :=
  (mem "\"%char (fst (read_kv l)) || mem "\"%char (snd (read_kv l))) = false /\
  snd (find_exec_sed root (fst (read_kv l)) (snd (read_kv l)) fs) = Exit0.

(** The file system after every existing root among [ds] (looked up in
    [fs0]) has gone through the edits of the lines [ls]. *)
Definition passes (ls : list text) (fs0 : Fs.t) (ds : list text) (fs : Fs.t) : Fs.t :=
  fold_left (fun acc d => match Fs.directory fs0 d with
                          | Some root => Fs.sed_i root (edits_of ls) acc
                          | None => acc
                          end) ds fs.

(** ** The environment of the compose file

    The three variables that the docker-compose.yml of the README sets. *)
Definition compose_env (asset_dir prefix api_url : text) : environ :=
  [(tx "ASSET_DIR", asset_dir); (APP_PREFIX, prefix); (tx "PREFIX_API_URL", api_url)].

(** ** More vocabulary *)

(** The entry [e] after every accessible file has gone through [F] once for
    each existing root among [ds] that covers it. *)
Definition settled (fs0 : Fs.t) (ds : list text) (F : text -> text)
           (e : Fs.path * Fs.node) : Fs.path * Fs.node :=
  match e with
  | (p, Fs.File true c) => (p, Fs.File true (Nat.iter (covering fs0 ds p) F c))
  | _ => e
  end.


(** Every find of the trace comes right after the line that shows its key
    and its value. *)
Definition announced (t : list event) : Prop :=
  forall t1 d k v t2,
    t = t1 ++ ExecFindSed d k v :: t2 ->
    exists t0, t1 = t0 ++ [Stdout (replacing k v)].

(** * Properties *)

(** ** Byte strings *)

Section TextFacts.

Lemma teqb_eq (a b : text) : teqb a b = true <-> a = b.
Proof.
  revert b; induction a as [|x a IH]; intros [|y b]; simpl;
    try (split; [discriminate | congruence]); try tauto.
  rewrite andb_true_iff, Ascii.eqb_eq, IH.
  split; [intros [-> ->]; reflexivity | intros H; inversion H; auto].
Qed.

Lemma teqb_refl (a : text) : teqb a a = true.
Proof. apply teqb_eq; reflexivity. Qed.

Lemma mem_In (c : ascii) (s : text) : mem c s = true <-> In c s.
Proof.
  unfold mem; rewrite existsb_exists; split.
  - intros (x & Hx & E); apply Ascii.eqb_eq in E; subst; exact Hx.
  - intros H; exists c; split; [exact H | apply Ascii.eqb_refl].
Qed.

Lemma mem_false (c : ascii) (s : text) : mem c s = false <-> ~ In c s.
Proof.
  rewrite <- mem_In; destruct (mem c s); split; congruence.
Qed.

Lemma mem_cons (c x : ascii) (s : text) :
  mem c (x :: s) = Ascii.eqb c x || mem c s.
Proof. reflexivity. Qed.

Lemma starts_with_cons (a b : ascii) (p s : text) :
  starts_with (a :: p) (b :: s) = Ascii.eqb a b && starts_with p s.
Proof. reflexivity. Qed.

Lemma mem_app (c : ascii) (a b : text) : mem c (a ++ b) = mem c a || mem c b.
Proof. unfold mem; apply existsb_app. Qed.

Lemma starts_with_iff (p s : text) :
  starts_with p s = true <-> exists t, s = p ++ t.
Proof.
  revert s; induction p as [|a p IH]; intros s; simpl.
  - split; [intros _; exists s; reflexivity | reflexivity].
  - destruct s as [|b s].
    + split; [discriminate | intros (t & H); discriminate].
    + rewrite andb_true_iff, Ascii.eqb_eq, IH; split.
      * intros (-> & t & ->); exists t; reflexivity.
      * intros (t & H); inversion H; subst; split; [reflexivity | exists t; reflexivity].
Qed.

Lemma starts_with_app (p t : text) : starts_with p (p ++ t) = true.
Proof. apply starts_with_iff; exists t; reflexivity. Qed.

Lemma starts_with_refl (p : text) : starts_with p p = true.
Proof. apply starts_with_iff; exists []; symmetry; apply app_nil_r. Qed.

(** Two beginnings of the same text: one is a beginning of the other. *)
Lemma app_eq_split (a b c d : text) :
  a ++ b = c ++ d ->
  exists m, (a = c ++ m /\ d = m ++ b) \/ (c = a ++ m /\ b = m ++ d).
Proof.
  revert c; induction a as [|x a IH]; intros c H; simpl in H.
  - exists c; right; split; [reflexivity | exact H].
  - destruct c as [|y c]; simpl in H.
    + exists (x :: a); left; split; [reflexivity | symmetry; exact H].
    + inversion H; subst.
      destruct (IH c H2) as (m & [(-> & ->) | (-> & ->)]);
        exists m; [left | right]; split; reflexivity.
Qed.

Lemma occursb_iff (k s : text) : occursb k s = true <-> occurs k s.
Proof.
  unfold occurs; induction s as [|c s IH]; simpl.
  - rewrite orb_false_r, starts_with_iff; split.
    + intros (t & H); exists [], t; exact H.
    + intros (a & b & H).
      destruct a; [exists b; exact H | discriminate].
  - rewrite orb_true_iff, starts_with_iff, IH; split.
    + intros [(t & H) | (a & b & H)].
      * exists [], t; exact H.
      * exists (c :: a), b; simpl; congruence.
    + intros (a & b & H); destruct a as [|x a]; simpl in H.
      * left; exists b; exact H.
      * right; inversion H; subst; exists a, b; reflexivity.
Qed.

Lemma occurs_dec (k s : text) : {occurs k s} + {~ occurs k s}.
Proof.
  destruct (occursb k s) eqn:E.
  - left; apply occursb_iff; exact E.
  - right; intros H; apply occursb_iff in H; congruence.
Qed.

Lemma apart_iff (a b : text) :
  apart a b = true <-> forall c, In c a -> ~ In c b.
Proof.
  unfold apart; rewrite forallb_forall; split; intros H c Hc.
  - apply mem_false; specialize (H c Hc); destruct (mem c b); [discriminate | reflexivity].
  - apply (H c) in Hc; apply mem_false in Hc; rewrite Hc; reflexivity.
Qed.

End TextFacts.

(** ** Literal replacement *)

Lemma replace_from_skip (k v a t : text) :
  replace_from k v (length a) (a ++ t) = replace_from k v 0 t.
Proof.
  induction a as [|x a IH]; simpl; [reflexivity | exact IH].
Qed.

Lemma replace_all_hit_cons (c : ascii) (k' v t : text) :
  replace_all (c :: k') v ((c :: k') ++ t) = v ++ replace_all (c :: k') v t.
Proof.
  unfold replace_all.
  change ((c :: k') ++ t) with (c :: (k' ++ t)).
  cbn [replace_from].
  change (c :: k' ++ t) with ((c :: k') ++ t).
  rewrite starts_with_app.
  cbn [length]. rewrite Nat.sub_succ, Nat.sub_0_r.
  rewrite replace_from_skip. reflexivity.
Qed.

Section Replace.

Variables k v : text.
Hypothesis k_not_empty : k <> [].

Lemma replace_all_nil : replace_all k v [] = [].
Proof. reflexivity. Qed.

Lemma replace_all_hit (t : text) :
  replace_all k v (k ++ t) = v ++ replace_all k v t.
Proof.
  destruct k as [|c k']; [congruence | apply replace_all_hit_cons].
Qed.

Lemma replace_all_miss (c : ascii) (s : text) :
  starts_with k (c :: s) = false ->
  replace_all k v (c :: s) = c :: replace_all k v s.
Proof.
  intros H; unfold replace_all; cbn [replace_from]; rewrite H; reflexivity.
Qed.

(** The scan as an induction principle: a text is empty, starts with the
    key, or starts with a byte at which the key does not match. *)
Lemma scan_ind (P : text -> Prop) :
  P [] ->
  (forall t, P t -> P (k ++ t)) ->
  (forall c s, starts_with k (c :: s) = false -> P s -> P (c :: s)) ->
  forall s, P s.
Proof.
  intros Hnil Hhit Hmiss s.
  remember (length s) as n eqn:En.
  revert s En; induction n as [n IH] using lt_wf_ind; intros s En.
  destruct s as [|c s]; [exact Hnil|].
  destruct (starts_with k (c :: s)) eqn:E.
  - apply starts_with_iff in E; destruct E as (t & E); rewrite E.
    apply Hhit, (IH (length t)); [|reflexivity].
    subst n; rewrite E, length_app.
    destruct k; [congruence | simpl; lia].
  - apply Hmiss; [exact E|].
    apply (IH (length s)); [subst n; simpl; lia | reflexivity].
Qed.

Lemma join_cons (sep u : text) (us : list text) :
  us <> [] -> join sep (u :: us) = u ++ sep ++ join sep us.
Proof. destruct us; [congruence | reflexivity]. Qed.

Lemma occurs_nil_absurd : ~ occurs k [].
Proof.
  intros (a & b & H); symmetry in H.
  apply app_eq_nil in H; destruct H as (_ & H).
  apply app_eq_nil in H; destruct H as (H & _); auto.
Qed.

(** The file is the untouched segments with the key between them; the
    result is the same segments with the value between them. *)
Lemma replace_all_segments (s : text) :
  exists us, us <> [] /\ s = join k us /\ replace_all k v s = join v us /\
             Forall (fun u => ~ occurs k u) us.
Proof.
  induction s as [| t (us & Hne & Hs & Hr & Hf) | c s Hmiss (us & Hne & Hs & Hr & Hf)]
    using scan_ind.
  - exists [[]]; repeat split; [discriminate | constructor; [apply occurs_nil_absurd | constructor]].
  - exists ([] :: us); repeat split.
    + discriminate.
    + rewrite join_cons by assumption; simpl; congruence.
    + rewrite replace_all_hit, join_cons by assumption; simpl; congruence.
    + constructor; [apply occurs_nil_absurd | exact Hf].
  - destruct us as [|u us]; [congruence|].
    exists ((c :: u) :: us); repeat split.
    + discriminate.
    + destruct us; simpl in *; congruence.
    + rewrite replace_all_miss by assumption.
      destruct us; simpl in *; congruence.
    + inversion Hf as [|? ? Hu Hus]; subst; constructor; [|assumption].
      intros Hocc; apply occursb_iff in Hocc; simpl in Hocc.
      apply orb_true_iff in Hocc; destruct Hocc as [Hsw | Hocc].
      * apply starts_with_iff in Hsw; destruct Hsw as (t & Ht).
        assert (starts_with k (c :: join k (u :: us)) = true) as Hx.
        { apply starts_with_iff.
          destruct us as [|u' us'].
          - simpl; exists t; exact Ht.
          - rewrite join_cons by discriminate.
            exists (t ++ k ++ join k (u' :: us')).
            change (c :: u ++ k ++ join k (u' :: us')) with ((c :: u) ++ k ++ join k (u' :: us')).
            rewrite Ht, <- app_assoc; reflexivity. }
        congruence.
      * apply Hu, occursb_iff; exact Hocc.
Qed.

(** Without an occurrence there is nothing to replace. *)
Lemma replace_all_id (s : text) : ~ occurs k s -> replace_all k v s = s.
Proof.
  intros H.
  assert (occursb k s = false) as Hb.
  { destruct (occursb k s) eqn:E; [apply occursb_iff in E; contradiction | reflexivity]. }
  clear H; induction s as [|c s IH]; [reflexivity|].
  simpl in Hb; apply orb_false_iff in Hb; destruct Hb as (Hsw & Hocc).
  rewrite replace_all_miss by exact Hsw.
  f_equal; apply IH; exact Hocc.
Qed.

End Replace.

(** ** Texts that meet *)

Lemma overlaps_iff (a b : text) :
  overlaps a b = true <->
  exists x y, y <> [] /\ a = x ++ y /\ starts_with y b = true.
Proof.
  induction a as [|c a IH]; simpl.
  - split; [discriminate|].
    intros (x & y & Hy & E & _); symmetry in E.
    apply app_eq_nil in E; destruct E; contradiction.
  - rewrite orb_true_iff, IH; split.
    + intros [H | (x & y & Hy & -> & H)].
      * exists [], (c :: a); repeat split; [discriminate | exact H].
      * exists (c :: x), y; repeat split; assumption.
    + intros (x & y & Hy & E & H); destruct x as [|c' x]; simpl in E.
      * left; subst y; exact H.
      * right; inversion E; subst; exists x, y; repeat split; assumption.
Qed.

Lemma touches_false (a b : text) :
  touches a b = false ->
  occursb a b = false /\ occursb b a = false /\
  overlaps a b = false /\ overlaps b a = false.
Proof.
  unfold touches; intros H.
  apply orb_false_iff in H; destruct H as (H & H4).
  apply orb_false_iff in H; destruct H as (H & H3).
  apply orb_false_iff in H; destruct H as (H1 & H2); auto.
Qed.

Lemma occursb_nil (s : text) : occursb [] s = true.
Proof. destruct s; reflexivity. Qed.

Lemma touches_not_nil (a b : text) : touches a b = false -> a <> [] /\ b <> [].
Proof.
  intros H; destruct (touches_false a b H) as (H1 & H2 & _).
  split; intros ->; rewrite occursb_nil in *; discriminate.
Qed.

(** Two non-empty texts without a common byte do not touch. *)
Lemma apart_touches (a b : text) :
  a <> [] -> b <> [] -> apart a b = true -> touches a b = false.
Proof.
  intros Ha Hb H; rewrite apart_iff in H.
  assert (forall c, In c a -> In c b -> False) as N
      by (intros c H1 H2; exact (H c H1 H2)).
  clear H; unfold touches.
  destruct (occursb a b) eqn:E1.
  { exfalso; apply occursb_iff in E1; destruct E1 as (x & y & ->).
    destruct a as [|c a']; [congruence|].
    apply (N c); [left; reflexivity | apply in_or_app; right; left; reflexivity]. }
  destruct (occursb b a) eqn:E2.
  { exfalso; apply occursb_iff in E2; destruct E2 as (x & y & ->).
    destruct b as [|c b']; [congruence|].
    apply (N c); [apply in_or_app; right; left; reflexivity | left; reflexivity]. }
  destruct (overlaps a b) eqn:E3.
  { exfalso; apply overlaps_iff in E3; destruct E3 as (x & y & Hy & -> & Hs).
    apply starts_with_iff in Hs; destruct Hs as (t & ->).
    destruct y as [|c y']; [congruence|].
    apply (N c); [apply in_or_app; right; left; reflexivity | left; reflexivity]. }
  destruct (overlaps b a) eqn:E4; [|reflexivity].
  exfalso; apply overlaps_iff in E4; destruct E4 as (x & y & Hy & -> & Hs).
  apply starts_with_iff in Hs; destruct Hs as (t & ->).
  destruct y as [|c y']; [congruence|].
  apply (N c); [left; reflexivity | apply in_or_app; right; left; reflexivity].
Qed.

(** ** What a pass can and cannot create *)

Section Fresh.

Variables k v : text.
Hypothesis k_not_empty : k <> [].

(** No occurrence of [q] starts inside a text [w] in which [q] neither
    occurs nor begins, whatever follows [w]. *)
Lemma occursb_through (q w x : text) :
  occursb q w = false -> overlaps w q = false ->
  occursb q (w ++ x) = occursb q x.
Proof.
  induction w as [|a w IH]; intros Ho Hv; [reflexivity|].
  cbn [occursb] in Ho; apply orb_false_iff in Ho; destruct Ho as (Hsw & Ho).
  cbn [overlaps] in Hv; apply orb_false_iff in Hv; destruct Hv as (Hcw & Hv).
  change ((a :: w) ++ x) with (a :: (w ++ x)).
  cbn [occursb]; rewrite (IH Ho Hv).
  destruct (starts_with q (a :: w ++ x)) eqn:E; [|reflexivity].
  apply starts_with_iff in E; destruct E as (r & E).
  change (a :: w ++ x) with ((a :: w) ++ x) in E.
  destruct (app_eq_split _ _ _ _ E) as (m & [(E1 & _) | (E1 & _)]).
  - assert (starts_with q (a :: w) = true) by (apply starts_with_iff; eauto).
    congruence.
  - assert (starts_with (a :: w) q = true) by (apply starts_with_iff; eauto).
    congruence.
Qed.

(** An end [p] of a text [q] that the inserted value does not meet: if the
    result of the pass begins with [p], the text before the pass did. *)
Lemma starts_with_replace_all (q x p s : text) :
  q = x ++ p -> occursb v q = false -> overlaps q v = false ->
  starts_with p (replace_all k v s) = true -> starts_with p s = true.
Proof.
  intros Hq Ho Hv; revert x p Hq.
  induction s as [| t IH | c s Hmiss IH] using (scan_ind k k_not_empty);
    intros x p Hq H.
  - exact H.
  - rewrite replace_all_hit in H by assumption.
    destruct p as [|a p]; [reflexivity|]; exfalso.
    apply starts_with_iff in H; destruct H as (r & E).
    destruct (app_eq_split _ _ _ _ E) as (m & [(E1 & _) | (E1 & _)]).
    + assert (overlaps q v = true) as Hx; [|congruence].
      apply overlaps_iff; exists x, (a :: p); repeat split;
        [discriminate | exact Hq | apply starts_with_iff; eauto].
    + assert (occurs v q) as Hx
          by (exists x, m; rewrite Hq, E1; reflexivity).
      apply occursb_iff in Hx; congruence.
  - rewrite replace_all_miss in H by assumption.
    destruct p as [|a p]; [reflexivity|].
    rewrite starts_with_cons in H |- *.
    apply andb_true_iff in H; destruct H as (Hac & H).
    rewrite Hac; cbn [andb]; apply (IH (x ++ [a]) p); [|exact H].
    rewrite <- app_assoc; exact Hq.
Qed.

(** A text [q] that the inserted value does not touch, and that does not
    occur before the pass, does not occur after it. *)
Lemma replace_all_keeps_absent (q s : text) :
  touches v q = false ->
  occursb q s = false -> occursb q (replace_all k v s) = false.
Proof.
  intros Ht; destruct (touches_false v q Ht) as (Hvq & Hqv & Hov & Hoq).
  induction s as [| t IH | c s Hmiss IH] using (scan_ind k k_not_empty); intros H.
  - exact H.
  - rewrite replace_all_hit by assumption.
    rewrite (occursb_through q v _ Hqv Hov).
    apply IH.
    destruct (occursb q t) eqn:E; [|reflexivity].
    apply occursb_iff in E; destruct E as (a & b & ->).
    assert (occurs q (k ++ a ++ q ++ b)) as Ho
        by (exists (k ++ a), b; rewrite <- app_assoc; reflexivity).
    apply occursb_iff in Ho; congruence.
  - rewrite replace_all_miss by assumption.
    cbn [occursb] in H; apply orb_false_iff in H; destruct H as (Hsw & Hocc).
    cbn [occursb]; rewrite (IH Hocc), orb_false_r.
    destruct (starts_with q (c :: replace_all k v s)) eqn:E; [|reflexivity].
    rewrite <- replace_all_miss in E by assumption.
    apply (starts_with_replace_all q [] q _ eq_refl Hvq Hoq) in E; congruence.
Qed.

(** After its own pass the key is gone, when the value does not touch
    it. *)
Lemma replace_all_clears (s : text) :
  touches v k = false -> occursb k (replace_all k v s) = false.
Proof.
  intros Ht; destruct (touches_false v k Ht) as (Hvk & Hkv & Hov & Hok).
  induction s as [| t IH | c s Hmiss IH] using (scan_ind k k_not_empty).
  - destruct k; [congruence | reflexivity].
  - rewrite replace_all_hit by assumption.
    rewrite (occursb_through k v _ Hkv Hov); exact IH.
  - rewrite replace_all_miss by assumption.
    cbn [occursb]; rewrite IH, orb_false_r.
    destruct (starts_with k (c :: replace_all k v s)) eqn:E; [|reflexivity].
    rewrite <- replace_all_miss in E by assumption.
    apply (starts_with_replace_all k [] k _ eq_refl Hvk Hok) in E; congruence.
Qed.

End Fresh.

(** ** A whole list of pairs *)

Lemma clear_app (ps qs : list (text * text)) :
  values_clear_of_keys (ps ++ qs) -> values_clear_of_keys ps.
Proof.
  intros H kv kv' Hkv Hkv'; apply H; apply in_or_app; left; assumption.
Qed.

Lemma replace_pairs_app (ps qs : list (text * text)) (c : text) :
  replace_pairs (ps ++ qs) c = replace_pairs qs (replace_pairs ps c).
Proof. unfold replace_pairs; apply fold_left_app. Qed.

Lemma replace_pairs_clears (ps : list (text * text)) (c : text) :
  values_clear_of_keys ps ->
  forall kv, In kv ps -> occursb (fst kv) (replace_pairs ps c) = false.
Proof.
  induction ps as [|[k0 v0] ps IH] using rev_ind; intros Hc kv Hin; [destruct Hin|].
  rewrite replace_pairs_app; cbn [replace_pairs fold_left fst snd].
  assert (In (k0, v0) (ps ++ [(k0, v0)])) as Hlast
      by (apply in_or_app; right; left; reflexivity).
  pose proof (Hc (k0, v0) (k0, v0) Hlast Hlast) as H0; cbn [fst snd] in H0.
  destruct (touches_not_nil v0 k0 H0) as (_ & Hk0).
  apply in_app_or in Hin; destruct Hin as [Hin | [<- | []]].
  - apply replace_all_keeps_absent; [exact Hk0 | |].
    + apply (Hc (k0, v0) kv Hlast), in_or_app; left; exact Hin.
    + apply IH; [apply (clear_app _ _ Hc) | exact Hin].
  - apply replace_all_clears; assumption.
Qed.

Lemma replace_pairs_id (ps : list (text * text)) (c : text) :
  (forall kv, In kv ps -> fst kv <> [] /\ occursb (fst kv) c = false) ->
  replace_pairs ps c = c.
Proof.
  induction ps as [|[k0 v0] ps IH]; intros H; [reflexivity|].
  cbn [replace_pairs fold_left fst snd].
  destruct (H (k0, v0) (or_introl eq_refl)) as (Hk & Ho); cbn [fst] in *.
  rewrite replace_all_id.
  - apply IH; intros kv Hkv; apply H; right; exact Hkv.
  - intros Hocc; apply occursb_iff in Hocc; congruence.
Qed.

(** A second round over the result of a round changes nothing, when no
    value touches a key. *)
Lemma replace_pairs_twice (ps : list (text * text)) (c : text) :
  values_clear_of_keys ps ->
  replace_pairs ps (replace_pairs ps c) = replace_pairs ps c.
Proof.
  intros Hc; apply replace_pairs_id; intros kv Hkv; split.
  - exact (proj2 (touches_not_nil _ _ (Hc kv kv Hkv Hkv))).
  - apply replace_pairs_clears; assumption.
Qed.

(** Values that are not empty and share no byte with any key touch none. *)
Lemma clean_pairs_clear (ps : list (text * text)) :
  clean_pairs ps -> values_clear_of_keys ps.
Proof.
  intros H kv kv' Hkv Hkv'.
  destruct (H kv Hkv) as (_ & Hv & Ha).
  destruct (H kv' Hkv') as (Hk & _ & _).
  apply apart_touches; [exact Hv | exact Hk | exact (Ha kv' Hkv')].
Qed.

(** ** Two keys that do not interfere *)

Section Through.

Variables k v : text.
Hypothesis k_not_empty : k <> [].

(** A text [w] in which the key neither occurs nor begins passes through
    the scan untouched, whatever follows it. *)
Lemma replace_all_through (w t : text) :
  occursb k w = false -> overlaps w k = false ->
  replace_all k v (w ++ t) = w ++ replace_all k v t.
Proof.
  induction w as [|c w IH]; intros Ho Hv; [reflexivity|].
  simpl in Ho; apply orb_false_iff in Ho; destruct Ho as (Hsw & Ho).
  cbn [overlaps] in Hv; apply orb_false_iff in Hv; destruct Hv as (Hcw & Hv).
  simpl; rewrite replace_all_miss; [f_equal; apply IH; assumption|].
  destruct (starts_with k (c :: w ++ t)) eqn:E; [|reflexivity].
  apply starts_with_iff in E; destruct E as (r & E).
  change (c :: w ++ t) with ((c :: w) ++ t) in E.
  destruct (app_eq_split _ _ _ _ E) as (m & [(E1 & _) | (E1 & _)]).
  - assert (starts_with k (c :: w) = true) by (apply starts_with_iff; eauto).
    congruence.
  - assert (starts_with (c :: w) k = true) by (apply starts_with_iff; eauto).
    congruence.
Qed.

(** A newline is never part of a match of a key without newline: the scan
    of a text is the scan of its lines. *)
Lemma replace_all_newline (l t : text) :
  mem NL k = false -> mem NL l = false ->
  replace_all k v (l ++ NL :: t) = replace_all k v l ++ NL :: replace_all k v t.
Proof.
  intros Hk.
  induction l as [| l IH | c l Hmiss IH] using (scan_ind k k_not_empty); intros Hl.
  - simpl; rewrite replace_all_miss; [reflexivity|].
    destruct k as [|b k']; [congruence|].
    rewrite mem_cons in Hk; apply orb_false_iff in Hk; destruct Hk as (Hb & _).
    rewrite starts_with_cons, Ascii.eqb_sym, Hb; reflexivity.
  - rewrite <- app_assoc, !replace_all_hit by assumption.
    rewrite mem_app in Hl; apply orb_false_iff in Hl; destruct Hl as (_ & Hl).
    rewrite (IH Hl), app_assoc; reflexivity.
  - rewrite mem_cons in Hl; apply orb_false_iff in Hl; destruct Hl as (Hc & Hl).
    simpl; rewrite !replace_all_miss; [rewrite (IH Hl); reflexivity | exact Hmiss |].
    destruct (starts_with k (c :: l ++ NL :: t)) eqn:E; [|reflexivity].
    apply starts_with_iff in E; destruct E as (r & E).
    change (c :: l ++ NL :: t) with ((c :: l) ++ NL :: t) in E.
    destruct (app_eq_split _ _ _ _ E) as (m & [(E1 & _) | (E1 & E2)]).
    + assert (starts_with k (c :: l) = true) by (apply starts_with_iff; eauto).
      congruence.
    + destruct m as [|x m].
      * rewrite app_nil_r in E1.
        assert (starts_with k (c :: l) = true)
          by (rewrite E1; apply starts_with_refl).
        congruence.
      * inversion E2; subst x.
        rewrite E1, mem_app, !mem_cons in Hk.
        rewrite Ascii.eqb_refl, !orb_true_r in Hk; discriminate.
Qed.

End Through.

Section Commute.

Variables k1 v1 k2 v2 : text.
Hypothesis keys_apart : touches k1 k2 = false.
Hypothesis v1_clear : touches v1 k2 = false.
Hypothesis v2_clear : touches v2 k1 = false.

Lemma replace_all_commute (s : text) :
  replace_all k1 v1 (replace_all k2 v2 s) = replace_all k2 v2 (replace_all k1 v1 s).
Proof.
  destruct (touches_false _ _ keys_apart) as (K12 & K21 & O12 & O21).
  destruct (touches_false _ _ v1_clear) as (A1 & B1 & C1 & D1).
  destruct (touches_false _ _ v2_clear) as (A2 & B2 & C2 & D2).
  destruct (touches_not_nil _ _ keys_apart) as (k1_not_empty & k2_not_empty).
  remember (length s) as n eqn:En.
  revert s En; induction n as [n IH] using lt_wf_ind; intros s En.
  destruct s as [|c s]; [reflexivity|].
  destruct (starts_with k1 (c :: s)) eqn:E1; [|destruct (starts_with k2 (c :: s)) eqn:E2].
  - apply starts_with_iff in E1; destruct E1 as (t & E); rewrite E.
    rewrite (replace_all_through k2 v2 k1 t K21 O12).
    rewrite !replace_all_hit by assumption.
    rewrite (replace_all_through k2 v2 v1 _ B1 C1).
    f_equal; apply (IH (length t)); [|reflexivity].
    subst n; rewrite E, length_app; destruct k1; [congruence | simpl; lia].
  - apply starts_with_iff in E2; destruct E2 as (t & E); rewrite E.
    rewrite (replace_all_through k1 v1 k2 t K12 O21).
    rewrite !replace_all_hit by assumption.
    rewrite (replace_all_through k1 v1 v2 _ B2 C2).
    f_equal; apply (IH (length t)); [|reflexivity].
    subst n; rewrite E, length_app; destruct k2; [congruence | simpl; lia].
  - rewrite (replace_all_miss k1 v1 _ _ E1), (replace_all_miss k2 v2 _ _ E2).
    rewrite !replace_all_miss.
    + f_equal; apply (IH (length s)); [subst n; simpl; lia | reflexivity].
    + destruct (starts_with k2 (c :: replace_all k1 v1 s)) eqn:E; [|reflexivity].
      rewrite <- (replace_all_miss k1 v1 _ _ E1) in E.
      apply (starts_with_replace_all k1 v1 k1_not_empty k2 [] k2 _ eq_refl A1 D1) in E.
      congruence.
    + destruct (starts_with k1 (c :: replace_all k2 v2 s)) eqn:E; [|reflexivity].
      rewrite <- (replace_all_miss k2 v2 _ _ E2) in E.
      apply (starts_with_replace_all k2 v2 k2_not_empty k1 [] k1 _ eq_refl A2 D2) in E.
      congruence.
Qed.

End Commute.

(** ** Patterns without special bytes are read literally *)

Lemma pattern_special_cases (c : ascii) :
  pattern_special c = false ->
  c <> "."%char /\ c <> "*"%char /\ c <> "^"%char /\ c <> "$"%char /\
  c <> "["%char /\ c <> "\"%char /\ c <> "|"%char /\ c <> NL.
Proof.
  unfold pattern_special; intros H.
  apply orb_false_iff in H; destruct H as (H & Hn).
  apply mem_false in H.
  repeat split; intros ->;
    try (apply H; vm_compute; tauto);
    rewrite Ascii.eqb_refl in Hn; discriminate.
Qed.

Lemma forallb_cons_true {A : Type} (f : A -> bool) (x : A) (l : list A) :
  forallb f (x :: l) = true -> f x = true /\ forallb f l = true.
Proof. simpl; apply andb_true_iff. Qed.

Lemma plain_no_special (k : text) (c : ascii) :
  forallb (fun c => negb (pattern_special c)) k = true ->
  pattern_special c = true -> mem c k = false.
Proof.
  intros H Hc; apply mem_false; intros Hin.
  rewrite forallb_forall in H; specialize (H c Hin).
  rewrite Hc in H; discriminate.
Qed.

Lemma parse_items_unstarred (c d : ascii) (s : text) :
  Ascii.eqb d "*"%char = false ->
  Bre.parse_items (c :: d :: s) =
  option_map (cons (Bre.atom_of c, false)) (Bre.parse_items (d :: s)).
Proof. intros H; cbn [Bre.parse_items]; rewrite H; reflexivity. Qed.

Lemma parse_items_plain (k : text) :
  forallb (fun c => negb (pattern_special c)) k = true ->
  Bre.parse_items k = Some (lits k).
Proof.
  induction k as [|c k IH]; intros H; [reflexivity|].
  apply forallb_cons_true in H; destruct H as (Hc & Hk).
  apply negb_true_iff, pattern_special_cases in Hc.
  assert (Bre.atom_of c = Bre.Lit c) as Ha.
  { unfold Bre.atom_of; destruct (Ascii.eqb_spec c "."%char); [tauto | reflexivity]. }
  destruct k as [|d k'].
  - simpl; rewrite Ha; reflexivity.
  - pose proof Hk as Hk'.
    apply forallb_cons_true in Hk'; destruct Hk' as (Hd & _).
    apply negb_true_iff, pattern_special_cases in Hd.
    rewrite parse_items_unstarred
      by (destruct (Ascii.eqb_spec d "*"%char); [tauto | reflexivity]).
    rewrite (IH Hk), Ha; reflexivity.
Qed.

Lemma strip_eol_plain (k : text) :
  forallb (fun c => negb (pattern_special c)) k = true ->
  Bre.strip_eol k = (k, false).
Proof.
  induction k as [|c k IH]; intros H; [reflexivity|].
  apply forallb_cons_true in H; destruct H as (Hc & Hk).
  apply negb_true_iff, pattern_special_cases in Hc.
  destruct k as [|d k'].
  - simpl; destruct (Ascii.eqb_spec c "$"%char); [tauto | reflexivity].
  - change (Bre.strip_eol (c :: d :: k'))
      with (let (r, e) := Bre.strip_eol (d :: k') in (c :: r, e)).
    rewrite (IH Hk); reflexivity.
Qed.

Lemma parse_plain (k : text) :
  forallb (fun c => negb (pattern_special c)) k = true ->
  Bre.parse k = Some (Bre.mk_regex false (lits k) false).
Proof.
  intros H; unfold Bre.parse.
  rewrite (plain_no_special k "\"%char H), (plain_no_special k "["%char H),
    (plain_no_special k NL H) by reflexivity.
  cbn [orb].
  assert ((match k with
           | c :: s' => if Ascii.eqb c "^"%char then (true, s') else (false, k)
           | [] => (false, k)
           end) = (false, k)) as ->.
  { destruct k as [|c k']; [reflexivity|].
    apply forallb_cons_true in H; destruct H as (Hc & _).
    apply negb_true_iff, pattern_special_cases in Hc.
    destruct (Ascii.eqb_spec c "^"%char); [tauto | reflexivity]. }
  rewrite (strip_eol_plain k H), (parse_items_plain k H); reflexivity.
Qed.

Lemma parse_anchored_plain (p : text) :
  plain_prefix p = true ->
  Bre.parse ("^"%char :: p) = Some (Bre.mk_regex true (lits p) false).
Proof.
  intros H; unfold Bre.parse, plain_prefix in *.
  rewrite !mem_cons.
  rewrite (plain_no_special p "\"%char H), (plain_no_special p "["%char H),
    (plain_no_special p NL H) by reflexivity.
  change (Ascii.eqb NL "^"%char) with false.
  cbn [orb Ascii.eqb Bool.eqb andb].
  rewrite (strip_eol_plain p H), (parse_items_plain p H); reflexivity.
Qed.

Lemma match_lits (k s : text) :
  Bre.match_items (lits k) false s =
  if starts_with k s then Some (length k) else None.
Proof.
  revert s; induction k as [|c k IH]; intros s; [reflexivity|].
  cbn [lits map Bre.match_items].
  destruct s as [|d s]; [reflexivity|].
  rewrite starts_with_cons; cbn [Bre.atom_ok].
  destruct (Ascii.eqb c d); [|reflexivity].
  fold (lits k); rewrite IH; cbn [andb].
  destruct (starts_with k s); reflexivity.
Qed.

Lemma search_anchored_later (r : Bre.regex) (s : text) :
  Bre.bol r = true -> Bre.search r false s = false.
Proof.
  intros H; induction s as [|c s IH]; simpl; unfold Bre.match_here;
    rewrite H; simpl; [reflexivity | exact IH].
Qed.

(** grep with an anchored literal pattern is the prefix test. *)
Lemma search_anchored_lits (p l : text) :
  Bre.search (Bre.mk_regex true (lits p) false) true l = starts_with p l.
Proof.
  destruct l as [|c l]; cbn [Bre.search]; unfold Bre.match_here;
    cbn [Bre.bol Bre.body Bre.eol negb andb]; rewrite match_lits.
  - destruct (starts_with p []); reflexivity.
  - destruct (starts_with p (c :: l)); [reflexivity|].
    apply search_anchored_later; reflexivity.
Qed.

Lemma expand_plain (v m : text) :
  plain_value v = true -> Sed.expand v m = v.
Proof.
  unfold plain_value, Sed.expand; induction v as [|c v IH]; intros H; [reflexivity|].
  apply forallb_cons_true in H; destruct H as (Hc & Hv).
  cbn [flat_map]; rewrite (IH Hv).
  destruct (Ascii.eqb_spec c "&"%char) as [->|]; [discriminate | reflexivity].
Qed.

Lemma subst_g_lits (k v : text) :
  k <> [] -> plain_value v = true ->
  forall s skip b adj,
    Sed.subst_g (Bre.mk_regex false (lits k) false) v skip b adj s =
    replace_from k v skip s.
Proof.
  intros Hk Hv; induction s as [|c s IH]; intros skip b adj.
  - destruct skip; [|reflexivity].
    cbn [Sed.subst_g]; unfold Bre.match_here;
      cbn [Bre.bol Bre.body Bre.eol andb]; rewrite match_lits.
    destruct k; [congruence | reflexivity].
  - destruct skip as [|n]; cbn [Sed.subst_g replace_from]; [|apply IH].
    unfold Bre.match_here; cbn [Bre.bol Bre.body Bre.eol andb]; rewrite match_lits.
    destruct (starts_with k (c :: s)).
    + destruct k as [|x k']; [congruence|].
      cbn [length]; rewrite expand_plain by assumption.
      rewrite IH, Nat.sub_succ, Nat.sub_0_r; reflexivity.
    + rewrite IH; reflexivity.
Qed.

Lemma per_line_ext (f g : text -> text) (cur s : text) :
  (forall x, f x = g x) -> Sed.per_line f cur s = Sed.per_line g cur s.
Proof.
  intros H; revert cur; induction s as [|c s IH]; intros cur; simpl.
  - destruct cur; [reflexivity | apply H].
  - destruct (Ascii.eqb c NL); [rewrite H, IH; reflexivity | apply IH].
Qed.

Lemma per_line_replace_all (k v cur s : text) :
  k <> [] -> mem NL k = false -> mem NL cur = false ->
  Sed.per_line (replace_all k v) cur s = replace_all k v (cur ++ s).
Proof.
  intros Hk Hn; revert cur; induction s as [|c s IH]; intros cur Hcur.
  - rewrite app_nil_r; destruct cur; reflexivity.
  - cbn [Sed.per_line]; destruct (Ascii.eqb_spec c NL) as [->|Hc].
    + rewrite IH by reflexivity.
      rewrite replace_all_newline by assumption; reflexivity.
    + rewrite IH.
      * rewrite <- app_assoc; reflexivity.
      * rewrite mem_app, Hcur, mem_cons.
        apply Ascii.eqb_neq in Hc; rewrite Ascii.eqb_sym, Hc; reflexivity.
Qed.

Lemma plain_key_facts (k : text) :
  plain_key k = true ->
  k <> [] /\ forallb (fun c => negb (pattern_special c)) k = true /\
  mem NL k = false /\ mem "|"%char k = false /\ mem "\"%char k = false.
Proof.
  unfold plain_key; intros H; apply andb_true_iff in H; destruct H as (Hne & Hp).
  split; [destruct k; [discriminate | congruence]|].
  split; [exact Hp|].
  repeat split; apply (plain_no_special k _ Hp); vm_compute; reflexivity.
Qed.

Lemma plain_value_facts (v : text) :
  plain_value v = true -> mem "|"%char v = false /\ mem "\"%char v = false.
Proof.
  unfold plain_value; intros H; split; apply mem_false; intros Hin;
    rewrite forallb_forall in H; apply H in Hin; discriminate.
Qed.

(** sed compiles the script of a plain pair, and its edit of a file is the
    literal replacement. *)
Lemma compile_plain (k v : text) :
  plain_key k = true -> plain_value v = true ->
  Sed.compile k v = Sed.Subst (Bre.mk_regex false (lits k) false) v.
Proof.
  intros Hk Hv.
  destruct (plain_key_facts k Hk) as (Hne & Hp & _ & Hbar & Hbs).
  destruct (plain_value_facts v Hv) as (Hvbar & Hvbs).
  unfold Sed.compile; rewrite Hbar, Hbs, Hvbar, Hvbs; cbn [orb].
  destruct k as [|c k']; [congruence|]; cbn [is_nil].
  rewrite (parse_plain _ Hp); reflexivity.
Qed.

Lemma edit_plain (k v c : text) :
  plain_key k = true -> plain_value v = true ->
  Sed.edit (Bre.mk_regex false (lits k) false) v c = replace_all k v c.
Proof.
  intros Hk Hv.
  destruct (plain_key_facts k Hk) as (Hne & _ & Hnl & _).
  unfold Sed.edit.
  transitivity (Sed.per_line (replace_all k v) [] c).
  - apply per_line_ext; intros x; unfold Sed.subst_line.
    rewrite subst_g_lits by assumption; reflexivity.
  - apply (per_line_replace_all k v [] c Hne Hnl eq_refl).
Qed.

(** ** The file system under sed -i *)

Section FsFacts.

Lemma peqb_eq (p q : Fs.path) : Fs.peqb p q = true <-> p = q.
Proof.
  revert q; induction p as [|a p IH]; intros [|b q]; simpl;
    try (split; [discriminate | congruence]); try tauto.
  rewrite andb_true_iff, teqb_eq, IH.
  split; [intros [-> ->]; reflexivity | intros H; inversion H; auto].
Qed.

Lemma rewrite_fst (root : Fs.path) (f : text -> text) (e : Fs.path * Fs.node) :
  fst (Fs.rewrite root f e) = fst e.
Proof.
  destruct e as [p [|[|] c]]; simpl; try reflexivity.
  destruct (Fs.under root p); reflexivity.
Qed.

Lemma rewrite_shape (root : Fs.path) (f : text -> text) (e : Fs.path * Fs.node) :
  Fs.shape (Fs.rewrite root f e) = Fs.shape e.
Proof.
  destruct e as [p [|[|] c]]; simpl; try reflexivity.
  destruct (Fs.under root p); reflexivity.
Qed.

Lemma shape_sed_i (root : Fs.path) (f : text -> text) (fs : Fs.t) :
  map Fs.shape (Fs.entries (Fs.sed_i root f fs)) = map Fs.shape (Fs.entries fs).
Proof.
  unfold Fs.sed_i; cbn [Fs.entries]; rewrite map_map.
  apply map_ext; intros e; apply rewrite_shape.
Qed.

(** Directories, targets and blocked files depend on the shape only. *)
Lemma is_dir_shape (es es' : list (Fs.path * Fs.node)) (p : Fs.path) :
  map Fs.shape es = map Fs.shape es' -> Fs.is_dir es p = Fs.is_dir es' p.
Proof.
  intros H; unfold Fs.is_dir; destruct p as [|a p]; [reflexivity|].
  revert es' H; induction es as [|[q n] es IH]; intros [|[q' n'] es'] H;
    try discriminate; [reflexivity|].
  simpl in H; inversion H as [[H1 H2]].
  assert (q = q') as <- by (destruct n, n'; simpl in H1; congruence).
  cbn [Fs.lookup]; destruct (Fs.peqb q (a :: p)).
  - destruct n, n'; simpl in H1; try reflexivity; discriminate.
  - apply IH; exact H2.
Qed.

Lemma walk_shape (es es' : list (Fs.path * Fs.node)) (cs : list text) (cur : Fs.path) :
  map Fs.shape es = map Fs.shape es' -> Fs.walk es cur cs = Fs.walk es' cur cs.
Proof.
  intros H; revert cur; induction cs as [|c cs IH]; intros cur; cbn [Fs.walk];
    rewrite (is_dir_shape es es' cur H); [reflexivity|].
  rewrite !IH; reflexivity.
Qed.

Lemma directory_shape (fs fs' : Fs.t) (d : text) :
  Fs.cwd fs = Fs.cwd fs' ->
  map Fs.shape (Fs.entries fs) = map Fs.shape (Fs.entries fs') ->
  Fs.directory fs d = Fs.directory fs' d.
Proof.
  intros Hc H; unfold Fs.directory; destruct d as [|c d]; [reflexivity|].
  rewrite Hc; apply walk_shape; exact H.
Qed.

Lemma existsb_shape (g : Fs.path * option bool -> bool) (h : Fs.path * Fs.node -> bool)
      (es es' : list (Fs.path * Fs.node)) :
  (forall e, h e = g (Fs.shape e)) ->
  map Fs.shape es = map Fs.shape es' -> existsb h es = existsb h es'.
Proof.
  intros Hh; revert es'; induction es as [|e es IH]; intros [|e' es'] H;
    try discriminate; [reflexivity|].
  simpl in H; inversion H as [[H1 H2]].
  cbn [existsb]; rewrite !Hh, H1, (IH es' H2); reflexivity.
Qed.

Lemma blocked_shape (root : Fs.path) (es es' : list (Fs.path * Fs.node)) :
  map Fs.shape es = map Fs.shape es' ->
  existsb (Fs.is_blocked root) es = existsb (Fs.is_blocked root) es'.
Proof.
  apply (existsb_shape
           (fun s => match s with (p, Some false) => Fs.under root p | _ => false end)).
  intros [p [|[|] c]]; reflexivity.
Qed.

Lemma target_shape (root : Fs.path) (es es' : list (Fs.path * Fs.node)) :
  map Fs.shape es = map Fs.shape es' ->
  existsb (Fs.is_target root) es = existsb (Fs.is_target root) es'.
Proof.
  apply (existsb_shape
           (fun s => match s with (p, Some _) => Fs.under root p | _ => false end)).
  intros [p [|[|] c]]; reflexivity.
Qed.

Lemma accessible_shape (fs fs' : Fs.t) :
  map Fs.shape (Fs.entries fs) = map Fs.shape (Fs.entries fs') ->
  all_accessible fs = all_accessible fs'.
Proof.
  intros H; unfold all_accessible.
  assert (forall es, forallb (fun e => match snd e with Fs.File false _ => false | _ => true end) es
                     = forallb (fun s => match snd s with Some false => false | _ => true end)
                               (map Fs.shape es)) as Hx.
  { induction es as [|[p [|[|] c]] es IH]; simpl; rewrite ?IH; reflexivity. }
  rewrite !Hx, H; reflexivity.
Qed.

Lemma accessible_not_blocked (fs : Fs.t) (root : Fs.path) :
  all_accessible fs = true -> existsb (Fs.is_blocked root) (Fs.entries fs) = false.
Proof.
  unfold all_accessible; induction (Fs.entries fs) as [|[p [|[|] c]] es IH];
    simpl; intros H; try discriminate; auto.
Qed.

(** Without a regular file under the root, sed -i has nothing to do. *)
Lemma sed_i_no_target (root : Fs.path) (f : text -> text) (fs : Fs.t) :
  existsb (Fs.is_target root) (Fs.entries fs) = false -> Fs.sed_i root f fs = fs.
Proof.
  destruct fs as [cw es]; unfold Fs.sed_i; cbn [Fs.cwd Fs.entries]; intros H.
  f_equal; induction es as [|[p n] es IH]; [reflexivity|].
  simpl in H; apply orb_false_iff in H; destruct H as (Hp & Hes).
  cbn [map]; rewrite (IH Hes); f_equal.
  destruct n as [|[|] c]; simpl in *; [reflexivity | rewrite Hp; reflexivity | reflexivity].
Qed.

Lemma sed_i_compose (root : Fs.path) (f g : text -> text) (fs : Fs.t) :
  Fs.sed_i root g (Fs.sed_i root f fs) = Fs.sed_i root (fun c => g (f c)) fs.
Proof.
  unfold Fs.sed_i; cbn [Fs.cwd Fs.entries]; rewrite map_map; f_equal.
  apply map_ext; intros [p [|[|] c]]; simpl; try reflexivity.
  destruct (Fs.under root p) eqn:E; simpl; rewrite ?E; reflexivity.
Qed.

Lemma sed_i_ext (root : Fs.path) (f g : text -> text) (fs : Fs.t) :
  (forall c, f c = g c) -> Fs.sed_i root f fs = Fs.sed_i root g fs.
Proof.
  intros H; unfold Fs.sed_i; f_equal; apply map_ext.
  intros [p [|[|] c]]; simpl; try reflexivity.
  rewrite H; reflexivity.
Qed.

Lemma sed_i_id (root : Fs.path) (fs : Fs.t) : Fs.sed_i root (fun c => c) fs = fs.
Proof.
  destruct fs as [cw es]; unfold Fs.sed_i; cbn [Fs.cwd Fs.entries]; f_equal.
  rewrite <- (map_id es) at 2; apply map_ext.
  intros [p [|[|] c]]; simpl; try reflexivity.
  destruct (Fs.under root p); reflexivity.
Qed.

(** The entry found at a path, after sed -i. *)
Lemma lookup_sed_i (root : Fs.path) (f : text -> text) (fs : Fs.t) (p : Fs.path) :
  Fs.lookup (Fs.entries (Fs.sed_i root f fs)) p =
  option_map (fun n => snd (Fs.rewrite root f (p, n))) (Fs.lookup (Fs.entries fs) p).
Proof.
  unfold Fs.sed_i; cbn [Fs.entries].
  induction (Fs.entries fs) as [|[q n] es IH]; [reflexivity|].
  cbn [map Fs.lookup].
  pose proof (rewrite_fst root f (q, n)) as Hq; cbn [fst] in Hq.
  destruct (Fs.rewrite root f (q, n)) as [q' n'] eqn:E; cbn [fst] in Hq; subst q'.
  destruct (Fs.peqb q p) eqn:Ep.
  - apply peqb_eq in Ep; subst q; cbn [option_map]; rewrite E; reflexivity.
  - exact IH.
Qed.

Lemma content_sed_i (root : Fs.path) (f : text -> text) (fs : Fs.t)
      (p : Fs.path) (c : text) :
  Fs.lookup (Fs.entries fs) p = Some (Fs.File true c) ->
  Fs.lookup (Fs.entries (Fs.sed_i root f fs)) p =
  Some (Fs.File true (if Fs.under root p then f c else c)).
Proof.
  intros H; rewrite lookup_sed_i, H; simpl.
  destruct (Fs.under root p); reflexivity.
Qed.

End FsFacts.

(** ** The steps of the script *)

Section Steps.

Lemma setvar_absent (E : environ) (name v : text) :
  getvar E name = None -> setvar E name v = E.
Proof.
  unfold setvar; induction E as [|[n w] E IH]; [reflexivity|].
  cbn [getvar map fst]; destruct (teqb n name); [discriminate|].
  intros H; rewrite (IH H); reflexivity.
Qed.

Lemma setvar_setvar (E : environ) (name v w : text) :
  setvar (setvar E name v) name w = setvar E name w.
Proof.
  unfold setvar; rewrite map_map; apply map_ext; intros [n x]; cbn [fst].
  destruct (teqb n name) eqn:En; cbn [fst]; rewrite En; reflexivity.
Qed.

Lemma same_shape_refl (fs : Fs.t) : same_shape fs fs.
Proof. split; reflexivity. Qed.

Lemma same_shape_trans (a b c : Fs.t) :
  same_shape a b -> same_shape b c -> same_shape a c.
Proof. intros (H1 & H2) (H3 & H4); split; congruence. Qed.

Lemma same_shape_sed_i (root : Fs.path) (f : text -> text) (fs : Fs.t) :
  same_shape fs (Fs.sed_i root f fs).
Proof. split; [reflexivity | apply shape_sed_i]. Qed.

Lemma same_shape_directory (fs fs' : Fs.t) (d : text) :
  same_shape fs fs' -> Fs.directory fs' d = Fs.directory fs d.
Proof. intros (H1 & H2); apply directory_shape; assumption. Qed.

Lemma same_shape_blocked (fs fs' : Fs.t) (root : Fs.path) :
  same_shape fs fs' ->
  existsb (Fs.is_blocked root) (Fs.entries fs') =
  existsb (Fs.is_blocked root) (Fs.entries fs).
Proof. intros (_ & H); apply blocked_shape; exact H. Qed.

Lemma same_shape_accessible (fs fs' : Fs.t) :
  same_shape fs fs' -> all_accessible fs' = all_accessible fs.
Proof. intros (_ & H); apply accessible_shape; exact H. Qed.

(** *** find ... -exec sed -i ... *)

Lemma find_shape (root : Fs.path) (k v : text) (fs : Fs.t) :
  same_shape fs (fst (find_exec_sed root k v fs)).
Proof.
  unfold find_exec_sed.
  destruct (negb (existsb (Fs.is_target root) (Fs.entries fs)));
    [apply same_shape_refl|].
  destruct (Sed.compile k v); cbn [fst];
    [apply same_shape_sed_i | apply same_shape_refl | apply same_shape_refl].
Qed.

Lemma find_ok (root : Fs.path) (k v : text) (fs : Fs.t) (r : Bre.regex) (w : text) :
  Sed.compile k v = Sed.Subst r w ->
  existsb (Fs.is_blocked root) (Fs.entries fs) = false ->
  find_exec_sed root k v fs = (Fs.sed_i root (Sed.edit r w) fs, Exit0).
Proof.
  intros Hc Hb; unfold find_exec_sed.
  destruct (existsb (Fs.is_target root) (Fs.entries fs)) eqn:Et; cbn [negb].
  - rewrite Hc, Hb; reflexivity.
  - rewrite sed_i_no_target by exact Et; reflexivity.
Qed.

Lemma blocked_is_target (root : Fs.path) (es : list (Fs.path * Fs.node)) :
  existsb (Fs.is_blocked root) es = true -> existsb (Fs.is_target root) es = true.
Proof.
  induction es as [|[p [|[|] c]] es IH]; simpl; intros H; auto.
  - rewrite (IH H); apply orb_true_r.
  - apply orb_true_iff in H; destruct H as [H | H];
      [rewrite H; reflexivity | rewrite (IH H); apply orb_true_r].
Qed.

(** With an inaccessible file under the root, find does not succeed. *)
Lemma find_blocked (root : Fs.path) (k v : text) (fs : Fs.t) :
  existsb (Fs.is_blocked root) (Fs.entries fs) = true ->
  snd (find_exec_sed root k v fs) = ExitNonZero CommandFailed \/
  snd (find_exec_sed root k v fs) = Unmodelled.
Proof.
  intros Hb; unfold find_exec_sed.
  rewrite (blocked_is_target root _ Hb); cbn [negb].
  destruct (Sed.compile k v); cbn [snd]; rewrite ?Hb; auto.
Qed.

Lemma compile_no_backslash (k v : text) (r : Bre.regex) (w : text) :
  Sed.compile k v = Sed.Subst r w ->
  mem "\"%char k || mem "\"%char v = false.
Proof.
  unfold Sed.compile.
  destruct (mem "|"%char k), (mem "\"%char k), (mem "|"%char v), (mem "\"%char v);
    cbn [orb]; try discriminate; reflexivity.
Qed.

(** *** The while loop *)

Lemma while_read_shape (d : text) (root : Fs.path) (ls : list text) (fs : Fs.t) :
  same_shape fs (files_of (while_read d root ls fs)).
Proof.
  revert fs; induction ls as [|l ls IH]; intros fs; [apply same_shape_refl|].
  cbn [while_read]; destruct (read_kv l) as [k v].
  destruct (mem "\"%char k || mem "\"%char v); [apply same_shape_refl|].
  pose proof (find_shape root k v fs) as Hf.
  destruct (find_exec_sed root k v fs) as [fs1 st1]; cbn [fst] in Hf.
  destruct st1; try exact Hf.
  specialize (IH fs1).
  destruct (while_read d root ls fs1) as [[t fs2] st]; unfold files_of in *.
  cbn [fst snd] in *; apply (same_shape_trans _ _ _ Hf IH).
Qed.

(** When sed accepts every script and every file is accessible, the loop
    runs to its end and leaves the edits of all its lines. *)
Lemma while_read_ok (d : text) (root : Fs.path) (ls : list text)
      (rs : list (Bre.regex * text)) (fs : Fs.t) :
  compile_all ls = Some rs ->
  ls = [] \/ existsb (Fs.is_blocked root) (Fs.entries fs) = false ->
  while_read d root ls fs = (loop_events d ls, Fs.sed_i root (edits rs) fs, Exit0).
Proof.
  revert rs fs; induction ls as [|l ls IH]; intros rs fs Hc Hb.
  - inversion Hc; subst; cbn [while_read loop_events flat_map].
    rewrite (sed_i_ext root (edits []) (fun c => c)) by reflexivity.
    rewrite sed_i_id; reflexivity.
  - cbn [compile_all] in Hc; cbn [while_read loop_events flat_map].
    destruct (read_kv l) as [k v]; cbn [fst snd] in *.
    destruct (Sed.compile k v) as [r w| |] eqn:Ec; try discriminate.
    destruct (compile_all ls) as [rs'|] eqn:Ecs; [|discriminate].
    inversion Hc; subst rs; clear Hc.
    destruct Hb as [Hb | Hb]; [discriminate|].
    rewrite (compile_no_backslash k v r w Ec).
    rewrite (find_ok root k v fs r w Ec Hb).
    rewrite (IH rs' (Fs.sed_i root (Sed.edit r w) fs) eq_refl).
    + rewrite sed_i_compose; reflexivity.
    + right; rewrite (same_shape_blocked fs _ root (same_shape_sed_i _ _ _)); exact Hb.
Qed.

(** A loop that succeeds has run over all its lines. *)
Lemma while_read_exit0 (d : text) (root : Fs.path) (ls : list text) (fs : Fs.t) :
  status_of (while_read d root ls fs) = Exit0 ->
  trace_of (while_read d root ls fs) = loop_events d ls.
Proof.
  revert fs; induction ls as [|l ls IH]; intros fs; [reflexivity|].
  cbn [while_read loop_events flat_map].
  destruct (read_kv l) as [k v]; cbn [fst snd].
  destruct (mem "\"%char k || mem "\"%char v); [discriminate|].
  destruct (find_exec_sed root k v fs) as [fs1 st1].
  destruct st1; try discriminate.
  specialize (IH fs1); unfold status_of, trace_of in *.
  destruct (while_read d root ls fs1) as [[t fs2] st]; cbn [fst snd] in *.
  intros H; rewrite (IH H); reflexivity.
Qed.

(** Every find of the loop is on the loop's own directory. *)
Lemma while_read_dirs (d : text) (root : Fs.path) (ls : list text) (fs : Fs.t)
      (d' k v : text) :
  In (ExecFindSed d' k v) (trace_of (while_read d root ls fs)) -> d' = d.
Proof.
  revert fs; induction ls as [|l ls IH]; intros fs; [intros []|].
  cbn [while_read].
  destruct (read_kv l) as [k0 v0].
  destruct (mem "\"%char k0 || mem "\"%char v0); [intros []|].
  assert (In (ExecFindSed d' k v) [Stdout (replacing k0 v0); ExecFindSed d k0 v0] -> d' = d)
    as Hhead by (intros [H | [H | []]]; congruence).
  destruct (find_exec_sed root k0 v0 fs) as [fs1 st1].
  destruct st1; try exact Hhead.
  specialize (IH fs1); unfold trace_of in *.
  destruct (while_read d root ls fs1) as [[t fs2] st]; cbn [fst snd] in *.
  intros H; apply in_app_or in H; destruct H; auto.
Qed.

(** With an inaccessible file under the root the loop ends at its first
    line. *)
Lemma while_read_blocked (d : text) (root : Fs.path) (l : text) (ls : list text)
      (fs : Fs.t) :
  existsb (Fs.is_blocked root) (Fs.entries fs) = true ->
  status_of (while_read d root (l :: ls) fs) = Unmodelled \/
  (status_of (while_read d root (l :: ls) fs) = ExitNonZero CommandFailed /\
   trace_of (while_read d root (l :: ls) fs) =
   [Stdout (replacing (fst (read_kv l)) (snd (read_kv l)));
    ExecFindSed d (fst (read_kv l)) (snd (read_kv l))]).
Proof.
  intros Hb; cbn [while_read].
  destruct (read_kv l) as [k v]; cbn [fst snd].
  destruct (mem "\"%char k || mem "\"%char v); [left; reflexivity|].
  pose proof (find_blocked root k v fs Hb) as Hf.
  destruct (find_exec_sed root k v fs) as [fs1 st1]; cbn [snd] in Hf.
  destruct Hf as [-> | ->]; [right; split; reflexivity | left; reflexivity].
Qed.

End Steps.

(** ** The pipeline and the loop over the roots *)

Section Loops.

Variable prefix : text.

Lemma pipeline_shape (d : text) (root : Fs.path) (E : environ) (fs : Fs.t) :
  same_shape fs (files_of (pipeline prefix d root E fs)).
Proof.
  unfold pipeline.
  destruct (grep ("^"%char :: prefix) (env_output E)) as [ls|];
    [|apply same_shape_refl].
  pose proof (while_read_shape d root ls fs) as H; unfold files_of in *.
  destruct (while_read d root ls fs) as [[t fs1] st]; exact H.
Qed.

Lemma pipeline_ok (d : text) (root : Fs.path) (E : environ) (fs : Fs.t)
      (ls : list text) (rs : list (Bre.regex * text)) :
  grep ("^"%char :: prefix) (env_output E) = Some ls ->
  compile_all ls = Some rs ->
  ls = [] \/ existsb (Fs.is_blocked root) (Fs.entries fs) = false ->
  pipeline prefix d root E fs =
  (ExecEnv :: loop_events d ls, Fs.sed_i root (edits rs) fs, Exit0).
Proof.
  intros Hg Hc Hb; unfold pipeline; rewrite Hg.
  rewrite (while_read_ok d root ls rs fs Hc Hb); reflexivity.
Qed.

Lemma pipeline_exit0 (d : text) (root : Fs.path) (E : environ) (fs : Fs.t) :
  status_of (pipeline prefix d root E fs) = Exit0 ->
  trace_of (pipeline prefix d root E fs) =
  ExecEnv :: loop_events d (selected_lines prefix E).
Proof.
  unfold pipeline, selected_lines.
  destruct (grep ("^"%char :: prefix) (env_output E)) as [ls|]; [|discriminate].
  pose proof (while_read_exit0 d root ls fs) as H; unfold status_of, trace_of in *.
  destruct (while_read d root ls fs) as [[t fs1] st]; cbn [fst snd] in *.
  intros Hs; rewrite (H Hs); reflexivity.
Qed.

Lemma pipeline_dirs (d : text) (root : Fs.path) (E : environ) (fs : Fs.t)
      (d' k v : text) :
  In (ExecFindSed d' k v) (trace_of (pipeline prefix d root E fs)) -> d' = d.
Proof.
  unfold pipeline.
  destruct (grep ("^"%char :: prefix) (env_output E)) as [ls|].
  - pose proof (while_read_dirs d root ls fs d' k v) as H; unfold trace_of in *.
    destruct (while_read d root ls fs) as [[t fs1] st]; cbn [fst snd] in *.
    intros [Hx | Hx]; [discriminate | auto].
  - intros [Hx | []]; discriminate.
Qed.

(** A pass over a root that holds an inaccessible file ends with its first
    find, and does not succeed. *)
Lemma pipeline_blocked (d : text) (root : Fs.path) (E : environ) (fs : Fs.t)
      (d' k v : text) :
  existsb (Fs.is_blocked root) (Fs.entries fs) = true ->
  In (ExecFindSed d' k v) (trace_of (pipeline prefix d root E fs)) ->
  status_of (pipeline prefix d root E fs) = Unmodelled \/
  (status_of (pipeline prefix d root E fs) = ExitNonZero CommandFailed /\
   exists t, trace_of (pipeline prefix d root E fs) = t ++ [ExecFindSed d' k v]).
Proof.
  intros Hb; unfold pipeline.
  destruct (grep ("^"%char :: prefix) (env_output E)) as [[|l ls]|];
    [intros [Hx | []]; discriminate | | left; reflexivity].
  pose proof (while_read_blocked d root l ls fs Hb) as H.
  unfold status_of, trace_of in *.
  destruct (while_read d root (l :: ls) fs) as [[t fs1] st]; cbn [fst snd] in *.
  destruct H as [-> | (-> & ->)]; [left; reflexivity|].
  intros [Hx | [Hx | [Hx | []]]]; try discriminate.
  right; split; [reflexivity|].
  exists [ExecEnv; Stdout (replacing (fst (read_kv l)) (snd (read_kv l)))].
  rewrite Hx; reflexivity.
Qed.

Lemma dir_events_ext (L L' : text -> list text) (fs fs' : Fs.t) (ds : list text) :
  (forall d, In d ds -> L d = L' d) -> same_shape fs fs' ->
  dir_events L fs' ds = dir_events L' fs ds.
Proof.
  intros HL Hs; unfold dir_events; induction ds as [|d ds IH]; [reflexivity|].
  cbn [flat_map]; rewrite IH by (intros; apply HL; right; assumption).
  rewrite (same_shape_directory fs fs' d Hs), (HL d (or_introl eq_refl)).
  reflexivity.
Qed.

Lemma for_dirs_shape (ds : list text) (E : environ) (fs : Fs.t) :
  same_shape fs (files_of (for_dirs prefix ds E fs)).
Proof.
  revert E fs; induction ds as [|d ds IH]; intros E fs; [apply same_shape_refl|].
  cbn [for_dirs]; destruct (Fs.directory fs d) as [root|].
  - pose proof (pipeline_shape d root (setvar E (tx "dir") d) fs) as Hp.
    unfold files_of in *.
    destruct (pipeline prefix d root (setvar E (tx "dir") d) fs) as [[t1 fs1] st1].
    cbn [fst snd] in Hp.
    destruct st1; try exact Hp.
    specialize (IH (setvar E (tx "dir") d) fs1).
    destruct (for_dirs prefix ds (setvar E (tx "dir") d) fs1) as [[t2 fs2] st2].
    cbn [fst snd] in *; apply (same_shape_trans _ _ _ Hp IH).
  - specialize (IH (setvar E (tx "dir") d) fs); unfold files_of in *.
    destruct (for_dirs prefix ds (setvar E (tx "dir") d) fs) as [[t2 fs2] st2].
    exact IH.
Qed.

(** A run that succeeds has gone through every root, and through every
    line of the listing taken at each existing root. *)
Lemma for_dirs_exit0 (fs0 : Fs.t) (ds : list text) (E : environ) (fs : Fs.t) :
  same_shape fs0 fs ->
  status_of (for_dirs prefix ds E fs) = Exit0 ->
  trace_of (for_dirs prefix ds E fs) =
  dir_events (fun d => selected_lines prefix (setvar E (tx "dir") d)) fs0 ds.
Proof.
  revert E fs; induction ds as [|d ds IH]; intros E fs Hs; [reflexivity|].
  cbn [for_dirs]; unfold dir_events; cbn [flat_map]; fold (dir_events
    (fun d => selected_lines prefix (setvar E (tx "dir") d)) fs0 ds).
  rewrite <- (same_shape_directory fs0 fs d Hs).
  set (E1 := setvar E (tx "dir") d).
  assert (dir_events (fun d' => selected_lines prefix (setvar E1 (tx "dir") d')) fs0 ds
          = dir_events (fun d' => selected_lines prefix (setvar E (tx "dir") d')) fs0 ds)
    as Hext.
  { apply dir_events_ext; [|apply same_shape_refl].
    intros d' _; unfold E1; rewrite setvar_setvar; reflexivity. }
  destruct (Fs.directory fs d) as [root|].
  - pose proof (pipeline_shape d root E1 fs) as Hp.
    pose proof (pipeline_exit0 d root E1 fs) as Hx.
    unfold files_of, status_of, trace_of in *.
    destruct (pipeline prefix d root E1 fs) as [[t1 fs1] st1]; cbn [fst snd] in *.
    destruct st1; try discriminate.
    specialize (IH E1 fs1 (same_shape_trans _ _ _ Hs Hp)).
    destruct (for_dirs prefix ds E1 fs1) as [[t2 fs2] st2]; cbn [fst snd] in *.
    intros H; rewrite (Hx eq_refl), (IH H), Hext; reflexivity.
  - specialize (IH E1 fs Hs); unfold status_of, trace_of in *.
    destruct (for_dirs prefix ds E1 fs) as [[t2 fs2] st2]; cbn [fst snd] in *.
    intros H; rewrite (IH H), Hext; reflexivity.
Qed.

(** Only the words of the list are ever handed to find. *)
Lemma for_dirs_dirs (ds : list text) (E : environ) (fs : Fs.t) (d k v : text) :
  In (ExecFindSed d k v) (trace_of (for_dirs prefix ds E fs)) -> In d ds.
Proof.
  revert E fs; induction ds as [|d0 ds IH]; intros E fs; [intros []|].
  cbn [for_dirs]; set (E1 := setvar E (tx "dir") d0).
  destruct (Fs.directory fs d0) as [root|].
  - pose proof (pipeline_dirs d0 root E1 fs d k v) as Hp; unfold trace_of in *.
    destruct (pipeline prefix d0 root E1 fs) as [[t1 fs1] st1]; cbn [fst snd] in *.
    assert (In (ExecFindSed d k v) (Stdout (scanning d0) :: t1) -> In d (d0 :: ds))
      as Hhead by (intros [Hx | Hx]; [discriminate | left; symmetry; auto]).
    destruct st1; try exact Hhead.
    specialize (IH E1 fs1).
    destruct (for_dirs prefix ds E1 fs1) as [[t2 fs2] st2]; cbn [fst snd] in *.
    intros [Hx | Hx]; [discriminate|].
    apply in_app_or in Hx; destruct Hx as [Hx | Hx];
      [left; symmetry; auto | right; auto].
  - specialize (IH E1 fs); unfold trace_of in *.
    destruct (for_dirs prefix ds E1 fs) as [[t2 fs2] st2]; cbn [fst snd] in *.
    intros [Hx | Hx]; [discriminate | right; auto].
Qed.

(** When sed accepts every script of every pass and no file under an
    existing root is inaccessible, the run goes through all roots and
    succeeds. *)
Lemma for_dirs_ok (L : text -> list text) (R : text -> list (Bre.regex * text))
      (fs0 : Fs.t) (ds : list text) (E : environ) (fs : Fs.t) :
  same_shape fs0 fs ->
  (forall d root, In d ds -> Fs.directory fs0 d = Some root ->
     grep ("^"%char :: prefix) (env_output (setvar E (tx "dir") d)) = Some (L d) /\
     compile_all (L d) = Some (R d) /\
     (L d = [] \/ existsb (Fs.is_blocked root) (Fs.entries fs0) = false)) ->
  for_dirs prefix ds E fs = (dir_events L fs0 ds, after_passes R fs0 ds fs, Exit0).
Proof.
  revert E fs; induction ds as [|d ds IH]; intros E fs Hs H; [reflexivity|].
  cbn [for_dirs]; unfold dir_events, after_passes; cbn [flat_map fold_left].
  fold (dir_events L fs0 ds).
  rewrite (same_shape_directory fs0 fs d Hs).
  set (E1 := setvar E (tx "dir") d).
  assert (forall d' root, In d' ds -> Fs.directory fs0 d' = Some root ->
     grep ("^"%char :: prefix) (env_output (setvar E1 (tx "dir") d')) = Some (L d') /\
     compile_all (L d') = Some (R d') /\
     (L d' = [] \/ existsb (Fs.is_blocked root) (Fs.entries fs0) = false)) as H'.
  { intros d' root Hin Hd; unfold E1; rewrite setvar_setvar.
    apply (H d' root); [right; exact Hin | exact Hd]. }
  destruct (Fs.directory fs0 d) as [root|] eqn:Ed.
  - destruct (H d root (or_introl eq_refl) Ed) as (Hg & Hc & Hb).
    rewrite (pipeline_ok d root E1 fs (L d) (R d) Hg Hc)
      by (rewrite (same_shape_blocked fs0 fs root Hs); exact Hb).
    rewrite (IH E1 (Fs.sed_i root (edits (R d)) fs)
               (same_shape_trans _ _ _ Hs (same_shape_sed_i _ _ _)) H').
    reflexivity.
  - rewrite (IH E1 fs Hs H'); reflexivity.
Qed.

(** A find over a root that holds an inaccessible file is the last thing
    the run does, and the run does not succeed. *)
Lemma for_dirs_blocked (fs0 : Fs.t) (ds : list text) (E : environ) (fs : Fs.t)
      (d k v : text) (root : Fs.path) :
  same_shape fs0 fs ->
  Fs.directory fs0 d = Some root ->
  existsb (Fs.is_blocked root) (Fs.entries fs0) = true ->
  In (ExecFindSed d k v) (trace_of (for_dirs prefix ds E fs)) ->
  status_of (for_dirs prefix ds E fs) = Unmodelled \/
  (status_of (for_dirs prefix ds E fs) = ExitNonZero CommandFailed /\
   exists t, trace_of (for_dirs prefix ds E fs) = t ++ [ExecFindSed d k v]).
Proof.
  intros Hs Hd Hb; revert E fs Hs; induction ds as [|d0 ds IH]; intros E fs Hs;
    [intros []|].
  cbn [for_dirs]; set (E1 := setvar E (tx "dir") d0).
  destruct (Fs.directory fs d0) as [root0|] eqn:Ed0.
  - pose proof (pipeline_shape d0 root0 E1 fs) as Hp.
    pose proof (pipeline_dirs d0 root0 E1 fs d k v) as Hdir.
    pose proof (pipeline_blocked d0 root0 E1 fs d k v) as Hblk.
    unfold files_of, status_of, trace_of in *.
    destruct (pipeline prefix d0 root0 E1 fs) as [[t1 fs1] st1]; cbn [fst snd] in *.
    assert (In (ExecFindSed d k v) t1 ->
            st1 = Unmodelled \/
            (st1 = ExitNonZero CommandFailed /\ exists t, t1 = t ++ [ExecFindSed d k v]))
      as Hhere.
    { intros Hin; apply Hblk; [|exact Hin].
      specialize (Hdir Hin); subst d0.
      rewrite (same_shape_directory fs0 fs d Hs), Hd in Ed0.
      inversion Ed0; subst root0.
      rewrite (same_shape_blocked fs0 fs root Hs); exact Hb. }
    destruct st1.
    + specialize (IH E1 fs1 (same_shape_trans _ _ _ Hs Hp)).
      destruct (for_dirs prefix ds E1 fs1) as [[t2 fs2] st2]; cbn [fst snd] in *.
      intros [Hx | Hx]; [discriminate|].
      apply in_app_or in Hx; destruct Hx as [Hx | Hx].
      * destruct (Hhere Hx) as [Hc | (Hc & _)]; discriminate.
      * destruct (IH Hx) as [Hu | (Hf & t & Ht)]; [left; exact Hu | right].
        split; [exact Hf|].
        exists (Stdout (scanning d0) :: t1 ++ t).
        rewrite Ht; cbn [app]; rewrite app_assoc; reflexivity.
    + intros [Hx | Hx]; [discriminate|].
      destruct (Hhere Hx) as [Hc | (Hc & t & Ht)]; [discriminate | right].
      split; [exact Hc|].
      exists (Stdout (scanning d0) :: t); rewrite Ht; reflexivity.
    + intros _; left; reflexivity.
  - specialize (IH E1 fs Hs); unfold status_of, trace_of in *.
    destruct (for_dirs prefix ds E1 fs) as [[t2 fs2] st2]; cbn [fst snd] in *.
    intros [Hx | Hx]; [discriminate|].
    destruct (IH Hx) as [Hu | (Hf & t & Ht)]; [left; exact Hu | right].
    split; [exact Hf|].
    exists (Stdout (warning d0) :: t); rewrite Ht; reflexivity.
Qed.

End Loops.

(** ** File contents after the passes *)

Lemma lookup_after_passes (R : text -> list (Bre.regex * text)) (fs0 : Fs.t)
      (ds : list text) (fs : Fs.t) (p : Fs.path) (c : text) :
  Fs.lookup (Fs.entries fs) p = Some (Fs.File true c) ->
  Fs.lookup (Fs.entries (after_passes R fs0 ds fs)) p =
  Some (Fs.File true (content_after R fs0 ds p c)).
Proof.
  revert fs c; induction ds as [|d ds IH]; intros fs c H; [exact H|].
  unfold after_passes, content_after; cbn [fold_left].
  fold (after_passes R fs0 ds); fold (content_after R fs0 ds p).
  destruct (Fs.directory fs0 d) as [root|]; [|apply IH; exact H].
  apply IH, content_sed_i; exact H.
Qed.

(** When every pass applies the same scripts, a file is edited once for
    each existing root that covers it. *)
Lemma content_after_cons (R : text -> list (Bre.regex * text)) (fs0 : Fs.t)
      (d : text) (ds : list text) (p : Fs.path) (c : text) :
  content_after R fs0 (d :: ds) p c =
  content_after R fs0 ds p
    match Fs.directory fs0 d with
    | Some root => if Fs.under root p then edits (R d) c else c
    | None => c
    end.
Proof. reflexivity. Qed.

Lemma covering_cons (fs : Fs.t) (d : text) (ds : list text) (p : Fs.path) :
  covering fs (d :: ds) p =
  match Fs.directory fs d with
  | Some root => if Fs.under root p then S (covering fs ds p) else covering fs ds p
  | None => covering fs ds p
  end.
Proof.
  unfold covering, existing; cbn [flat_map].
  destruct (Fs.directory fs d) as [root|]; [|reflexivity].
  cbn [app filter]; destruct (Fs.under root p); reflexivity.
Qed.

Lemma content_after_iter (rs : list (Bre.regex * text)) (fs0 : Fs.t)
      (ds : list text) (p : Fs.path) (c : text) :
  content_after (fun _ => rs) fs0 ds p c = Nat.iter (covering fs0 ds p) (edits rs) c.
Proof.
  revert c; induction ds as [|d ds IH]; intros c; [reflexivity|].
  rewrite content_after_cons, covering_cons, IH.
  destruct (Fs.directory fs0 d) as [root|]; [|reflexivity].
  destruct (Fs.under root p); [|reflexivity].
  symmetry; apply Nat.iter_succ_r.
Qed.

Lemma covering_positive (fs : Fs.t) (ds : list text) (d : text) (root p : Fs.path) :
  In d ds -> Fs.directory fs d = Some root -> Fs.under root p = true ->
  1 <= covering fs ds p.
Proof.
  intros Hin Hd Hu; unfold covering.
  assert (In root (filter (fun r => Fs.under r p) (existing fs ds))) as H.
  { apply filter_In; split; [|exact Hu].
    unfold existing; apply in_flat_map; exists d; split; [exact Hin|].
    rewrite Hd; left; reflexivity. }
  destruct (filter (fun r => Fs.under r p) (existing fs ds)); [destruct H | simpl; lia].
Qed.

Lemma iter_idempotent {A : Type} (f : A -> A) (n : nat) (x : A) :
  (forall y, f (f y) = f y) -> 1 <= n -> Nat.iter n f x = f x.
Proof.
  intros Hf Hn; destruct n as [|n]; [lia|]; clear Hn.
  induction n as [|n IH]; [reflexivity|].
  change (Nat.iter (S (S n)) f x) with (f (Nat.iter (S n) f x)).
  rewrite IH; apply Hf.
Qed.

Lemma iter_ext {A : Type} (f g : A -> A) (n : nat) (x : A) :
  (forall y, f y = g y) -> Nat.iter n f x = Nat.iter n g x.
Proof.
  intros H; induction n as [|n IH]; [reflexivity|].
  change (Nat.iter (S n) f x) with (f (Nat.iter n f x)).
  change (Nat.iter (S n) g x) with (g (Nat.iter n g x)).
  rewrite IH; apply H.
Qed.

(** ** From the environment to the pairs *)

Section Listing.

Lemma lines_line (l rest : text) :
  mem NL l = false -> lines (l ++ NL :: rest) = l :: lines rest.
Proof.
  induction l as [|c l IH]; intros H.
  - cbn [app lines]; rewrite Ascii.eqb_refl; reflexivity.
  - rewrite mem_cons in H; apply orb_false_iff in H; destruct H as (Hc & Hl).
    change ((c :: l) ++ NL :: rest) with (c :: (l ++ NL :: rest)).
    cbn [lines]; rewrite Ascii.eqb_sym, Hc, (IH Hl); reflexivity.
Qed.

Lemma env_output_cons (nv : text * text) (E : environ) :
  env_output (nv :: E) = record nv ++ NL :: env_output E.
Proof.
  unfold env_output, record; cbn [flat_map].
  rewrite <- !app_assoc; cbn [app]; rewrite <- app_assoc; reflexivity.
Qed.

(** An environment without newlines lists one record per line. *)
Lemma lines_env_output (E : environ) :
  (forall nv, In nv E -> mem NL (record nv) = false) ->
  lines (env_output E) = map record E.
Proof.
  induction E as [|nv E IH]; intros H; [reflexivity|].
  rewrite env_output_cons, lines_line by (apply H; left; reflexivity).
  cbn [map]; rewrite IH by (intros; apply H; right; assumption); reflexivity.
Qed.

(** grep with a plain prefix keeps the lines that start with it. *)
Lemma grep_plain (prefix input : text) :
  plain_prefix prefix = true ->
  grep ("^"%char :: prefix) input = Some (filter (starts_with prefix) (lines input)).
Proof.
  intros H; unfold grep; rewrite (parse_anchored_plain prefix H).
  f_equal; apply filter_ext; intros l; apply search_anchored_lits.
Qed.

Lemma filter_map_swap {A B : Type} (f : B -> bool) (g : A -> B) (l : list A) :
  filter f (map g l) = map g (filter (fun x => f (g x)) l).
Proof.
  induction l as [|x l IH]; [reflexivity|].
  cbn [map filter]; destruct (f (g x)); cbn [map]; rewrite IH; reflexivity.
Qed.

Lemma selected_lines_plain (prefix : text) (E : environ) :
  plain_prefix prefix = true ->
  (forall nv, In nv E -> mem NL (record nv) = false) ->
  grep ("^"%char :: prefix) (env_output E) = Some (map record (selected prefix E)).
Proof.
  intros Hp HE; rewrite (grep_plain _ _ Hp), (lines_env_output E HE).
  rewrite filter_map_swap; reflexivity.
Qed.

Lemma cut_at (d : ascii) (a b : text) :
  mem d a = false -> cut d (a ++ d :: b) = (a, Some b).
Proof.
  induction a as [|c a IH]; intros H.
  - cbn [app cut]; rewrite Ascii.eqb_refl; reflexivity.
  - rewrite mem_cons in H; apply orb_false_iff in H; destruct H as (Hc & Ha).
    change ((c :: a) ++ d :: b) with (c :: (a ++ d :: b)).
    cbn [cut]; rewrite Ascii.eqb_sym, Hc, (IH Ha); reflexivity.
Qed.

Lemma cut_none (d : ascii) (a : text) :
  mem d a = false -> cut d a = (a, None).
Proof.
  induction a as [|c a IH]; intros H; [reflexivity|].
  rewrite mem_cons in H; apply orb_false_iff in H; destruct H as (Hc & Ha).
  cbn [cut]; rewrite Ascii.eqb_sym, Hc, (IH Ha); reflexivity.
Qed.

Lemma cut_some (d : ascii) (s a b : text) :
  cut d s = (a, Some b) -> s = a ++ d :: b /\ mem d a = false.
Proof.
  revert a; induction s as [|c s IH]; intros a; cbn [cut]; [discriminate|].
  destruct (Ascii.eqb_spec c d) as [->|Hc].
  - intros H; inversion H; subst; split; reflexivity.
  - destruct (cut d s) as [a' o] eqn:E; intros H; inversion H; subst.
    destruct (IH a' eq_refl) as (-> & Hm); split; [reflexivity|].
    rewrite mem_cons, Hm, orb_false_r.
    apply Ascii.eqb_neq; congruence.
Qed.

Lemma cut_fst_clean (d : ascii) (s : text) : mem d (fst (cut d s)) = false.
Proof.
  induction s as [|c s IH]; [reflexivity|]; cbn [cut].
  destruct (Ascii.eqb_spec c d) as [->|Hc]; [reflexivity|].
  destruct (cut d s) as [a o]; cbn [fst] in *.
  rewrite mem_cons, IH, orb_false_r; apply Ascii.eqb_neq; congruence.
Qed.

(** [read] splits the record of a variable into its name and, unless the
    value ends in a closing [=], its value. *)
Lemma read_kv_record (n v : text) :
  mem "="%char n = false ->
  read_kv (record (n, v)) = (n, if closing_eq v then fst (cut "="%char v) else v).
Proof.
  intros H; unfold read_kv, record, closing_eq; cbn [fst snd].
  rewrite (cut_at "="%char n v H).
  destruct (cut "="%char v) as [a [[|x r]|]]; reflexivity.
Qed.

Lemma plain_pair_facts (nv : text * text) :
  plain_pair nv = true ->
  plain_key (fst nv) = true /\ plain_value (snd nv) = true /\
  mem "="%char (fst nv) = false /\ closing_eq (snd nv) = false.
Proof.
  unfold plain_pair; intros H.
  apply andb_true_iff in H; destruct H as (H & Hc).
  apply andb_true_iff in H; destruct H as (H & He).
  apply andb_true_iff in H; destruct H as (Hk & Hv).
  repeat split; try assumption; apply negb_true_iff; assumption.
Qed.

Lemma read_kv_plain (nv : text * text) :
  plain_pair nv = true -> read_kv (record nv) = nv.
Proof.
  intros H; destruct (plain_pair_facts nv H) as (_ & _ & Heq & Hcl).
  destruct nv as [n v]; cbn [fst snd] in *.
  rewrite (read_kv_record n v Heq), Hcl; reflexivity.
Qed.

Lemma compile_all_plain (ps : list (text * text)) :
  (forall nv, In nv ps -> plain_pair nv = true) ->
  compile_all (map record ps) = Some (map script_of ps).
Proof.
  induction ps as [|nv ps IH]; intros H; [reflexivity|].
  cbn [map compile_all].
  rewrite (read_kv_plain nv) by (apply H; left; reflexivity).
  destruct (plain_pair_facts nv (H nv (or_introl eq_refl))) as (Hk & Hv & _).
  rewrite (compile_plain _ _ Hk Hv), IH by (intros; apply H; right; assumption).
  reflexivity.
Qed.

Lemma loop_events_plain (d : text) (ps : list (text * text)) :
  (forall nv, In nv ps -> plain_pair nv = true) ->
  loop_events d (map record ps) =
  flat_map (fun nv => [Stdout (replacing (fst nv) (snd nv));
                       ExecFindSed d (fst nv) (snd nv)]) ps.
Proof.
  induction ps as [|nv ps IH]; intros H; [reflexivity|].
  unfold loop_events in *; cbn [map flat_map].
  rewrite (read_kv_plain nv) by (apply H; left; reflexivity).
  rewrite IH by (intros; apply H; right; assumption); reflexivity.
Qed.

Lemma edits_plain (ps : list (text * text)) (c : text) :
  (forall nv, In nv ps -> plain_pair nv = true) ->
  edits (map script_of ps) c = replace_pairs ps c.
Proof.
  revert c; induction ps as [|nv ps IH]; intros c H; [reflexivity|].
  unfold edits, replace_pairs in *; cbn [map fold_left].
  destruct (plain_pair_facts nv (H nv (or_introl eq_refl))) as (Hk & Hv & _).
  change (Sed.edit (fst (script_of nv)) (snd (script_of nv)) c)
    with (Sed.edit (Bre.mk_regex false (lits (fst nv)) false) (snd nv) c).
  rewrite (edit_plain _ _ c Hk Hv).
  apply IH; intros; apply H; right; assumption.
Qed.

Lemma accessible_lookup (fs : Fs.t) (p : Fs.path) (a : bool) (c : text) :
  all_accessible fs = true ->
  Fs.lookup (Fs.entries fs) p = Some (Fs.File a c) -> a = true.
Proof.
  unfold all_accessible; induction (Fs.entries fs) as [|[q n] es IH]; [discriminate|].
  cbn [forallb Fs.lookup snd]; intros H; apply andb_true_iff in H; destruct H as (Hn & Hes).
  destruct (Fs.peqb q p); [|apply IH; exact Hes].
  intros Hx; inversion Hx; subst n; destruct a; [reflexivity | discriminate].
Qed.

End Listing.

(** ** Reading a trace *)

Section Traces.

Lemma env_runs_app (t u : list event) : env_runs (t ++ u) = env_runs t + env_runs u.
Proof. unfold env_runs; rewrite filter_app, length_app; reflexivity. Qed.

Lemma env_runs_loop (d : text) (ls : list text) : env_runs (loop_events d ls) = 0.
Proof. induction ls as [|l ls IH]; [reflexivity | exact IH]. Qed.

Lemma env_runs_dir_events (L : text -> list text) (fs : Fs.t) (ds : list text) :
  env_runs (dir_events L fs ds) = length (existing fs ds).
Proof.
  unfold dir_events, existing; induction ds as [|d ds IH]; [reflexivity|].
  cbn [flat_map]; rewrite env_runs_app, length_app, IH.
  destruct (Fs.directory fs d); [|reflexivity].
  change (env_runs (Stdout (scanning d) :: ExecEnv :: loop_events d (L d)))
    with (S (env_runs (loop_events d (L d)))).
  rewrite env_runs_loop; reflexivity.
Qed.

Lemma after_passes_nil (fs0 : Fs.t) (ds : list text) (fs : Fs.t) :
  after_passes (fun _ => []) fs0 ds fs = fs.
Proof.
  unfold after_passes; revert fs; induction ds as [|d ds IH]; intros fs; [reflexivity|].
  cbn [fold_left]; destruct (Fs.directory fs0 d) as [root|]; [|apply IH].
  rewrite (sed_i_ext root (edits []) (fun c => c)) by reflexivity.
  rewrite sed_i_id; apply IH.
Qed.

Lemma sed_runs_quiet (fs : Fs.t) (ds : list text) :
  sed_runs (dir_events (fun _ => []) fs ds) = [].
Proof.
  unfold dir_events, sed_runs; induction ds as [|d ds IH]; [reflexivity|].
  cbn [flat_map]; rewrite flat_map_app, IH, app_nil_r.
  destruct (Fs.directory fs d); reflexivity.
Qed.

Lemma stdout_quiet (fs : Fs.t) (ds : list text) (l : text) :
  In l (stdout (dir_events (fun _ => []) fs ds)) -> root_line l.
Proof.
  unfold dir_events, stdout; induction ds as [|d ds IH]; [intros []|].
  cbn [flat_map]; rewrite flat_map_app; intros H; apply in_app_or in H.
  destruct H as [H | H]; [|exact (IH H)].
  destruct (Fs.directory fs d); destruct H as [<- | []]; exists d; auto.
Qed.

End Traces.

(** ** Field splitting and lines *)

Section Splitting.

Lemma pieces_not_nil (sep : ascii -> bool) (s : text) : pieces sep s <> [].
Proof.
  induction s as [|c s IH]; [discriminate|].
  cbn [pieces]; destruct (sep c); [discriminate|].
  destruct (pieces sep s); [congruence | discriminate].
Qed.

Lemma pieces_app (sep : ascii -> bool) (a b : text) (c : ascii) :
  sep c = true -> pieces sep (a ++ c :: b) = pieces sep a ++ pieces sep b.
Proof.
  intros Hc; induction a as [|x a IH].
  - cbn [app pieces]; rewrite Hc; reflexivity.
  - change ((x :: a) ++ c :: b) with (x :: (a ++ c :: b)).
    cbn [pieces]; rewrite IH; destruct (sep x); [reflexivity|].
    pose proof (pieces_not_nil sep a) as Hn.
    destruct (pieces sep a); [congruence | reflexivity].
Qed.

Lemma pieces_clean (sep : ascii -> bool) (s w : text) (c : ascii) :
  In w (pieces sep s) -> In c w -> sep c = false.
Proof.
  revert w; induction s as [|x s IH]; intros w.
  - intros [<- | []] [].
  - cbn [pieces]; destruct (sep x) eqn:Ex.
    + intros [<- | H]; [intros [] | apply IH; exact H].
    + pose proof (pieces_not_nil sep s) as Hn.
      destruct (pieces sep s) as [|w0 ws]; [congruence|].
      intros [<- | H].
      * intros [<- | Hc]; [exact Ex | apply (IH w0); [left; reflexivity | exact Hc]].
      * apply IH; right; exact H.
Qed.

(** Every blank ends a field. *)
Lemma fields_app (a b : text) (c : ascii) :
  ifs_ws c = true -> fields (a ++ c :: b) = fields a ++ fields b.
Proof.
  intros Hc; unfold fields; rewrite (pieces_app ifs_ws a b c Hc).
  apply filter_app.
Qed.

(** No field holds a blank. *)
Lemma fields_clean (s w : text) (c : ascii) :
  In w (fields s) -> In c w -> ifs_ws c = false.
Proof.
  unfold fields; intros H; apply filter_In in H; destruct H as (H & _).
  apply (pieces_clean ifs_ws s w c H).
Qed.

Lemma lines_no_newline (s l : text) : In l (lines s) -> mem NL l = false.
Proof.
  revert l; induction s as [|c s IH]; intros l; [intros []|].
  cbn [lines]; destruct (Ascii.eqb c NL) eqn:Ec.
  - intros [<- | H]; [reflexivity | apply IH; exact H].
  - destruct (lines s) as [|l0 ls].
    + intros [<- | []]; rewrite mem_cons, Ascii.eqb_sym, Ec; reflexivity.
    + intros [<- | H].
      * rewrite mem_cons, Ascii.eqb_sym, Ec; apply IH; left; reflexivity.
      * apply IH; right; exact H.
Qed.

(** Closing a text with a newline keeps its lines. *)
Lemma lines_snoc (a : text) :
  exists tl, lines (a ++ [NL]) = lines a ++ tl /\ (lines a = [] -> tl = [[]]).
Proof.
  induction a as [|c a (tl & IH & Hnil)].
  - exists [[]]; split; [reflexivity | reflexivity].
  - change ((c :: a) ++ [NL]) with (c :: (a ++ [NL])).
    cbn [lines]; destruct (Ascii.eqb c NL).
    + exists tl; split; [rewrite IH; reflexivity | discriminate].
    + rewrite IH; destruct (lines a) as [|l0 ls].
      * rewrite (Hnil eq_refl); exists []; split; [reflexivity | discriminate].
      * exists tl; split; [reflexivity | discriminate].
Qed.

Lemma lines_terminated_app (a b : text) :
  lines ((a ++ [NL]) ++ b) = lines (a ++ [NL]) ++ lines b.
Proof.
  induction a as [|c a IH].
  - cbn [app lines]; rewrite Ascii.eqb_refl; reflexivity.
  - change (((c :: a) ++ [NL]) ++ b) with (c :: ((a ++ [NL]) ++ b)).
    change ((c :: a) ++ [NL]) with (c :: (a ++ [NL])).
    cbn [lines]; rewrite IH; destruct (Ascii.eqb c NL); [reflexivity|].
    destruct (lines_snoc a) as (tl & -> & Hnil).
    destruct (lines a) as [|l0 ls]; [rewrite (Hnil eq_refl)|]; reflexivity.
Qed.

Lemma lines_In_snoc (a l : text) : In l (lines a) -> In l (lines (a ++ [NL])).
Proof.
  destruct (lines_snoc a) as (tl & -> & _); intros H; apply in_or_app; auto.
Qed.

(** The listing of an environment ends every record with a newline, so the
    lines of a record are lines of the listing. *)
Lemma lines_env_output_In (E : environ) (nv : text * text) (l : text) :
  In nv E -> In l (lines (record nv ++ [NL])) -> In l (lines (env_output E)).
Proof.
  induction E as [|nv0 E IH]; [intros []|].
  rewrite env_output_cons.
  change (record nv0 ++ NL :: env_output E) with (record nv0 ++ [NL] ++ env_output E).
  rewrite app_assoc, lines_terminated_app.
  intros [-> | Hin] Hl; apply in_or_app; [left; exact Hl | right; apply IH; assumption].
Qed.

End Splitting.

(** ** find over a plain pair *)

Lemma find_plain (root : Fs.path) (k v : text) (fs : Fs.t) :
  plain_key k = true -> plain_value v = true ->
  fst (find_exec_sed root k v fs) = Fs.sed_i root (replace_all k v) fs.
Proof.
  intros Hk Hv; unfold find_exec_sed.
  destruct (existsb (Fs.is_target root) (Fs.entries fs)) eqn:Et; cbn [negb fst].
  - rewrite (compile_plain k v Hk Hv); cbn [fst].
    apply sed_i_ext; intros c; apply edit_plain; assumption.
  - symmetry; apply sed_i_no_target; exact Et.
Qed.

(** ** A run that ends early has done a beginning of the whole *)

Lemma while_read_begun (d : text) (root : Fs.path) (ls : list text) (fs : Fs.t) :
  status_of (while_read d root ls fs) <> Unmodelled ->
  exists t', trace_of (while_read d root ls fs) ++ t' = loop_events d ls /\
             (status_of (while_read d root ls fs) = Exit0 -> t' = []).
Proof.
  revert fs; induction ls as [|l ls IH]; intros fs.
  - intros _; exists []; split; [reflexivity | reflexivity].
  - cbn [while_read]; unfold loop_events; cbn [flat_map]; fold (loop_events d ls).
    destruct (read_kv l) as [k v]; cbn [fst snd].
    destruct (mem "\"%char k || mem "\"%char v);
      [intros H; contradiction H; reflexivity|].
    destruct (find_exec_sed root k v fs) as [fs1 st1].
    destruct st1 as [|why|].
    + specialize (IH fs1); unfold status_of, trace_of in *.
      destruct (while_read d root ls fs1) as [[t fs2] st]; cbn [fst snd] in *.
      intros H; destruct (IH H) as (t' & Ht & He); exists t'; split; [|exact He].
      rewrite <- Ht, <- app_assoc; reflexivity.
    + intros _; exists (loop_events d ls); split;
        [reflexivity | intros H; discriminate H].
    + intros H; contradiction H; reflexivity.
Qed.

Lemma pipeline_begun (prefix d : text) (root : Fs.path) (E : environ) (fs : Fs.t) :
  status_of (pipeline prefix d root E fs) <> Unmodelled ->
  exists t', trace_of (pipeline prefix d root E fs) ++ t'
             = ExecEnv :: loop_events d (selected_lines prefix E) /\
             (status_of (pipeline prefix d root E fs) = Exit0 -> t' = []).
Proof.
  unfold pipeline, selected_lines.
  destruct (grep ("^"%char :: prefix) (env_output E)) as [ls|];
    [|intros H; contradiction H; reflexivity].
  pose proof (while_read_begun d root ls fs) as H; unfold status_of, trace_of in *.
  destruct (while_read d root ls fs) as [[t fs1] st]; cbn [fst snd] in *.
  intros Hs; destruct (H Hs) as (t' & Ht & He); exists t'; split; [|exact He].
  rewrite <- Ht; reflexivity.
Qed.

Lemma for_dirs_begun (prefix : text) (fs0 : Fs.t) (ds : list text) (E : environ)
      (fs : Fs.t) :
  same_shape fs0 fs ->
  status_of (for_dirs prefix ds E fs) <> Unmodelled ->
  exists t', trace_of (for_dirs prefix ds E fs) ++ t'
             = dir_events (fun d => selected_lines prefix (setvar E (tx "dir") d)) fs0 ds /\
             (status_of (for_dirs prefix ds E fs) = Exit0 -> t' = []).
Proof.
  revert E fs; induction ds as [|d ds IH]; intros E fs Hs.
  - intros _; exists []; split; reflexivity.
  - cbn [for_dirs]; unfold dir_events; cbn [flat_map]; fold (dir_events
      (fun d => selected_lines prefix (setvar E (tx "dir") d)) fs0 ds).
    rewrite <- (same_shape_directory fs0 fs d Hs).
    set (E1 := setvar E (tx "dir") d).
    assert (dir_events (fun d' => selected_lines prefix (setvar E1 (tx "dir") d')) fs0 ds
            = dir_events (fun d' => selected_lines prefix (setvar E (tx "dir") d')) fs0 ds)
      as Hext.
    { apply dir_events_ext; [|apply same_shape_refl].
      intros d' _; unfold E1; rewrite setvar_setvar; reflexivity. }
    destruct (Fs.directory fs d) as [root|].
    + pose proof (pipeline_shape prefix d root E1 fs) as Hp.
      pose proof (pipeline_begun prefix d root E1 fs) as Hx.
      unfold files_of, status_of, trace_of in *.
      destruct (pipeline prefix d root E1 fs) as [[t1 fs1] st1]; cbn [fst snd] in *.
      destruct st1 as [|why|].
      * specialize (IH E1 fs1 (same_shape_trans _ _ _ Hs Hp)).
        destruct (for_dirs prefix ds E1 fs1) as [[t2 fs2] st2]; cbn [fst snd] in *.
        intros H; destruct (IH H) as (t' & Ht & He); exists t'; split; [|exact He].
        destruct Hx as (u & Hu & Hn); [discriminate|].
        rewrite (Hn eq_refl), app_nil_r in Hu.
        rewrite <- Hext, <- Ht, <- Hu; cbn [app]; f_equal.
        symmetry; apply app_assoc.
      * intros _; destruct Hx as (u & Hu & _); [discriminate|].
        exists (u ++ dir_events
                       (fun d' => selected_lines prefix (setvar E (tx "dir") d')) fs0 ds).
        split; [|intros H; discriminate H].
        cbn [fst app]; f_equal; rewrite (app_assoc t1 u), Hu; reflexivity.
      * intros H; contradiction H; reflexivity.
    + specialize (IH E1 fs Hs); unfold status_of, trace_of in *.
      destruct (for_dirs prefix ds E1 fs) as [[t2 fs2] st2]; cbn [fst snd] in *.
      intros H; destruct (IH H) as (t' & Ht & He); exists t'; split; [|exact He].
      rewrite <- Hext, <- Ht; reflexivity.
Qed.

(** * The claims *)

Lemma clean_pairsb_sound (ps : list (text * text)) :
  clean_pairsb ps = true -> clean_pairs ps.
Proof.
  unfold clean_pairsb, clean_pairs; rewrite forallb_forall; intros H kv Hin.
  specialize (H kv Hin).
  apply andb_true_iff in H; destruct H as (H & Ha).
  apply andb_true_iff in H; destruct H as (Hk & Hv).
  destruct kv as [k v]; cbn [fst snd] in *; repeat split.
  - destruct k; [discriminate | congruence].
  - destruct v; [discriminate | congruence].
  - rewrite forallb_forall in Ha; exact Ha.
Qed.

Lemma values_clear_of_keysb_sound (ps : list (text * text)) :
  values_clear_of_keysb ps = true -> values_clear_of_keys ps.
Proof.
  unfold values_clear_of_keysb, values_clear_of_keys.
  rewrite forallb_forall; intros H kv kv' Hkv Hkv'.
  specialize (H kv Hkv); rewrite forallb_forall in H.
  apply negb_true_iff, H, Hkv'.
Qed.

Lemma one_line_records_sound (E : environ) :
  one_line_records E = true -> forall nv, In nv E -> mem NL (record nv) = false.
Proof.
  unfold one_line_records; rewrite forallb_forall; intros H nv Hin.
  apply negb_true_iff, H, Hin.
Qed.

(** C2.  When [APP_PREFIX] or [ASSET_DIRS] is unset or empty, the run stops
    at once with a configuration failure (a non-zero exit that names the
    missing setting): nothing has been printed, listed or scanned, and the
    file system is the one the run started with. *)
Theorem missing_setting_fails_before_any_work (E : environ) (fs : Fs.t) :
  getvar E APP_PREFIX = None \/ getvar E APP_PREFIX = Some [] \/
  getvar E ASSET_DIRS = None \/ getvar E ASSET_DIRS = Some [] ->
  exists name message,
    run E fs = ([], fs, ExitNonZero (Missing name message)) /\
    (name = APP_PREFIX \/ name = ASSET_DIRS).
Proof.
  intros H; unfold run, require.
  destruct (getvar E APP_PREFIX) as [[|c p]|] eqn:Ep;
    try (exists APP_PREFIX, msg_prefix; split; [reflexivity | left; reflexivity]).
  destruct (getvar E ASSET_DIRS) as [[|c' q]|] eqn:Ed;
    try (exists ASSET_DIRS, msg_dirs; split; [reflexivity | right; reflexivity]).
  destruct H as [H | [H | [H | H]]]; congruence.
Qed.

Lemma missing_setting_fails_before_any_work_witness :
  exists name message,
    run [(ASSET_DIRS, tx "/site"); (tx "PREFIX_API_URL", tx "https://api.example.com")]
        (site true "const u = 'PREFIX_API_URL';")
    = ([], site true "const u = 'PREFIX_API_URL';", ExitNonZero (Missing name message)) /\
    (name = APP_PREFIX \/ name = ASSET_DIRS).
Proof.
  apply (missing_setting_fails_before_any_work
           [(ASSET_DIRS, tx "/site"); (tx "PREFIX_API_URL", tx "https://api.example.com")]
           (site true "const u = 'PREFIX_API_URL';")).
  left; reflexivity.
Defined.

(** C1 (as the code has it).  Take a run whose prefix is plain, whose
    environment lists one record per line, and whose selected variables are
    plain pairs (names without pattern bytes, values without [&], [\], [|]
    and without a closing [=]), with [dir] not exported and every file
    accessible.  Then the run succeeds, and every file under an existing
    root has gone through the literal, global, left-to-right replacement of
    every selected name by its value, pair after pair, once for each
    existing root that covers it.  If moreover no selected value touches a
    selected name (neither occurs in the other, and no non-empty end of one
    is a beginning of the other), the file is the result of one such round
    and no selected name occurs in it any more.  One pass of literal
    replacement turns the segments of the text around the occurrences of
    the key into the same segments around the value. *)
Theorem completeness_for_plain_pairs
        (E : environ) (fs : Fs.t) (prefix dirs : text) (ds : list text) :
  require E APP_PREFIX = Some prefix ->
  require E ASSET_DIRS = Some dirs ->
  expand_words dirs = Some ds ->
  getvar E (tx "dir") = None ->
  plain_prefix prefix = true ->
  one_line_records E = true ->
  forallb plain_pair (selected prefix E) = true ->
  all_accessible fs = true ->
  status_of (run E fs) = Exit0 /\
  (forall d root p c,
      In d ds -> Fs.directory fs d = Some root -> Fs.under root p = true ->
      Fs.content fs p = Some c ->
      1 <= covering fs ds p /\
      Fs.content (files_of (run E fs)) p =
      Some (Nat.iter (covering fs ds p) (replace_pairs (selected prefix E)) c) /\
      (values_clear_of_keysb (selected prefix E) = true ->
       Fs.content (files_of (run E fs)) p = Some (replace_pairs (selected prefix E) c) /\
       forall nv, In nv (selected prefix E) ->
                  ~ occurs (fst nv) (replace_pairs (selected prefix E) c))) /\
  (forall k v s, k <> [] ->
      exists us, us <> [] /\ s = join k us /\ replace_all k v s = join v us /\
                 Forall (fun u => ~ occurs k u) us).
Proof.
  intros Hp Hd Hds Hdir Hplain Hone Hpairs Hacc.
  pose proof (one_line_records_sound E Hone) as Hone'.
  rewrite forallb_forall in Hpairs.
  set (ps := selected prefix E) in *.
  assert (for_dirs prefix ds E fs =
          (dir_events (fun _ => map record ps) fs ds,
           after_passes (fun _ => map script_of ps) fs ds fs, Exit0)) as Hrun.
  { apply for_dirs_ok; [apply same_shape_refl|].
    intros d root _ _; rewrite (setvar_absent E _ d Hdir).
    split; [apply selected_lines_plain; assumption|].
    split; [apply compile_all_plain; exact Hpairs|].
    right; apply accessible_not_blocked; exact Hacc. }
  assert (run E fs = for_dirs prefix ds E fs) as Hr
      by (unfold run; rewrite Hp, Hd, Hds; reflexivity).
  rewrite Hr, Hrun; unfold status_of, files_of; cbn [fst snd].
  split; [reflexivity|]; split; [|intros k v s Hk; apply replace_all_segments; exact Hk].
  intros d root p c Hin Hroot Hu Hc.
  pose proof (covering_positive fs ds d root p Hin Hroot Hu) as Hcov.
  unfold Fs.content in Hc |- *.
  destruct (Fs.lookup (Fs.entries fs) p) as [[|a c']|] eqn:El; try discriminate.
  inversion Hc; subst c'; clear Hc.
  assert (a = true) as -> by (apply (accessible_lookup fs p a c Hacc El)).
  rewrite (lookup_after_passes _ fs ds fs p c El), content_after_iter.
  rewrite (iter_ext (edits (map script_of ps)) (replace_pairs ps))
    by (intros y; apply edits_plain; exact Hpairs).
  split; [exact Hcov|]; split; [reflexivity|].
  intros Hclear; apply values_clear_of_keysb_sound in Hclear; split.
  - rewrite iter_idempotent;
      [reflexivity | intros y; apply replace_pairs_twice; exact Hclear | exact Hcov].
  - intros nv Hnv Hocc; apply occursb_iff in Hocc.
    rewrite (replace_pairs_clears ps c Hclear nv Hnv) in Hocc; discriminate.
Qed.

Lemma completeness_for_plain_pairs_witness :
  status_of (run (env_of "PREFIX_" "/site"
                         [("PREFIX_API_URL", "https://API.example.com/v1_beta")])
                 (site true "const u = 'PREFIX_API_URL';")) = Exit0 /\
  Fs.content
    (files_of (run (env_of "PREFIX_" "/site"
                           [("PREFIX_API_URL", "https://API.example.com/v1_beta")])
                   (site true "const u = 'PREFIX_API_URL';")))
    site_js = Some (tx "const u = 'https://API.example.com/v1_beta';") /\
  ~ occurs (tx "PREFIX_API_URL") (tx "const u = 'https://API.example.com/v1_beta';").
Proof.
  destruct (completeness_for_plain_pairs
              (env_of "PREFIX_" "/site"
                      [("PREFIX_API_URL", "https://API.example.com/v1_beta")])
              (site true "const u = 'PREFIX_API_URL';")
              (tx "PREFIX_") (tx "/site") [tx "/site"]
              eq_refl eq_refl eq_refl eq_refl eq_refl eq_refl eq_refl eq_refl)
    as (Hs & Hc & _).
  split; [exact Hs|].
  destruct (Hc (tx "/site") [tx "site"] site_js (tx "const u = 'PREFIX_API_URL';")
               (or_introl eq_refl) eq_refl eq_refl eq_refl) as (_ & _ & Hclear).
  destruct (Hclear eq_refl) as (H1 & H2).
  split; [exact H1|].
  exact (H2 (tx "PREFIX_API_URL", tx "https://API.example.com/v1_beta")
            (or_introl eq_refl)).
Defined.

(** C1 as stated fails: the value of [PREFIX_NAME] contains the name; the
    run succeeds, the file held an occurrence of the name before, and holds
    one after. *)
Lemma completeness_counterexample :
  status_of (run (env_of "PREFIX_" "/site" [("PREFIX_NAME", "my PREFIX_NAME app")])
                 (site true "title: PREFIX_NAME")) = Exit0 /\
  occurs (tx "PREFIX_NAME") (tx "title: PREFIX_NAME") /\
  Fs.content
    (files_of (run (env_of "PREFIX_" "/site" [("PREFIX_NAME", "my PREFIX_NAME app")])
                   (site true "title: PREFIX_NAME")))
    site_js = Some (tx "title: my PREFIX_NAME app") /\
  occurs (tx "PREFIX_NAME") (tx "title: my PREFIX_NAME app").
Proof.
  repeat split; try (vm_compute; reflexivity); apply occursb_iff; vm_compute; reflexivity.
Qed.

(** C3.  In a run that stays within the modelled commands, a find/sed over
    a root that holds a regular file sed cannot open, read or rewrite is the
    last thing the run does: the run ends there with a non-zero exit, and no
    later key and no later root is processed. *)
Theorem inaccessible_file_aborts_the_run
        (E : environ) (fs : Fs.t) (d k v : text) (root : Fs.path) :
  status_of (run E fs) <> Unmodelled ->
  In (ExecFindSed d k v) (trace_of (run E fs)) ->
  Fs.directory fs d = Some root ->
  existsb (Fs.is_blocked root) (Fs.entries fs) = true ->
  status_of (run E fs) = ExitNonZero CommandFailed /\
  exists t, trace_of (run E fs) = t ++ [ExecFindSed d k v].
Proof.
  unfold run.
  destruct (require E APP_PREFIX) as [prefix|]; [|intros _ []].
  destruct (require E ASSET_DIRS) as [dirs|]; [|intros _ []].
  destruct (expand_words dirs) as [ds|]; [|intros _ []].
  intros Hm Hin Hd Hb.
  destruct (for_dirs_blocked prefix fs ds E fs d k v root
              (same_shape_refl fs) Hd Hb Hin) as [Hu | H]; [contradiction | exact H].
Qed.

Lemma inaccessible_file_aborts_the_run_witness :
  status_of (run (env_of "PREFIX_" "/site" [("PREFIX_A", "one"); ("PREFIX_B", "two")])
                 (site false "PREFIX_A PREFIX_B")) = ExitNonZero CommandFailed /\
  exists t,
    trace_of (run (env_of "PREFIX_" "/site" [("PREFIX_A", "one"); ("PREFIX_B", "two")])
                  (site false "PREFIX_A PREFIX_B"))
    = t ++ [ExecFindSed (tx "/site") (tx "PREFIX_A") (tx "one")].
Proof.
  apply (inaccessible_file_aborts_the_run
           (env_of "PREFIX_" "/site" [("PREFIX_A", "one"); ("PREFIX_B", "two")])
           (site false "PREFIX_A PREFIX_B")
           (tx "/site") (tx "PREFIX_A") (tx "one") [tx "site"]).
  - vm_compute; discriminate.
  - vm_compute; right; right; right; left; reflexivity.
  - reflexivity.
  - reflexivity.
Defined.

(** C4 (as the code has it).  With the roots [R1; R2], [R1] not a
    directory and [R2] one, the run prints the warning for [R1], runs
    nothing over [R1], and goes on to [R2]: its trace, its files and its
    exit status are those of the pass over [R2], after the warning and the
    scanning line.  The missing root never makes the run fail, but the
    pass over [R2] can: only when that pass meets no failure of its own
    (sed accepts the script of every selected line, no file under [R2] is
    inaccessible) is every line applied to the tree under [R2], every
    accessible file there edited accordingly, and the exit status 0. *)
Theorem missing_root_is_skipped
        (E : environ) (fs : Fs.t) (prefix dirs R1 R2 : text) (root : Fs.path) :
  require E APP_PREFIX = Some prefix ->
  require E ASSET_DIRS = Some dirs ->
  expand_words dirs = Some [R1; R2] ->
  Fs.directory fs R1 = None ->
  Fs.directory fs R2 = Some root ->
  run E fs =
    (Stdout (warning R1) :: Stdout (scanning R2) ::
       trace_of (pipeline prefix R2 root (setvar E (tx "dir") R2) fs),
     files_of (pipeline prefix R2 root (setvar E (tx "dir") R2) fs),
     status_of (pipeline prefix R2 root (setvar E (tx "dir") R2) fs)) /\
  (forall d k v, In (ExecFindSed d k v) (trace_of (run E fs)) -> d = R2) /\
  (forall ls rs,
      grep ("^"%char :: prefix) (env_output (setvar E (tx "dir") R2)) = Some ls ->
      compile_all ls = Some rs ->
      existsb (Fs.is_blocked root) (Fs.entries fs) = false ->
      run E fs = (Stdout (warning R1) :: Stdout (scanning R2) :: ExecEnv :: loop_events R2 ls,
                  Fs.sed_i root (edits rs) fs, Exit0) /\
      forall p c, Fs.under root p = true ->
                  Fs.lookup (Fs.entries fs) p = Some (Fs.File true c) ->
                  Fs.content (files_of (run E fs)) p = Some (edits rs c)).
Proof.
  intros Hp Hd Hds H1 H2.
  assert (run E fs =
          (Stdout (warning R1) :: Stdout (scanning R2) ::
             trace_of (pipeline prefix R2 root (setvar E (tx "dir") R2) fs),
           files_of (pipeline prefix R2 root (setvar E (tx "dir") R2) fs),
           status_of (pipeline prefix R2 root (setvar E (tx "dir") R2) fs))) as Hrun.
  { unfold run; rewrite Hp, Hd, Hds; cbn [for_dirs].
    rewrite H1, H2, setvar_setvar.
    unfold trace_of, files_of, status_of.
    destruct (pipeline prefix R2 root (setvar E (tx "dir") R2) fs) as [[t1 fs1] st1].
    cbn [fst snd]; destruct st1; rewrite ?app_nil_r; reflexivity. }
  split; [exact Hrun|]; split.
  - rewrite Hrun; unfold trace_of at 1; cbn [fst].
    intros d k v [Hx | [Hx | Hx]]; try discriminate.
    apply (pipeline_dirs prefix R2 root _ fs d k v Hx).
  - intros ls rs Hg Hc Hb.
    rewrite Hrun, (pipeline_ok prefix R2 root _ fs ls rs Hg Hc (or_intror Hb)).
    unfold trace_of, files_of, status_of; cbn [fst snd].
    split; [reflexivity|].
    intros p c Hu Hl; unfold Fs.content.
    rewrite (content_sed_i root (edits rs) fs p c Hl), Hu; reflexivity.
Qed.

Lemma missing_root_is_skipped_witness :
  run (env_of "PREFIX_" "/nope /site" [("PREFIX_API_URL", "https://api.example.com")])
      (site true "const u = 'PREFIX_API_URL';")
  = ([Stdout (tx "Warning: directory '/nope' not found, skipping.");
      Stdout (tx "Scanning directory: /site");
      ExecEnv;
      Stdout (tx "  • Replacing PREFIX_API_URL → https://api.example.com");
      ExecFindSed (tx "/site") (tx "PREFIX_API_URL") (tx "https://api.example.com")],
     site true "const u = 'https://api.example.com';",
     Exit0).
Proof.
  exact (proj1 (proj2 (proj2 (missing_root_is_skipped
           (env_of "PREFIX_" "/nope /site" [("PREFIX_API_URL", "https://api.example.com")])
           (site true "const u = 'PREFIX_API_URL';")
           (tx "PREFIX_") (tx "/nope /site") (tx "/nope") (tx "/site") [tx "site"]
           eq_refl eq_refl eq_refl eq_refl eq_refl))
           [tx "PREFIX_API_URL=https://api.example.com"]
           [script_of (tx "PREFIX_API_URL", tx "https://api.example.com")]
           eq_refl eq_refl eq_refl)).
Defined.

(** C4 as stated fails.  [/nope] is missing, [/site] exists and holds a file
    with an occurrence of the key, and next to it a file that sed cannot
    open: the warning for [/nope] is printed, the find over [/site] is
    started, and the run ends with a non-zero exit instead of 0. *)
Lemma missing_root_counterexample :
  Fs.directory (site_locked "PREFIX_API_URL") (tx "/nope") = None /\
  Fs.directory (site_locked "PREFIX_API_URL") (tx "/site") = Some [tx "site"] /\
  Fs.content (site_locked "PREFIX_API_URL") site_js = Some (tx "PREFIX_API_URL") /\
  trace_of (run (env_of "PREFIX_" "/nope /site" [("PREFIX_API_URL", "https://api.example.com")])
                (site_locked "PREFIX_API_URL"))
  = [Stdout (warning (tx "/nope")); Stdout (scanning (tx "/site")); ExecEnv;
     Stdout (replacing (tx "PREFIX_API_URL") (tx "https://api.example.com"));
     ExecFindSed (tx "/site") (tx "PREFIX_API_URL") (tx "https://api.example.com")] /\
  status_of (run (env_of "PREFIX_" "/nope /site" [("PREFIX_API_URL", "https://api.example.com")])
                 (site_locked "PREFIX_API_URL"))
  = ExitNonZero CommandFailed.
Proof. repeat split; vm_compute; reflexivity. Qed.

(** C5 (as the code has it).  The environment is listed inside the loop
    over the roots: a run that succeeds has listed it once for every
    existing root, and the pairs applied to a root are read from the
    listing taken at that root, after [dir] has been set to it.  When [dir]
    is not an exported variable all these listings select the same lines. *)
Theorem listing_is_taken_once_per_existing_root
        (E : environ) (fs : Fs.t) (prefix dirs : text) (ds : list text) :
  require E APP_PREFIX = Some prefix ->
  require E ASSET_DIRS = Some dirs ->
  expand_words dirs = Some ds ->
  status_of (run E fs) = Exit0 ->
  trace_of (run E fs) =
    dir_events (fun d => selected_lines prefix (setvar E (tx "dir") d)) fs ds /\
  env_runs (trace_of (run E fs)) = length (existing fs ds) /\
  (getvar E (tx "dir") = None ->
   forall d, selected_lines prefix (setvar E (tx "dir") d) = selected_lines prefix E).
Proof.
  intros Hp Hd Hds; unfold run; rewrite Hp, Hd, Hds; intros Hs.
  rewrite (for_dirs_exit0 prefix fs ds E fs (same_shape_refl fs) Hs).
  split; [reflexivity|]; split; [apply env_runs_dir_events|].
  intros Hdir d; rewrite (setvar_absent E _ d Hdir); reflexivity.
Qed.

Lemma listing_is_taken_once_per_existing_root_witness :
  env_runs (trace_of (run (env_of "PREFIX_" "/a /nope /b" [("PREFIX_X", "1")])
                          (two_roots "PREFIX_X" "PREFIX_X"))) = 2.
Proof.
  exact (proj1 (proj2 (listing_is_taken_once_per_existing_root
           (env_of "PREFIX_" "/a /nope /b" [("PREFIX_X", "1")])
           (two_roots "PREFIX_X" "PREFIX_X")
           (tx "PREFIX_") (tx "/a /nope /b") [tx "/a"; tx "/nope"; tx "/b"]
           eq_refl eq_refl eq_refl eq_refl))).
Defined.

(** C5 as stated fails.  With two existing roots the environment is listed
    twice; and when [dir] is itself exported and selected, the pair applied
    to [/a] is [(dir, /a)] and the pair applied to [/b] is [(dir, /b)]: no
    single listing holds both. *)
Lemma single_enumeration_counterexample :
  status_of (run (env_of "PREFIX_" "/a /b" [("PREFIX_X", "1")])
                 (two_roots "PREFIX_X" "PREFIX_X")) = Exit0 /\
  env_runs (trace_of (run (env_of "PREFIX_" "/a /b" [("PREFIX_X", "1")])
                          (two_roots "PREFIX_X" "PREFIX_X"))) = 2 /\
  status_of (run (env_of "dir" "/a /b" [("dir", "x")])
                 (two_roots "dir" "dir")) = Exit0 /\
  sed_runs (trace_of (run (env_of "dir" "/a /b" [("dir", "x")])
                          (two_roots "dir" "dir")))
  = [(tx "/a", tx "dir", tx "/a"); (tx "/b", tx "dir", tx "/b")] /\
  files_of (run (env_of "dir" "/a /b" [("dir", "x")]) (two_roots "dir" "dir"))
  = two_roots "/a" "/b".
Proof. repeat split; vm_compute; reflexivity. Qed.

(** C7 (as the code has it).  When no line of the listing taken at any
    existing root matches the prefix, the run exits 0, starts no find and no
    sed, and leaves the file system as it was.  Its output is the
    per-root lines alone: one warning for every missing root, one scanning
    line for every existing one, and nothing about the number of keys. *)
Theorem no_match_changes_nothing
        (E : environ) (fs : Fs.t) (prefix dirs : text) (ds : list text) :
  require E APP_PREFIX = Some prefix ->
  require E ASSET_DIRS = Some dirs ->
  expand_words dirs = Some ds ->
  (forall d root, In d ds -> Fs.directory fs d = Some root ->
     grep ("^"%char :: prefix) (env_output (setvar E (tx "dir") d)) = Some []) ->
  run E fs = (dir_events (fun _ => []) fs ds, fs, Exit0) /\
  sed_runs (trace_of (run E fs)) = [] /\
  (forall l, In l (stdout (trace_of (run E fs))) -> root_line l).
Proof.
  intros Hp Hd Hds Hg.
  assert (run E fs = (dir_events (fun _ => []) fs ds, fs, Exit0)) as Hrun.
  { unfold run; rewrite Hp, Hd, Hds.
    rewrite (for_dirs_ok prefix (fun _ => []) (fun _ => []) fs ds E fs (same_shape_refl fs)).
    - rewrite after_passes_nil; reflexivity.
    - intros d root Hin Hdir; split; [exact (Hg d root Hin Hdir)|].
      split; [reflexivity | left; reflexivity]. }
  rewrite Hrun; unfold trace_of; cbn [fst snd].
  split; [reflexivity|]; split; [apply sed_runs_quiet | apply stdout_quiet].
Qed.

Lemma no_match_changes_nothing_witness :
  run (env_of "PREFIX_" "/nope /site" [("HOME", "/root")]) (site true "PREFIX_A")
  = ([Stdout (tx "Warning: directory '/nope' not found, skipping.");
      Stdout (tx "Scanning directory: /site"); ExecEnv],
     site true "PREFIX_A", Exit0).
Proof.
  refine (proj1 (no_match_changes_nothing
           (env_of "PREFIX_" "/nope /site" [("HOME", "/root")]) (site true "PREFIX_A")
           (tx "PREFIX_") (tx "/nope /site") [tx "/nope"; tx "/site"]
           eq_refl eq_refl eq_refl _)).
  intros d root [<- | [<- | []]] _; reflexivity.
Defined.

(** C7 as stated fails in its last part: without a matching variable the
    whole output of the run is the scanning line of the root; no line
    reports that zero keys were found. *)
Lemma zero_keys_report_counterexample :
  status_of (run (env_of "PREFIX_" "/site" [("HOME", "/root")]) (site true "PREFIX_A")) = Exit0 /\
  stdout (trace_of (run (env_of "PREFIX_" "/site" [("HOME", "/root")]) (site true "PREFIX_A")))
  = [scanning (tx "/site")] /\
  ~ (exists l,
        In l (stdout (trace_of (run (env_of "PREFIX_" "/site" [("HOME", "/root")])
                                    (site true "PREFIX_A")))) /\
        ~ root_line l).
Proof.
  split; [vm_compute; reflexivity|]; split; [vm_compute; reflexivity|].
  intros (l & Hin & Hl); apply Hl.
  change (In l [scanning (tx "/site")]) in Hin.
  destruct Hin as [<- | []]; exists (tx "/site"); right; reflexivity.
Qed.

(** C9.  The roots are the blank-separated fields of [ASSET_DIRS]; there is
    no quoting.  A space in the setting always splits it, and no field
    holds a blank.  In a run within the modelled commands (no field with a
    pattern character, which the shell would expand), find is only ever
    started on a field, so never on a path with a space; and the fields
    are treated as roots of their own, one after the other: a warning for
    a field that is not a directory, and for one that is, the scanning
    line, a listing of the environment and one find per selected line.
    What the run has done is a beginning of that sequence, and all of it
    when the run succeeds. *)
Theorem roots_are_split_on_whitespace
        (E : environ) (fs : Fs.t) (prefix dirs : text) :
  require E APP_PREFIX = Some prefix ->
  require E ASSET_DIRS = Some dirs ->
  status_of (run E fs) <> Unmodelled ->
  (forall a b, fields (a ++ SP :: b) = fields a ++ fields b) /\
  (forall d c, In d (fields dirs) -> In c d -> ifs_ws c = false) /\
  (forall d k v, In (ExecFindSed d k v) (trace_of (run E fs)) ->
                 In d (fields dirs) /\ mem SP d = false) /\
  (exists rest,
      trace_of (run E fs) ++ rest
      = dir_events (fun d => selected_lines prefix (setvar E (tx "dir") d))
                   fs (fields dirs) /\
      (status_of (run E fs) = Exit0 -> rest = [])).
Proof.
  intros Hp Hd; unfold run; rewrite Hp, Hd; unfold expand_words.
  destruct (forallb word_plain (fields dirs));
    [|intros H; contradiction H; reflexivity].
  intros Hm; split; [intros a b; apply fields_app; reflexivity|].
  split; [intros d c; apply fields_clean|]; split.
  - intros d k v Hin; apply for_dirs_dirs in Hin; split; [exact Hin|].
    destruct (mem SP d) eqn:Em; [|reflexivity].
    apply mem_In in Em.
    pose proof (fields_clean dirs d SP Hin Em) as Hx; discriminate Hx.
  - apply (for_dirs_begun prefix fs _ E fs (same_shape_refl fs) Hm).
Qed.

Lemma roots_are_split_on_whitespace_witness :
  fields (tx "/my site") = [tx "/my"; tx "site"] /\
  trace_of (run (env_of "PREFIX_" "/my site" [("PREFIX_A", "1")]) my_site)
  = [Stdout (scanning (tx "/my")); ExecEnv;
     Stdout (replacing (tx "PREFIX_A") (tx "1"));
     ExecFindSed (tx "/my") (tx "PREFIX_A") (tx "1");
     Stdout (warning (tx "site"))] /\
  Fs.content (files_of (run (env_of "PREFIX_" "/my site" [("PREFIX_A", "1")]) my_site))
             [tx "my site"; tx "index.js"] = Some (tx "PREFIX_A").
Proof.
  split; [reflexivity|]; split; [|reflexivity].
  assert (status_of (run (env_of "PREFIX_" "/my site" [("PREFIX_A", "1")]) my_site)
          <> Unmodelled) as Hm by discriminate.
  destruct (proj2 (proj2 (proj2 (roots_are_split_on_whitespace
              (env_of "PREFIX_" "/my site" [("PREFIX_A", "1")]) my_site
              (tx "PREFIX_") (tx "/my site") eq_refl eq_refl Hm)))) as (rest & Ht & He).
  rewrite (He eq_refl), app_nil_r in Ht; exact Ht.
Defined.

Lemma setvar_keeps (E : environ) (name v : text) (nv : text * text) :
  In nv E -> fst nv <> name -> In nv (setvar E name v).
Proof.
  intros Hin Hn; unfold setvar; apply in_map_iff; exists nv; split; [|exact Hin].
  destruct (teqb (fst nv) name) eqn:En; [|reflexivity].
  apply teqb_eq in En; contradiction.
Qed.

Lemma find_in_dir_events (L : text -> list text) (fs : Fs.t) (ds : list text)
      (d : text) (root : Fs.path) (l : text) :
  In d ds -> Fs.directory fs d = Some root -> In l (L d) ->
  In (ExecFindSed d (fst (read_kv l)) (snd (read_kv l))) (dir_events L fs ds).
Proof.
  intros Hd Hr Hl; unfold dir_events; apply in_flat_map; exists d; split; [exact Hd|].
  rewrite Hr; right; right.
  unfold loop_events; apply in_flat_map; exists l; split; [exact Hl|].
  right; left; reflexivity.
Qed.

(** C10 (as the code has it).  The listing is read line by line.  Take a
    run that succeeds, a root [d] of it that exists, and a variable (other
    than [dir]) whose value is [v1], a newline, and [rest].  If the first
    line of its record is selected, find is started on [d] with the name
    and with a replacement made from [v1] alone: [v1] itself unless [v1]
    ends in a closing [=], and then [v1] less that [=].  And for every
    line of [rest] that the pattern matches, find is started on [d] with
    the pair that [read] makes of that line. *)
Theorem multi_line_value_is_read_line_by_line
        (E : environ) (fs : Fs.t) (prefix dirs : text) (ds : list text)
        (r : Bre.regex) (n v1 rest d : text) (root : Fs.path) :
  require E APP_PREFIX = Some prefix ->
  require E ASSET_DIRS = Some dirs ->
  expand_words dirs = Some ds ->
  Bre.parse ("^"%char :: prefix) = Some r ->
  In (n, v1 ++ NL :: rest) E ->
  n <> tx "dir" ->
  mem NL n = false -> mem "="%char n = false -> mem NL v1 = false ->
  In d ds -> Fs.directory fs d = Some root ->
  status_of (run E fs) = Exit0 ->
  (Bre.search r true (record (n, v1)) = true ->
   exists v', In (ExecFindSed d n v') (trace_of (run E fs)) /\
              (closing_eq v1 = false -> v' = v1) /\
              (closing_eq v1 = true -> v1 = v' ++ ["="%char])) /\
  (forall l, In l (lines rest) -> Bre.search r true l = true ->
     In (ExecFindSed d (fst (read_kv l)) (snd (read_kv l))) (trace_of (run E fs))).
Proof.
  intros Hp Hd Hds Hr Hin Hname Hn Heq Hv Hdin Hroot.
  unfold run; rewrite Hp, Hd, Hds; intros Hs.
  rewrite (for_dirs_exit0 prefix fs ds E fs (same_shape_refl fs) Hs).
  set (E1 := setvar E (tx "dir") d).
  assert (In (n, v1 ++ NL :: rest) E1) as Hin1
      by (apply setvar_keeps; [exact Hin | exact Hname]).
  assert (selected_lines prefix E1
          = filter (Bre.search r true) (lines (env_output E1))) as Hsel
      by (unfold selected_lines, grep; rewrite Hr; reflexivity).
  assert (record (n, v1 ++ NL :: rest) ++ [NL]
          = record (n, v1) ++ NL :: (rest ++ [NL])) as Hrec.
  { unfold record; cbn [fst snd]; rewrite <- !app_assoc; cbn [app].
    rewrite <- !app_assoc; reflexivity. }
  assert (mem NL (record (n, v1)) = false) as Hline.
  { unfold record; cbn [fst snd]; rewrite mem_app, mem_cons, Hn, Hv; reflexivity. }
  split.
  - intros Hm.
    assert (In (record (n, v1)) (selected_lines prefix E1)) as Hl.
    { rewrite Hsel; apply filter_In; split; [|exact Hm].
      apply (lines_env_output_In E1 _ _ Hin1).
      rewrite Hrec, lines_line by exact Hline; left; reflexivity. }
    pose proof (find_in_dir_events
                  (fun d => selected_lines prefix (setvar E (tx "dir") d))
                  fs ds d root _ Hdin Hroot Hl) as Hf.
    rewrite (read_kv_record n v1 Heq) in Hf; cbn [fst snd] in Hf.
    eexists; split; [exact Hf|]; split.
    + intros Hc; rewrite Hc; reflexivity.
    + intros Hc; rewrite Hc; unfold closing_eq in Hc.
      destruct (cut "="%char v1) as [a [[|x b]|]] eqn:Ec; try discriminate Hc.
      exact (proj1 (cut_some _ _ _ _ Ec)).
  - intros l Hl Hm.
    apply (find_in_dir_events
             (fun d => selected_lines prefix (setvar E (tx "dir") d))
             fs ds d root l Hdin Hroot).
    fold E1; rewrite Hsel; apply filter_In; split; [|exact Hm].
    apply (lines_env_output_In E1 _ _ Hin1).
    rewrite Hrec, lines_line by exact Hline; right.
    apply lines_In_snoc; exact Hl.
Qed.

Lemma multi_line_value_is_read_line_by_line_witness :
  In (ExecFindSed (tx "/site") (tx "PREFIX_A") (tx "one"))
     (trace_of (run (env_two_lines "PREFIX_A" "one" "PREFIX_B=two")
                    (site true "PREFIX_A PREFIX_B"))) /\
  In (ExecFindSed (tx "/site") (tx "PREFIX_B") (tx "two"))
     (trace_of (run (env_two_lines "PREFIX_A" "one" "PREFIX_B=two")
                    (site true "PREFIX_A PREFIX_B"))) /\
  files_of (run (env_two_lines "PREFIX_A" "one" "PREFIX_B=two")
                (site true "PREFIX_A PREFIX_B"))
  = site true "one two".
Proof.
  destruct (multi_line_value_is_read_line_by_line
              (env_two_lines "PREFIX_A" "one" "PREFIX_B=two")
              (site true "PREFIX_A PREFIX_B")
              (tx "PREFIX_") (tx "/site") [tx "/site"]
              (Bre.mk_regex true (lits (tx "PREFIX_")) false)
              (tx "PREFIX_A") (tx "one") (tx "PREFIX_B=two") (tx "/site") [tx "site"]
              eq_refl eq_refl eq_refl eq_refl
              (or_intror (or_intror (or_introl eq_refl)))
              ltac:(discriminate) eq_refl eq_refl eq_refl
              (or_introl eq_refl) eq_refl eq_refl)
    as (H1 & H2).
  destruct (H1 eq_refl) as (v' & Hf & Hv & _).
  rewrite (Hv eq_refl) in Hf.
  split; [exact Hf|]; split; [|reflexivity].
  exact (H2 (tx "PREFIX_B=two") (or_introl eq_refl) eq_refl).
Defined.

(** C10 as stated fails in its first part: the value of [PREFIX_A] is
    [x=], a newline, and [y]; the portion before the first newline is [x=],
    but the replacement handed to sed is [x]. *)
Lemma first_line_counterexample :
  fst (cut NL (tx "x=" ++ NL :: tx "y")) = tx "x=" /\
  sed_runs (trace_of (run (env_two_lines "PREFIX_A" "x=" "y") (site true "PREFIX_A")))
  = [(tx "/site", tx "PREFIX_A", tx "x")] /\
  files_of (run (env_two_lines "PREFIX_A" "x=" "y") (site true "PREFIX_A"))
  = site true "x" /\
  tx "x" <> tx "x=".
Proof.
  repeat split; try (vm_compute; reflexivity); discriminate.
Qed.

(** C6 (as the code has it).  Let two plain pairs be such that the keys do
    not touch (neither occurs in the other, no non-empty end of one is a
    beginning of the other) and each value does not touch the other key
    (the same four conditions; in particular the value is not empty).
    Then the two substitutions commute: on the content of a file, and on
    the file system under any root, whichever sed runs first.  The values
    may share bytes with the keys. *)
Theorem substitutions_commute (k1 v1 k2 v2 : text) :
  plain_key k1 = true -> plain_value v1 = true ->
  plain_key k2 = true -> plain_value v2 = true ->
  touches k1 k2 = false ->
  touches v1 k2 = false -> touches v2 k1 = false ->
  (forall r1 r2 c,
      Sed.compile k1 v1 = Sed.Subst r1 v1 -> Sed.compile k2 v2 = Sed.Subst r2 v2 ->
      Sed.edit r1 v1 (Sed.edit r2 v2 c) = Sed.edit r2 v2 (Sed.edit r1 v1 c)) /\
  (forall root fs,
      fst (find_exec_sed root k2 v2 (fst (find_exec_sed root k1 v1 fs))) =
      fst (find_exec_sed root k1 v1 (fst (find_exec_sed root k2 v2 fs)))).
Proof.
  intros Hk1 Hv1 Hk2 Hv2 Hkk Hc1 Hc2.
  assert (forall c, replace_all k1 v1 (replace_all k2 v2 c)
                    = replace_all k2 v2 (replace_all k1 v1 c)) as Hcomm
      by (intros c; apply replace_all_commute; assumption).
  split.
  - intros r1 r2 c H1 H2.
    rewrite (compile_plain k1 v1 Hk1 Hv1) in H1; inversion H1; subst r1.
    rewrite (compile_plain k2 v2 Hk2 Hv2) in H2; inversion H2; subst r2.
    rewrite !edit_plain by assumption; apply Hcomm.
  - intros root fs; rewrite !find_plain by assumption.
    rewrite !sed_i_compose; apply sed_i_ext; intros c; symmetry; apply Hcomm.
Qed.

Lemma substitutions_commute_witness :
  fst (find_exec_sed [tx "site"] (tx "PREFIX_TITLE") (tx "My App")
         (fst (find_exec_sed [tx "site"] (tx "PREFIX_API_URL")
                 (tx "https://API.example.com/v1_beta")
                 (site true "PREFIX_TITLE at PREFIX_API_URL")))) =
  fst (find_exec_sed [tx "site"] (tx "PREFIX_API_URL")
         (tx "https://API.example.com/v1_beta")
         (fst (find_exec_sed [tx "site"] (tx "PREFIX_TITLE") (tx "My App")
                 (site true "PREFIX_TITLE at PREFIX_API_URL")))) /\
  apart (tx "My App") (tx "PREFIX_API_URL") = false.
Proof.
  split; [|reflexivity].
  exact (proj2 (substitutions_commute
                  (tx "PREFIX_API_URL") (tx "https://API.example.com/v1_beta")
                  (tx "PREFIX_TITLE") (tx "My App")
                  eq_refl eq_refl eq_refl eq_refl eq_refl eq_refl eq_refl)
               [tx "site"] (site true "PREFIX_TITLE at PREFIX_API_URL")).
Defined.

(** C6 as stated fails.  Neither of [PREFIX_A_PREFIX_] and [PREFIX_B] is a
    substring of the other, yet on [PREFIX_A_PREFIX_B] the two orders give
    different files: the end of the first key is the beginning of the
    second.  The same happens when the value of one key holds the other
    key. *)
Lemma order_matters_counterexample :
  occursb (tx "PREFIX_A_PREFIX_") (tx "PREFIX_B") = false /\
  occursb (tx "PREFIX_B") (tx "PREFIX_A_PREFIX_") = false /\
  fst (find_exec_sed [tx "site"] (tx "PREFIX_B") (tx "2")
         (fst (find_exec_sed [tx "site"] (tx "PREFIX_A_PREFIX_") (tx "1")
                 (site true "PREFIX_A_PREFIX_B")))) = site true "1B" /\
  fst (find_exec_sed [tx "site"] (tx "PREFIX_A_PREFIX_") (tx "1")
         (fst (find_exec_sed [tx "site"] (tx "PREFIX_B") (tx "2")
                 (site true "PREFIX_A_PREFIX_B")))) = site true "PREFIX_A_2" /\
  occursb (tx "PREFIX_A") (tx "PREFIX_B") = false /\
  occursb (tx "PREFIX_B") (tx "PREFIX_A") = false /\
  fst (find_exec_sed [tx "site"] (tx "PREFIX_B") (tx "x")
         (fst (find_exec_sed [tx "site"] (tx "PREFIX_A") (tx "PREFIX_B")
                 (site true "PREFIX_A")))) = site true "x" /\
  fst (find_exec_sed [tx "site"] (tx "PREFIX_A") (tx "PREFIX_B")
         (fst (find_exec_sed [tx "site"] (tx "PREFIX_B") (tx "x")
                 (site true "PREFIX_A")))) = site true "PREFIX_B".
Proof. repeat split; vm_compute; reflexivity. Qed.

(** C8 (as the code has it).  grep reads the prefix, and sed the key, as a
    basic regular expression.  A prefix without pattern bytes selects
    exactly the lines of the listing that begin with it, byte for byte; a
    key without pattern bytes, with a value without [&], [\] and [|], is
    replaced as the literal text it is. *)
Theorem plain_patterns_are_literal :
  (forall prefix input, plain_prefix prefix = true ->
     exists ls, grep ("^"%char :: prefix) input = Some ls /\
                forall l, In l ls <-> In l (lines input) /\ exists t, l = prefix ++ t) /\
  (forall k v, plain_key k = true -> plain_value v = true ->
     exists r, Sed.compile k v = Sed.Subst r v /\
               forall c, Sed.edit r v c = replace_all k v c).
Proof.
  split.
  - intros prefix input Hp; rewrite (grep_plain prefix input Hp).
    eexists; split; [reflexivity|].
    intros l; rewrite filter_In, starts_with_iff; reflexivity.
  - intros k v Hk Hv; rewrite (compile_plain k v Hk Hv).
    eexists; split; [reflexivity|].
    intros c; apply edit_plain; assumption.
Qed.

Lemma plain_patterns_are_literal_witness :
  (exists ls, grep (tx "^PREFIX_") (tx "PREFIX_A=1") = Some ls /\
              forall l, In l ls <->
                        In l (lines (tx "PREFIX_A=1")) /\ exists t, l = tx "PREFIX_" ++ t) /\
  (exists r, Sed.compile (tx "PREFIX_A") (tx "1") = Sed.Subst r (tx "1") /\
             forall c, Sed.edit r (tx "1") c = replace_all (tx "PREFIX_A") (tx "1") c).
Proof.
  split.
  - exact (proj1 plain_patterns_are_literal (tx "PREFIX_") (tx "PREFIX_A=1") eq_refl).
  - exact (proj2 plain_patterns_are_literal (tx "PREFIX_A") (tx "1") eq_refl eq_refl).
Defined.

(** C8 as stated fails.  The key [PREFIX_A.B] does not occur in the file
    [PREFIX_AxB], yet sed replaces that text: the dot matches any byte.
    And the prefix [CFG.] selects the variable [CFG_URL], whose name does
    not begin with it. *)
Lemma regex_counterexample :
  occursb (tx "PREFIX_A.B") (tx "PREFIX_AxB") = false /\
  run (env_of "PREFIX_" "/site" [("PREFIX_A.B", "v")]) (site true "PREFIX_AxB")
  = ([Stdout (scanning (tx "/site")); ExecEnv;
      Stdout (replacing (tx "PREFIX_A.B") (tx "v"));
      ExecFindSed (tx "/site") (tx "PREFIX_A.B") (tx "v")],
     site true "v", Exit0) /\
  starts_with (tx "CFG.") (tx "CFG_URL") = false /\
  sed_runs (trace_of (run (env_of "CFG." "/site" [("CFG_URL", "1")]) (site true "CFG_URL")))
  = [(tx "/site", tx "CFG_URL", tx "1")] /\
  files_of (run (env_of "CFG." "/site" [("CFG_URL", "1")]) (site true "CFG_URL"))
  = site true "1".
Proof. repeat split; vm_compute; reflexivity. Qed.

(** * Further properties of env.sh *)

(** ** What no run touches *)

Section Untouched.

Lemma lookup_sed_i_keep (root : Fs.path) (f : text -> text) (fs : Fs.t) (p : Fs.path) :
  Fs.under root p = false \/ (forall c, Fs.lookup (Fs.entries fs) p <> Some (Fs.File true c)) ->
  Fs.lookup (Fs.entries (Fs.sed_i root f fs)) p = Fs.lookup (Fs.entries fs) p.
Proof.
  intros H; rewrite lookup_sed_i.
  destruct (Fs.lookup (Fs.entries fs) p) as [[|[|] c]|]; try reflexivity.
  cbn [option_map Fs.rewrite]; destruct H as [-> | H]; [reflexivity|].
  exfalso; apply (H c); reflexivity.
Qed.

Lemma find_keep (root : Fs.path) (k v : text) (fs : Fs.t) (p : Fs.path) :
  Fs.under root p = false \/ (forall c, Fs.lookup (Fs.entries fs) p <> Some (Fs.File true c)) ->
  Fs.lookup (Fs.entries (fst (find_exec_sed root k v fs))) p = Fs.lookup (Fs.entries fs) p.
Proof.
  intros H; unfold find_exec_sed.
  destruct (negb (existsb (Fs.is_target root) (Fs.entries fs))); [reflexivity|].
  destruct (Sed.compile k v); cbn [fst]; [apply lookup_sed_i_keep; exact H | | ]; reflexivity.
Qed.

Lemma while_read_keep (d : text) (root : Fs.path) (ls : list text) (fs : Fs.t) (p : Fs.path) :
  Fs.under root p = false \/ (forall c, Fs.lookup (Fs.entries fs) p <> Some (Fs.File true c)) ->
  Fs.lookup (Fs.entries (files_of (while_read d root ls fs))) p = Fs.lookup (Fs.entries fs) p.
Proof.
  revert fs; induction ls as [|l ls IH]; intros fs H; [reflexivity|].
  cbn [while_read]; destruct (read_kv l) as [k v].
  destruct (mem "\"%char k || mem "\"%char v); [reflexivity|].
  pose proof (find_keep root k v fs p H) as Hf.
  destruct (find_exec_sed root k v fs) as [fs1 st1]; cbn [fst] in Hf.
  destruct st1; try exact Hf.
  assert (Fs.under root p = false \/
          (forall c, Fs.lookup (Fs.entries fs1) p <> Some (Fs.File true c))) as H1
      by (destruct H as [H | H]; [left; exact H | right; rewrite Hf; exact H]).
  specialize (IH fs1 H1); unfold files_of in *.
  destruct (while_read d root ls fs1) as [[t fs2] st]; cbn [fst snd] in *.
  rewrite IH; exact Hf.
Qed.

Lemma pipeline_keep (prefix d : text) (root : Fs.path) (E : environ) (fs : Fs.t) (p : Fs.path) :
  Fs.under root p = false \/ (forall c, Fs.lookup (Fs.entries fs) p <> Some (Fs.File true c)) ->
  Fs.lookup (Fs.entries (files_of (pipeline prefix d root E fs))) p
  = Fs.lookup (Fs.entries fs) p.
Proof.
  intros H; unfold pipeline.
  destruct (grep ("^"%char :: prefix) (env_output E)) as [ls|]; [|reflexivity].
  pose proof (while_read_keep d root ls fs p H) as Hw; unfold files_of in *.
  destruct (while_read d root ls fs) as [[t fs1] st]; exact Hw.
Qed.

Lemma for_dirs_keep (prefix : text) (fs0 : Fs.t) (ds : list text) (E : environ)
      (fs : Fs.t) (p : Fs.path) :
  same_shape fs0 fs ->
  (forall d root, In d ds -> Fs.directory fs0 d = Some root -> Fs.under root p = false) \/
  (forall c, Fs.lookup (Fs.entries fs) p <> Some (Fs.File true c)) ->
  Fs.lookup (Fs.entries (files_of (for_dirs prefix ds E fs))) p
  = Fs.lookup (Fs.entries fs) p.
Proof.
  revert E fs; induction ds as [|d ds IH]; intros E fs Hs H; [reflexivity|].
  cbn [for_dirs]; set (E1 := setvar E (tx "dir") d).
  assert (forall fs1, Fs.lookup (Fs.entries fs1) p = Fs.lookup (Fs.entries fs) p ->
            (forall d' root, In d' ds -> Fs.directory fs0 d' = Some root ->
                             Fs.under root p = false) \/
            (forall c, Fs.lookup (Fs.entries fs1) p <> Some (Fs.File true c))) as Hnext.
  { intros fs1 Hl; destruct H as [H | H]; [left | right; rewrite Hl; exact H].
    intros d' root Hin; apply H; right; exact Hin. }
  destruct (Fs.directory fs d) as [root|] eqn:Ed.
  - assert (Fs.under root p = false \/
            (forall c, Fs.lookup (Fs.entries fs) p <> Some (Fs.File true c))) as Hroot.
    { destruct H as [H | H]; [left | right; exact H].
      apply (H d root (or_introl eq_refl)).
      rewrite <- (same_shape_directory fs0 fs d Hs); exact Ed. }
    pose proof (pipeline_keep prefix d root E1 fs p Hroot) as Hk.
    pose proof (pipeline_shape prefix d root E1 fs) as Hp.
    unfold files_of in *.
    destruct (pipeline prefix d root E1 fs) as [[t1 fs1] st1]; cbn [fst snd] in *.
    destruct st1; try exact Hk.
    specialize (IH E1 fs1 (same_shape_trans _ _ _ Hs Hp) (Hnext fs1 Hk)).
    destruct (for_dirs prefix ds E1 fs1) as [[t2 fs2] st2]; cbn [fst snd] in *.
    rewrite IH; exact Hk.
  - specialize (IH E1 fs Hs (Hnext fs eq_refl)); unfold files_of in *.
    destruct (for_dirs prefix ds E1 fs) as [[t2 fs2] st2]; exact IH.
Qed.

End Untouched.

(** X1.  Isolation.  In every run within the modelled commands, whether it
    succeeds or fails, an entry that lies under none of the existing roots
    named in [ASSET_DIRS] is found after the run exactly as before it; and
    so is every entry that is not an accessible regular file (a directory,
    or a file sed cannot open). *)
Theorem outside_the_roots_nothing_changes
        (E : environ) (fs : Fs.t) (dirs : text) (p : Fs.path) :
  status_of (run E fs) <> Unmodelled ->
  getvar E ASSET_DIRS = Some dirs ->
  (forall d root, In d (fields dirs) -> Fs.directory fs d = Some root ->
                  Fs.under root p = false) \/
  (forall c, Fs.lookup (Fs.entries fs) p <> Some (Fs.File true c)) ->
  Fs.lookup (Fs.entries (files_of (run E fs))) p = Fs.lookup (Fs.entries fs) p.
Proof.
  intros _ Hd H; unfold run.
  destruct (require E APP_PREFIX) as [prefix|]; [|reflexivity].
  unfold require; rewrite Hd.
  destruct dirs as [|c dirs']; [reflexivity|].
  unfold expand_words.
  destruct (forallb word_plain (fields (c :: dirs'))); [|reflexivity].
  apply (for_dirs_keep prefix fs); [apply same_shape_refl | exact H].
Qed.

Lemma outside_the_roots_nothing_changes_witness :
  Fs.lookup
    (Fs.entries (files_of (run (env_of "PREFIX_" "/a" [("PREFIX_X", "1")])
                               (two_roots "PREFIX_X" "PREFIX_X"))))
    [tx "b"; tx "y.js"]
  = Some (Fs.File true (tx "PREFIX_X")) /\
  Fs.lookup
    (Fs.entries (files_of (run (env_of "PREFIX_" "/a" [("PREFIX_X", "1")])
                               (two_roots "PREFIX_X" "PREFIX_X"))))
    [tx "a"; tx "x.js"]
  = Some (Fs.File true (tx "1")).
Proof.
  split; [|reflexivity].
  refine (outside_the_roots_nothing_changes
            (env_of "PREFIX_" "/a" [("PREFIX_X", "1")])
            (two_roots "PREFIX_X" "PREFIX_X") (tx "/a") [tx "b"; tx "y.js"]
            _ eq_refl (or_introl _)).
  - discriminate.
  - intros d root [<- | []] Hr; inversion Hr; reflexivity.
Defined.

(** X2.  No run within the modelled commands creates, deletes, renames or
    retypes anything: after such a run, whether it succeeds or fails, the
    working directory is the same and the file system lists the same paths
    in the same order, each still a directory or still a regular file with
    the same access. *)
Theorem run_keeps_the_tree (E : environ) (fs : Fs.t) :
  status_of (run E fs) <> Unmodelled ->
  Fs.cwd (files_of (run E fs)) = Fs.cwd fs /\
  map Fs.shape (Fs.entries (files_of (run E fs))) = map Fs.shape (Fs.entries fs) /\
  forall d, Fs.directory (files_of (run E fs)) d = Fs.directory fs d.
Proof.
  intros _.
  assert (same_shape fs (files_of (run E fs))) as H.
  { unfold run.
    destruct (require E APP_PREFIX) as [prefix|]; [|apply same_shape_refl].
    destruct (require E ASSET_DIRS) as [dirs|]; [|apply same_shape_refl].
    destruct (expand_words dirs) as [ds|]; [|apply same_shape_refl].
    apply for_dirs_shape. }
  destruct H as (H1 & H2); repeat split; try assumption.
  intros d; apply same_shape_directory; split; assumption.
Qed.

Lemma run_keeps_the_tree_witness :
  map Fs.shape
      (Fs.entries (files_of (run (env_of "PREFIX_" "/site" [("PREFIX_A", "one")])
                                 (site_locked "PREFIX_A"))))
  = [([tx "site"], None); (site_js, Some true);
     ([tx "site"; tx "locked.js"], Some false)] /\
  status_of (run (env_of "PREFIX_" "/site" [("PREFIX_A", "one")])
                 (site_locked "PREFIX_A")) = ExitNonZero CommandFailed.
Proof.
  split; [|reflexivity].
  refine (proj1 (proj2 (run_keeps_the_tree
                          (env_of "PREFIX_" "/site" [("PREFIX_A", "one")])
                          (site_locked "PREFIX_A") _))).
  discriminate.
Defined.

(** ** How a run can fail *)

Section Failures.

Lemma find_failure (root : Fs.path) (k v : text) (fs : Fs.t) (why : failure) :
  snd (find_exec_sed root k v fs) = ExitNonZero why -> why = CommandFailed.
Proof.
  unfold find_exec_sed.
  destruct (negb (existsb (Fs.is_target root) (Fs.entries fs))); [discriminate|].
  destruct (Sed.compile k v); cbn [snd]; try discriminate; try congruence.
  destruct (existsb (Fs.is_blocked root) (Fs.entries fs)); congruence.
Qed.

Lemma while_read_failure (d : text) (root : Fs.path) (ls : list text) (fs : Fs.t)
      (why : failure) :
  status_of (while_read d root ls fs) = ExitNonZero why ->
  why = CommandFailed /\
  exists t k v,
    trace_of (while_read d root ls fs) = t ++ [Stdout (replacing k v); ExecFindSed d k v].
Proof.
  revert fs; induction ls as [|l ls IH]; intros fs; [discriminate|].
  cbn [while_read]; destruct (read_kv l) as [k v].
  destruct (mem "\"%char k || mem "\"%char v); [discriminate|].
  pose proof (find_failure root k v fs) as Hf.
  destruct (find_exec_sed root k v fs) as [fs1 st1]; cbn [snd] in Hf.
  destruct st1 as [|why1|]; [| |discriminate].
  - specialize (IH fs1); unfold status_of, trace_of in *.
    destruct (while_read d root ls fs1) as [[t fs2] st]; cbn [fst snd] in *.
    intros H; destruct (IH H) as (Hw & t' & k' & v' & Ht); split; [exact Hw|].
    exists ([Stdout (replacing k v); ExecFindSed d k v] ++ t'), k', v'.
    rewrite Ht, app_assoc; reflexivity.
  - unfold status_of, trace_of; cbn [fst snd]; intros H; inversion H; subst why1.
    split; [apply Hf; reflexivity|]; exists [], k, v; reflexivity.
Qed.

Lemma pipeline_failure (prefix d : text) (root : Fs.path) (E : environ) (fs : Fs.t)
      (why : failure) :
  status_of (pipeline prefix d root E fs) = ExitNonZero why ->
  why = CommandFailed /\
  exists t k v,
    trace_of (pipeline prefix d root E fs)
    = t ++ [Stdout (replacing k v); ExecFindSed d k v].
Proof.
  unfold pipeline.
  destruct (grep ("^"%char :: prefix) (env_output E)) as [ls|]; [|discriminate].
  pose proof (while_read_failure d root ls fs why) as Hw.
  unfold status_of, trace_of in *.
  destruct (while_read d root ls fs) as [[t fs1] st]; cbn [fst snd] in *.
  intros H; destruct (Hw H) as (Hy & t' & k & v & Ht); split; [exact Hy|].
  exists (ExecEnv :: t'), k, v; rewrite Ht; reflexivity.
Qed.

Lemma for_dirs_failure (prefix : text) (ds : list text) (E : environ) (fs : Fs.t)
      (why : failure) :
  status_of (for_dirs prefix ds E fs) = ExitNonZero why ->
  why = CommandFailed /\
  exists t d k v,
    In d ds /\
    trace_of (for_dirs prefix ds E fs) = t ++ [Stdout (replacing k v); ExecFindSed d k v].
Proof.
  revert E fs; induction ds as [|d0 ds IH]; intros E fs; [discriminate|].
  cbn [for_dirs]; set (E1 := setvar E (tx "dir") d0).
  destruct (Fs.directory fs d0) as [root|].
  - pose proof (pipeline_failure prefix d0 root E1 fs) as Hp.
    unfold status_of, trace_of in *.
    destruct (pipeline prefix d0 root E1 fs) as [[t1 fs1] st1]; cbn [fst snd] in *.
    destruct st1 as [|why1|]; [| |discriminate].
    + specialize (IH E1 fs1).
      destruct (for_dirs prefix ds E1 fs1) as [[t2 fs2] st2]; cbn [fst snd] in *.
      intros H; destruct (IH H) as (Hy & t & d & k & v & Hin & Ht); split; [exact Hy|].
      exists (Stdout (scanning d0) :: t1 ++ t), d, k, v; split; [right; exact Hin|].
      rewrite Ht; cbn [app]; rewrite app_assoc; reflexivity.
    + intros H; inversion H; subst why1.
      destruct (Hp why eq_refl) as (Hy & t & k & v & Ht); split; [exact Hy|].
      exists (Stdout (scanning d0) :: t), d0, k, v; split; [left; reflexivity|].
      rewrite Ht; reflexivity.
  - specialize (IH E1 fs); unfold status_of, trace_of in *.
    destruct (for_dirs prefix ds E1 fs) as [[t2 fs2] st2]; cbn [fst snd] in *.
    intros H; destruct (IH H) as (Hy & t & d & k & v & Hin & Ht); split; [exact Hy|].
    exists (Stdout (warning d0) :: t), d, k, v; split; [right; exact Hin|].
    rewrite Ht; reflexivity.
Qed.

End Failures.

(** X3.  A run ends with a non-zero exit in two ways only.  Either a
    required setting is missing, and then nothing was printed or done; or a
    find/sed failed, and then that find, on one of the configured roots, is
    the last event of the run, right after the line announcing its pair:
    nothing is ever run after a failure. *)
Theorem failures_are_final (E : environ) (fs : Fs.t) (why : failure) :
  status_of (run E fs) = ExitNonZero why ->
  (exists name message,
      why = Missing name message /\ trace_of (run E fs) = [] /\ files_of (run E fs) = fs) \/
  (why = CommandFailed /\
   exists t d k v,
     trace_of (run E fs) = t ++ [Stdout (replacing k v); ExecFindSed d k v]).
Proof.
  unfold run.
  destruct (require E APP_PREFIX) as [prefix|];
    [|intros H; inversion H; left; eexists; eexists; repeat split].
  destruct (require E ASSET_DIRS) as [dirs|];
    [|intros H; inversion H; left; eexists; eexists; repeat split].
  destruct (expand_words dirs) as [ds|]; [|discriminate].
  intros H; right.
  destruct (for_dirs_failure prefix ds E fs why H) as (Hy & t & d & k & v & _ & Ht).
  split; [exact Hy|]; exists t, d, k, v; exact Ht.
Qed.

Lemma failures_are_final_witness :
  exists t d k v,
    trace_of (run (env_of "PREFIX_" "/site" [("PREFIX_A", "one"); ("PREFIX_B", "two")])
                  (site false "PREFIX_A PREFIX_B"))
    = t ++ [Stdout (replacing k v); ExecFindSed d k v].
Proof.
  destruct (failures_are_final
              (env_of "PREFIX_" "/site" [("PREFIX_A", "one"); ("PREFIX_B", "two")])
              (site false "PREFIX_A PREFIX_B") CommandFailed eq_refl)
    as [(name & message & Hw & _) | (_ & H)]; [discriminate | exact H].
Defined.

(** ** Every pair is shown before it is applied *)

Section Announced.

Lemma announced_nil : announced [].
Proof. intros [|e t1] d k v t2 H; discriminate. Qed.

Lemma announced_cons (e : event) (t : list event) :
  (forall d k v, e <> ExecFindSed d k v) -> announced t -> announced (e :: t).
Proof.
  intros He Ht [|e1 t1] d k v t2 H; simpl in H; inversion H; subst.
  - exfalso; apply (He d k v); reflexivity.
  - destruct (Ht t1 d k v t2 eq_refl) as (t0 & ->).
    exists (e1 :: t0); reflexivity.
Qed.

Lemma announced_pair (d k v : text) (t : list event) :
  announced t -> announced (Stdout (replacing k v) :: ExecFindSed d k v :: t).
Proof.
  intros Ht [|e1 [|e2 t1]] d' k' v' t2 H; simpl in H; inversion H; subst.
  - exists []; reflexivity.
  - destruct (Ht t1 d' k' v' t2 eq_refl) as (t0 & ->).
    exists (Stdout (replacing k v) :: ExecFindSed d k v :: t0); reflexivity.
Qed.

Lemma announced_app (a b : list event) : announced a -> announced b -> announced (a ++ b).
Proof.
  intros Ha Hb t1 d k v t2 H.
  apply app_eq_app in H; destruct H as (l & [(H1 & H2) | (H1 & H2)]).
  - destruct l as [|e l]; simpl in H2.
    + rewrite app_nil_r in H1; subst a.
      destruct (Hb [] d k v t2 (eq_sym H2)) as (t0 & Ht0).
      destruct t0; discriminate.
    + inversion H2; subst e t2.
      apply (Ha t1 d k v l H1).
  - destruct (Hb l d k v t2 H2) as (t0 & ->).
    exists (a ++ t0); rewrite H1, app_assoc; reflexivity.
Qed.

Lemma while_read_announced (d : text) (root : Fs.path) (ls : list text) (fs : Fs.t) :
  announced (trace_of (while_read d root ls fs)).
Proof.
  revert fs; induction ls as [|l ls IH]; intros fs; [apply announced_nil|].
  cbn [while_read]; destruct (read_kv l) as [k v].
  destruct (mem "\"%char k || mem "\"%char v); [apply announced_nil|].
  destruct (find_exec_sed root k v fs) as [fs1 st1].
  destruct st1; try (apply announced_pair, announced_nil).
  specialize (IH fs1); unfold trace_of in *.
  destruct (while_read d root ls fs1) as [[t fs2] st]; cbn [fst snd] in *.
  apply announced_pair; exact IH.
Qed.

Lemma pipeline_announced (prefix d : text) (root : Fs.path) (E : environ) (fs : Fs.t) :
  announced (trace_of (pipeline prefix d root E fs)).
Proof.
  unfold pipeline.
  destruct (grep ("^"%char :: prefix) (env_output E)) as [ls|];
    [|apply announced_cons; [discriminate | apply announced_nil]].
  pose proof (while_read_announced d root ls fs) as H; unfold trace_of in *.
  destruct (while_read d root ls fs) as [[t fs1] st]; cbn [fst snd] in *.
  apply announced_cons; [discriminate | exact H].
Qed.

Lemma for_dirs_announced (prefix : text) (ds : list text) (E : environ) (fs : Fs.t) :
  announced (trace_of (for_dirs prefix ds E fs)).
Proof.
  revert E fs; induction ds as [|d ds IH]; intros E fs; [apply announced_nil|].
  cbn [for_dirs]; set (E1 := setvar E (tx "dir") d).
  destruct (Fs.directory fs d) as [root|].
  - pose proof (pipeline_announced prefix d root E1 fs) as Hp; unfold trace_of in *.
    destruct (pipeline prefix d root E1 fs) as [[t1 fs1] st1]; cbn [fst snd] in *.
    destruct st1; try (apply announced_cons; [discriminate | exact Hp]).
    specialize (IH E1 fs1).
    destruct (for_dirs prefix ds E1 fs1) as [[t2 fs2] st2]; cbn [fst snd] in *.
    apply announced_cons; [discriminate | apply announced_app; assumption].
  - specialize (IH E1 fs); unfold trace_of in *.
    destruct (for_dirs prefix ds E1 fs) as [[t2 fs2] st2]; cbn [fst snd] in *.
    apply announced_cons; [discriminate | exact IH].
Qed.

End Announced.

(** X4.  Every substitution is shown before it is made: in every run
    within the modelled commands (no backslash in a key or a value, which
    [echo] might alter), each find/sed comes immediately after the output
    line ["  • Replacing KEY → VALUE"] with its own key and its own value
    in clear, so the value of every selected variable ends up in the
    log. *)
Theorem every_pair_is_logged_first
        (E : environ) (fs : Fs.t) (t1 t2 : list event) (d k v : text) :
  status_of (run E fs) <> Unmodelled ->
  trace_of (run E fs) = t1 ++ ExecFindSed d k v :: t2 ->
  exists t0, t1 = t0 ++ [Stdout (tx "  • Replacing " ++ k ++ tx " → " ++ v)].
Proof.
  assert (announced (trace_of (run E fs))) as H.
  { unfold run.
    destruct (require E APP_PREFIX) as [prefix|]; [|apply announced_nil].
    destruct (require E ASSET_DIRS) as [dirs|]; [|apply announced_nil].
    destruct (expand_words dirs) as [ds|]; [|apply announced_nil].
    apply for_dirs_announced. }
  intros _ Ht; exact (H t1 d k v t2 Ht).
Qed.

Lemma every_pair_is_logged_first_witness :
  exists t0,
    [Stdout (scanning (tx "/site")); ExecEnv;
     Stdout (replacing (tx "PREFIX_SECRET") (tx "hunter2"))]
    = t0 ++ [Stdout (tx "  • Replacing " ++ tx "PREFIX_SECRET" ++ tx " → " ++ tx "hunter2")].
Proof.
  refine (every_pair_is_logged_first
            (env_of "PREFIX_" "/site" [("PREFIX_SECRET", "hunter2")])
            (site true "key: PREFIX_SECRET")
            [Stdout (scanning (tx "/site")); ExecEnv;
             Stdout (replacing (tx "PREFIX_SECRET") (tx "hunter2"))]
            []
            (tx "/site") (tx "PREFIX_SECRET") (tx "hunter2") _ eq_refl).
  discriminate.
Defined.

(** ** Roots that do not exist *)

Lemma for_dirs_missing (prefix : text) (ds : list text) (E : environ) (fs : Fs.t) :
  (forall d, In d ds -> Fs.directory fs d = None) ->
  for_dirs prefix ds E fs = (map (fun d => Stdout (warning d)) ds, fs, Exit0).
Proof.
  revert E; induction ds as [|d ds IH]; intros E H; [reflexivity|].
  cbn [for_dirs map]; rewrite (H d (or_introl eq_refl)).
  rewrite IH by (intros d' Hin; apply H; right; exact Hin); reflexivity.
Qed.

Lemma pieces_blank (sep : ascii -> bool) (s : text) :
  (forall c, In c s -> sep c = true) ->
  filter (fun w => negb (is_nil w)) (pieces sep s) = [].
Proof.
  induction s as [|c s IH]; intros H; [reflexivity|].
  cbn [pieces]; rewrite (H c (or_introl eq_refl)).
  cbn [filter is_nil negb]; apply IH; intros c' Hc; apply H; right; exact Hc.
Qed.

(** X5.  When none of the configured roots exists the run is still a
    success: it prints one warning per root, in order, never lists the
    environment, starts no find, changes no file and exits 0.  An
    [ASSET_DIRS] made of blanks only passes the check of the settings and
    gives a run that does nothing at all. *)
Theorem no_existing_root_is_a_silent_success
        (E : environ) (fs : Fs.t) (prefix dirs : text) :
  require E APP_PREFIX = Some prefix ->
  require E ASSET_DIRS = Some dirs ->
  (forall d, In d (fields dirs) -> word_plain d = true /\ Fs.directory fs d = None) ->
  run E fs = (map (fun d => Stdout (warning d)) (fields dirs), fs, Exit0) /\
  ((forall c, In c dirs -> ifs_ws c = true) -> run E fs = ([], fs, Exit0)).
Proof.
  intros Hp Hd H.
  assert (run E fs = (map (fun d => Stdout (warning d)) (fields dirs), fs, Exit0)) as Hrun.
  { unfold run, expand_words; rewrite Hp, Hd.
    assert (forallb word_plain (fields dirs) = true) as ->
        by (apply forallb_forall; intros d Hin; apply (H d Hin)).
    apply for_dirs_missing; intros d Hin; apply (H d Hin). }
  split; [exact Hrun|].
  intros Hb; rewrite Hrun; unfold fields; rewrite (pieces_blank ifs_ws dirs Hb); reflexivity.
Qed.

Lemma no_existing_root_is_a_silent_success_witness :
  run (env_of "PREFIX_" "/nope /gone" [("PREFIX_A", "1")]) (site true "PREFIX_A")
  = ([Stdout (warning (tx "/nope")); Stdout (warning (tx "/gone"))], site true "PREFIX_A", Exit0) /\
  run (env_of "PREFIX_" "  " [("PREFIX_A", "1")]) (site true "PREFIX_A")
  = ([], site true "PREFIX_A", Exit0).
Proof.
  split.
  - refine (proj1 (no_existing_root_is_a_silent_success
             (env_of "PREFIX_" "/nope /gone" [("PREFIX_A", "1")]) (site true "PREFIX_A")
             (tx "PREFIX_") (tx "/nope /gone") eq_refl eq_refl _)).
    intros d [<- | [<- | []]]; split; reflexivity.
  - refine (proj2 (no_existing_root_is_a_silent_success
             (env_of "PREFIX_" "  " [("PREFIX_A", "1")]) (site true "PREFIX_A")
             (tx "PREFIX_") (tx "  ") eq_refl eq_refl _) _).
    + intros d [].
    + intros c [<- | [<- | []]]; reflexivity.
Defined.

(** ** The ampersand *)



Lemma expand_cons (c : ascii) (v m : text) :
  Sed.expand (c :: v) m = (if Ascii.eqb c "&"%char then m else [c]) ++ Sed.expand v m.
Proof. reflexivity. Qed.



(** ** What read hands over *)

(** X7.  [IFS='=' read -r key value] cuts a line at its first [=] only.
    The key never holds an [=]; a line without [=] is all key, with an
    empty value.  For a name without [=]: when the text after the first
    [=] ends in an [=] that is its only one, that [=] is dropped from the
    value; in every other case the value is the whole text after the first
    [=], later [=] included. *)
Theorem read_cuts_at_the_first_equals :
  (forall line, mem "="%char (fst (read_kv line)) = false) /\
  (forall line, mem "="%char line = false -> read_kv line = (line, [])) /\
  (forall n a, mem "="%char n = false -> mem "="%char a = false ->
     read_kv (n ++ "="%char :: a ++ ["="%char]) = (n, a)) /\
  (forall n v, mem "="%char n = false ->
     (forall a, mem "="%char a = false -> v <> a ++ ["="%char]) ->
     read_kv (n ++ "="%char :: v) = (n, v)).
Proof.
  split; [|split; [|split]].
  - intros line; unfold read_kv.
    pose proof (cut_fst_clean "="%char line) as H.
    destruct (cut "="%char line) as [k [rest|]]; cbn [fst] in H; [|exact H].
    destruct (cut "="%char rest) as [a [[|x r]|]]; exact H.
  - intros line H; unfold read_kv; rewrite (cut_none _ _ H); reflexivity.
  - intros n a Hn Ha; unfold read_kv.
    rewrite (cut_at _ n _ Hn), (cut_at _ a [] Ha); reflexivity.
  - intros n v Hn Hv; unfold read_kv; rewrite (cut_at _ n v Hn).
    destruct (cut "="%char v) as [a [[|x r]|]] eqn:E; try reflexivity.
    destruct (cut_some _ _ _ _ E) as (E' & Ha).
    contradiction (Hv a Ha E').
Qed.

Lemma read_cuts_at_the_first_equals_witness :
  read_kv (tx "PREFIX_URL=https://x.io/?a=1") = (tx "PREFIX_URL", tx "https://x.io/?a=1") /\
  read_kv (tx "PREFIX_TOKEN=YWJjZA=") = (tx "PREFIX_TOKEN", tx "YWJjZA") /\
  read_kv (tx "PREFIX_TOKEN=YWJjZA==") = (tx "PREFIX_TOKEN", tx "YWJjZA==").
Proof.
  split; [|split].
  - refine (proj2 (proj2 (proj2 read_cuts_at_the_first_equals))
                  (tx "PREFIX_URL") (tx "https://x.io/?a=1") eq_refl _).
    intros a _ H; apply (f_equal (@rev ascii)) in H.
    rewrite rev_app_distr in H; discriminate H.
  - exact (proj1 (proj2 (proj2 read_cuts_at_the_first_equals))
                 (tx "PREFIX_TOKEN") (tx "YWJjZA") eq_refl eq_refl).
  - refine (proj2 (proj2 (proj2 read_cuts_at_the_first_equals))
                  (tx "PREFIX_TOKEN") (tx "YWJjZA==") eq_refl _).
    intros a Ha H; apply (f_equal (@rev ascii)) in H.
    rewrite rev_app_distr in H; cbn in H; inversion H as [Hr].
    apply (f_equal (@rev ascii)) in Hr; rewrite rev_involutive in Hr; cbn in Hr.
    rewrite <- Hr in Ha; discriminate Ha.
Defined.

(** ** Running the script again *)

Section Again.

Lemma settled_step (fs0 : Fs.t) (d : text) (ds : list text) (root : Fs.path)
      (F : text -> text) (e : Fs.path * Fs.node) :
  Fs.directory fs0 d = Some root ->
  settled fs0 ds F (Fs.rewrite root F e) = settled fs0 (d :: ds) F e.
Proof.
  intros Hd; destruct e as [p [|[|] c]]; try reflexivity.
  cbn [Fs.rewrite settled]; rewrite covering_cons, Hd.
  destruct (Fs.under root p); cbn [settled]; [|reflexivity].
  rewrite Nat.iter_succ_r; reflexivity.
Qed.

Lemma settled_skip (fs0 : Fs.t) (d : text) (ds : list text)
      (F : text -> text) (e : Fs.path * Fs.node) :
  Fs.directory fs0 d = None -> settled fs0 ds F e = settled fs0 (d :: ds) F e.
Proof.
  intros Hd; destruct e as [p [|[|] c]]; try reflexivity.
  cbn [settled]; rewrite covering_cons, Hd; reflexivity.
Qed.

Lemma after_passes_cons (R : text -> list (Bre.regex * text)) (fs0 : Fs.t)
      (d : text) (ds : list text) (fs : Fs.t) :
  after_passes R fs0 (d :: ds) fs =
  after_passes R fs0 ds
    match Fs.directory fs0 d with
    | Some root => Fs.sed_i root (edits (R d)) fs
    | None => fs
    end.
Proof. reflexivity. Qed.

(** After the passes every accessible file has gone through the edits once
    for each existing root that covers it. *)
Lemma after_passes_settled (rs : list (Bre.regex * text)) (fs0 : Fs.t)
      (ds : list text) (fs : Fs.t) :
  after_passes (fun _ => rs) fs0 ds fs
  = Fs.mk (Fs.cwd fs) (map (settled fs0 ds (edits rs)) (Fs.entries fs)).
Proof.
  revert fs; induction ds as [|d ds IH]; intros fs.
  - destruct fs as [cw es]; unfold after_passes; cbn [fold_left Fs.cwd Fs.entries].
    f_equal; rewrite <- (map_id es) at 1; apply map_ext.
    intros [p [|[|] c]]; reflexivity.
  - rewrite after_passes_cons.
    destruct (Fs.directory fs0 d) as [root|] eqn:Ed; rewrite IH.
    + unfold Fs.sed_i; cbn [Fs.cwd Fs.entries]; rewrite map_map; f_equal.
      apply map_ext; intros e; apply settled_step; exact Ed.
    + f_equal; apply map_ext; intros e; apply settled_skip; exact Ed.
Qed.

Lemma covering_same (fs fs' : Fs.t) (ds : list text) (p : Fs.path) :
  same_shape fs fs' -> covering fs' ds p = covering fs ds p.
Proof.
  intros Hs; unfold covering, existing; do 2 f_equal.
  apply flat_map_ext; intros d; rewrite (same_shape_directory fs fs' d Hs); reflexivity.
Qed.

Lemma settled_twice (fs fs' : Fs.t) (ds : list text) (F : text -> text)
      (e : Fs.path * Fs.node) :
  same_shape fs fs' -> (forall x, F (F x) = F x) ->
  settled fs' ds F (settled fs ds F e) = settled fs ds F e.
Proof.
  intros Hs HF; destruct e as [p [|[|] c]]; try reflexivity.
  cbn [settled]; rewrite (covering_same fs fs' ds p Hs).
  destruct (covering fs ds p) as [|n] eqn:En; [reflexivity|].
  rewrite !(iter_idempotent F (S n)) by (assumption || lia).
  rewrite HF; reflexivity.
Qed.

(** The whole run, for plain pairs. *)
Lemma run_plain (E : environ) (fs : Fs.t) (prefix dirs : text) (ds : list text) :
  require E APP_PREFIX = Some prefix ->
  require E ASSET_DIRS = Some dirs ->
  expand_words dirs = Some ds ->
  getvar E (tx "dir") = None ->
  plain_prefix prefix = true ->
  one_line_records E = true ->
  forallb plain_pair (selected prefix E) = true ->
  all_accessible fs = true ->
  run E fs =
  (dir_events (fun _ => map record (selected prefix E)) fs ds,
   Fs.mk (Fs.cwd fs)
         (map (settled fs ds (replace_pairs (selected prefix E))) (Fs.entries fs)),
   Exit0).
Proof.
  intros Hp Hd Hds Hdir Hplain Hone Hpairs Hacc.
  pose proof (one_line_records_sound E Hone) as Hone'.
  rewrite forallb_forall in Hpairs.
  unfold run; rewrite Hp, Hd, Hds.
  rewrite (for_dirs_ok prefix (fun _ => map record (selected prefix E))
                       (fun _ => map script_of (selected prefix E)) fs ds E fs
                       (same_shape_refl fs)).
  - rewrite after_passes_settled; do 3 f_equal.
    apply map_ext; intros [p [|[|] c]]; try reflexivity.
    cbn [settled]; do 2 f_equal; apply iter_ext.
    intros y; apply edits_plain; exact Hpairs.
  - intros d root _ _; rewrite (setvar_absent E _ d Hdir).
    split; [apply selected_lines_plain; assumption|].
    split; [apply compile_all_plain; exact Hpairs|].
    right; apply accessible_not_blocked; exact Hacc.
Qed.

End Again.

(** X8.  Running the script again changes nothing, when the pairs are
    plain, every value is non-empty and no value shares a byte with a
    selected name: the second run (the container restarted over the files
    the first start has rewritten) succeeds and leaves the file system
    exactly as the first run left it. *)
Theorem second_run_is_a_no_op
        (E : environ) (fs : Fs.t) (prefix dirs : text) (ds : list text) :
  require E APP_PREFIX = Some prefix ->
  require E ASSET_DIRS = Some dirs ->
  expand_words dirs = Some ds ->
  getvar E (tx "dir") = None ->
  plain_prefix prefix = true ->
  one_line_records E = true ->
  forallb plain_pair (selected prefix E) = true ->
  clean_pairsb (selected prefix E) = true ->
  all_accessible fs = true ->
  status_of (run E (files_of (run E fs))) = Exit0 /\
  files_of (run E (files_of (run E fs))) = files_of (run E fs).
Proof.
  intros Hp Hd Hds Hdir Hplain Hone Hpairs Hclean Hacc.
  pose proof (run_plain E fs prefix dirs ds Hp Hd Hds Hdir Hplain Hone Hpairs Hacc) as H1.
  set (F := replace_pairs (selected prefix E)) in *.
  set (fs1 := Fs.mk (Fs.cwd fs) (map (settled fs ds F) (Fs.entries fs))) in *.
  assert (same_shape fs fs1) as Hs.
  { split; [reflexivity|]; unfold fs1; cbn [Fs.entries]; rewrite map_map.
    apply map_ext; intros [p [|[|] c]]; reflexivity. }
  assert (all_accessible fs1 = true) as Hacc1
      by (rewrite (same_shape_accessible fs fs1 Hs); exact Hacc).
  pose proof (run_plain E fs1 prefix dirs ds Hp Hd Hds Hdir Hplain Hone Hpairs Hacc1) as H2.
  rewrite H1; unfold status_of, files_of; cbn [fst snd].
  rewrite H2; cbn [fst snd].
  split; [reflexivity|].
  unfold fs1 in Hs |- *; cbn [Fs.cwd Fs.entries]; f_equal.
  rewrite map_map; apply map_ext; intros e.
  apply settled_twice; [exact Hs|].
  intros x; apply replace_pairs_twice, clean_pairs_clear, clean_pairsb_sound; exact Hclean.
Qed.

Lemma second_run_is_a_no_op_witness :
  files_of (run (env_of "PREFIX_" "/site" [("PREFIX_API_URL", "https://api.example.com")])
                (site true "const u = 'https://api.example.com';"))
  = site true "const u = 'https://api.example.com';".
Proof.
  exact (proj2 (second_run_is_a_no_op
           (env_of "PREFIX_" "/site" [("PREFIX_API_URL", "https://api.example.com")])
           (site true "const u = 'PREFIX_API_URL';")
           (tx "PREFIX_") (tx "/site") [tx "/site"]
           eq_refl eq_refl eq_refl eq_refl eq_refl eq_refl eq_refl eq_refl eq_refl)).
Defined.

(** ** Which pairs, in which order *)







(** ** The control variables *)






(** X11.  The environment that the docker-compose.yml of the README gives
    the container names the asset tree [ASSET_DIR], while the script asks
    for [ASSET_DIRS].  Whatever the three values are, whatever the files,
    and whatever other variables the container has as long as none of them
    is [ASSET_DIRS], the script stops on a missing setting before it has
    printed or touched anything: on [ASSET_DIRS] when the prefix is not
    empty, on [APP_PREFIX] when it is. *)
Theorem compose_environment_misses_a_setting
        (asset_dir prefix api_url : text) (others : environ) (fs : Fs.t) :
  getvar others ASSET_DIRS = None ->
  exists name message,
    run (compose_env asset_dir prefix api_url ++ others) fs
    = ([], fs, ExitNonZero (Missing name message)) /\
    name = (if is_nil prefix then APP_PREFIX else ASSET_DIRS).
Proof.
  intros H; unfold run, require.
  change (getvar (compose_env asset_dir prefix api_url ++ others) APP_PREFIX)
    with (Some prefix).
  change (getvar (compose_env asset_dir prefix api_url ++ others) ASSET_DIRS)
    with (getvar others ASSET_DIRS).
  rewrite H; destruct prefix as [|c p]; eexists; eexists; split; reflexivity.
Qed.

Lemma compose_environment_misses_a_setting_witness :
  exists name message,
    run (compose_env (tx "/var/www/html") (tx "PREFIX_") (tx "https://api.myapp.com")
         ++ [(tx "PATH", tx "/usr/sbin:/usr/bin"); (tx "HOME", tx "/root")])
        (site true "PREFIX_API_URL")
    = ([], site true "PREFIX_API_URL", ExitNonZero (Missing name message)) /\
    name = ASSET_DIRS.
Proof.
  exact (compose_environment_misses_a_setting
           (tx "/var/www/html") (tx "PREFIX_") (tx "https://api.myapp.com")
           [(tx "PATH", tx "/usr/sbin:/usr/bin"); (tx "HOME", tx "/root")]
           (site true "PREFIX_API_URL") eq_refl).
Defined.

(** * The earlier script of new2.md *)

Lemma lookup_shape (es es' : list (Fs.path * Fs.node)) (p : Fs.path) :
  map Fs.shape es = map Fs.shape es' ->
  (Fs.lookup es p = None <-> Fs.lookup es' p = None).
Proof.
  revert es'; induction es as [|[q n] es IH]; intros [|[q' n'] es'] H;
    try discriminate; [tauto|].
  simpl in H; inversion H as [[H1 H2]].
  assert (q = q') as <- by (destruct n, n'; simpl in H1; congruence).
  cbn [Fs.lookup]; destruct (Fs.peqb q p).
  - split; discriminate.
  - apply IH; exact H2.
Qed.

Lemma locate_shape (es es' : list (Fs.path * Fs.node)) (cs : list text) (cur : Fs.path) :
  map Fs.shape es = map Fs.shape es' -> locate es cur cs = locate es' cur cs.
Proof.
  intros H; revert cur; induction cs as [|c cs IH]; intros cur; cbn [locate].
  - destruct cur as [|a cur]; [reflexivity|].
    pose proof (lookup_shape es es' (a :: cur) H) as L.
    destruct (Fs.lookup es (a :: cur)), (Fs.lookup es' (a :: cur)); try reflexivity.
    + destruct L as [_ L]; discriminate (L eq_refl).
    + destruct L as [L _]; discriminate (L eq_refl).
  - rewrite (is_dir_shape es es' cur H), !IH; reflexivity.
Qed.

Lemma start_point_shape (fs fs' : Fs.t) (s : text) :
  same_shape fs fs' -> start_point fs' s = start_point fs s.
Proof.
  intros [Hc H]; unfold start_point; destruct s as [|c s]; [reflexivity|].
  rewrite Hc; apply locate_shape; exact H.
Qed.

Lemma find_status_shape (root : Fs.path) (k v : text) (fs fs' : Fs.t) :
  same_shape fs fs' ->
  snd (find_exec_sed root k v fs') = snd (find_exec_sed root k v fs).
Proof.
  intros [_ H]; unfold find_exec_sed.
  rewrite (target_shape root _ _ H), (blocked_shape root _ _ H).
  destruct (negb (existsb (Fs.is_target root) (Fs.entries fs))); [reflexivity|].
  destruct (Sed.compile k v); reflexivity.
Qed.

Lemma find_from_shape (s k v : text) (fs : Fs.t) :
  same_shape fs (fst (find_from s k v fs)).
Proof.
  unfold find_from; destruct (start_point fs s);
    [apply find_shape | apply same_shape_refl].
Qed.

Lemma find_from_status_shape (s k v : text) (fs fs' : Fs.t) :
  same_shape fs fs' ->
  snd (find_from s k v fs') = snd (find_from s k v fs).
Proof.
  intros H; unfold find_from; rewrite (start_point_shape fs fs' s H).
  destruct (start_point fs s); [apply find_status_shape; exact H | reflexivity].
Qed.

Lemma old_loop_nil (fs : Fs.t) (last : status) : old_loop [] fs last = ([], fs, last).
Proof. reflexivity. Qed.

Lemma old_loop_shape (ls : list text) (fs : Fs.t) (last : status) :
  same_shape fs (snd (fst (old_loop ls fs last))).
Proof.
  revert fs last; induction ls as [|l ls IH]; intros fs last; cbn [old_loop];
    [apply same_shape_refl|].
  destruct (read_kv l) as [k v].
  destruct (mem "\"%char k || mem "\"%char v); [apply same_shape_refl|].
  pose proof (find_from_shape served_tree k v fs) as H1.
  destruct (find_from served_tree k v fs) as [fs1 st1]; cbn [fst] in H1.
  destruct (is_unmodelled st1); [exact H1|].
  pose proof (find_from_shape template_tree k v fs1) as H2.
  destruct (find_from template_tree k v fs1) as [fs2 st2]; cbn [fst] in H2.
  destruct (is_unmodelled st2); [exact (same_shape_trans _ _ _ H1 H2)|].
  specialize (IH fs2 st2).
  destruct (old_loop ls fs2 st2) as [[t fs3] st]; cbn [fst snd] in *.
  exact (same_shape_trans _ _ _ H1 (same_shape_trans _ _ _ H2 IH)).
Qed.

Lemma old_loop_events (ls : list text) (fs : Fs.t) (last : status) :
  snd (old_loop ls fs last) <> Unmodelled ->
  fst (fst (old_loop ls fs last)) = old_events ls.
Proof.
  revert fs last; induction ls as [|l ls IH]; intros fs last; cbn [old_loop];
    [reflexivity|].
  unfold old_events; cbn [flat_map].
  destruct (read_kv l) as [k v]; cbn [fst snd].
  destruct (mem "\"%char k || mem "\"%char v); [intros H; contradiction H; reflexivity|].
  destruct (find_from served_tree k v fs) as [fs1 st1].
  destruct (is_unmodelled st1); [intros H; contradiction H; reflexivity|].
  destruct (find_from template_tree k v fs1) as [fs2 st2].
  destruct (is_unmodelled st2); [intros H; contradiction H; reflexivity|].
  specialize (IH fs2 st2).
  destruct (old_loop ls fs2 st2) as [[t fs3] st]; cbn [fst snd] in *.
  intros H; rewrite (IH H); reflexivity.
Qed.

Lemma old_loop_last (fs0 : Fs.t) (ls : list text) (l : text) (fs : Fs.t) (last : status) :
  same_shape fs0 fs ->
  snd (old_loop (ls ++ [l]) fs last) <> Unmodelled ->
  snd (old_loop (ls ++ [l]) fs last)
  = snd (find_from template_tree (fst (read_kv l)) (snd (read_kv l)) fs0).
Proof.
  revert fs last; induction ls as [|x ls IH]; intros fs last Hs.
  - cbn [app old_loop].
    destruct (read_kv l) as [k v]; cbn [fst snd].
    destruct (mem "\"%char k || mem "\"%char v); [intros H; contradiction H; reflexivity|].
    pose proof (find_from_shape served_tree k v fs) as H1.
    destruct (find_from served_tree k v fs) as [fs1 st1]; cbn [fst] in H1.
    destruct (is_unmodelled st1); [intros H; contradiction H; reflexivity|].
    pose proof (find_from_status_shape template_tree k v fs0 fs1
                  (same_shape_trans _ _ _ Hs H1)) as H2.
    destruct (find_from template_tree k v fs1) as [fs2 st2]; cbn [snd] in H2.
    destruct (is_unmodelled st2); [intros H; contradiction H; reflexivity|].
    intros _; exact H2.
  - change ((x :: ls) ++ [l]) with (x :: (ls ++ [l])); cbn [old_loop].
    destruct (read_kv x) as [k v].
    destruct (mem "\"%char k || mem "\"%char v); [intros H; contradiction H; reflexivity|].
    pose proof (find_from_shape served_tree k v fs) as H1.
    destruct (find_from served_tree k v fs) as [fs1 st1]; cbn [fst] in H1.
    destruct (is_unmodelled st1); [intros H; contradiction H; reflexivity|].
    pose proof (find_from_shape template_tree k v fs1) as H2.
    destruct (find_from template_tree k v fs1) as [fs2 st2]; cbn [fst] in H2.
    destruct (is_unmodelled st2); [intros H; contradiction H; reflexivity|].
    specialize (IH fs2 st2
                   (same_shape_trans _ _ _ Hs (same_shape_trans _ _ _ H1 H2))).
    destruct (old_loop (ls ++ [l]) fs2 st2) as [[t fs3] st]; cbn [fst snd] in *.
    exact IH.
Qed.

Lemma old_of_unmodelled (st : status) : old_of st = OldUnmodelled -> st = Unmodelled.
Proof. destruct st; [discriminate | discriminate | reflexivity]. Qed.

(** X12.  The earlier script has no fail-fast.  With a prefix that is set,
    whatever happens to a find (a tree that is missing, a file that cannot
    be opened, a pair that sed rejects), the environment is listed once and
    every selected line is shown and handed to both finds, the served tree
    first, in the order of the listing. *)
Theorem earlier_script_never_stops_early
        (E : environ) (fs : Fs.t) (c : ascii) (p : text) :
  getvar E APP_ENV_PREFIX = Some (c :: p) ->
  old_status_of (old_run E fs) <> OldUnmodelled ->
  old_trace_of (old_run E fs) = ExecEnv :: old_events (selected_lines (c :: p) E).
Proof.
  intros Hp; unfold old_run, selected_lines; rewrite Hp.
  destruct (grep ("^"%char :: c :: p) (env_output E)) as [ls|];
    [|intros H; contradiction H; reflexivity].
  pose proof (old_loop_events ls fs Exit0) as H.
  destruct (old_loop ls fs Exit0) as [[t fs1] st];
    unfold old_status_of, old_trace_of; cbn [fst snd] in *.
  intros Hu; rewrite H; [reflexivity|].
  intros ->; apply Hu; reflexivity.
Qed.

Lemma earlier_script_never_stops_early_witness :
  old_trace_of (old_run (old_env_of "VITE_" [("VITE_A", "1"); ("VITE_B", "2")])
                        (site true "VITE_A VITE_B"))
  = [ExecEnv;
     Stdout (tx "Replacing VITE_A → 1");
     ExecFindSed served_tree (tx "VITE_A") (tx "1");
     ExecFindSed template_tree (tx "VITE_A") (tx "1");
     Stdout (tx "Replacing VITE_B → 2");
     ExecFindSed served_tree (tx "VITE_B") (tx "2");
     ExecFindSed template_tree (tx "VITE_B") (tx "2")]
  /\ old_status_of (old_run (old_env_of "VITE_" [("VITE_A", "1"); ("VITE_B", "2")])
                            (site true "VITE_A VITE_B")) = OldFindFailed.
Proof.
  split; [|reflexivity].
  refine (earlier_script_never_stops_early
            (old_env_of "VITE_" [("VITE_A", "1"); ("VITE_B", "2")])
            (site true "VITE_A VITE_B") "V"%char (tx "ITE_") eq_refl _).
  discriminate.
Defined.

(** X13.  The exit status of the earlier script is the status of the last
    find alone.  With a prefix that is set and at least one selected line,
    the script ends with the status that find has on the template tree for
    the last line; what the finds before it met (the served tree, the
    earlier lines) does not reach the exit status.  Without a selected line
    the script succeeds. *)
Theorem earlier_script_reports_the_last_find_only
        (E : environ) (fs : Fs.t) (c : ascii) (p : text) :
  getvar E APP_ENV_PREFIX = Some (c :: p) ->
  old_status_of (old_run E fs) <> OldUnmodelled ->
  (selected_lines (c :: p) E = [] -> old_status_of (old_run E fs) = OldExit0) /\
  (forall ls l, selected_lines (c :: p) E = ls ++ [l] ->
     old_status_of (old_run E fs)
     = old_of (snd (find_from template_tree (fst (read_kv l)) (snd (read_kv l)) fs))).
Proof.
  intros Hp; unfold old_run, selected_lines; rewrite Hp.
  destruct (grep ("^"%char :: c :: p) (env_output E)) as [ls0|];
    [|intros H; contradiction H; reflexivity].
  intros Hu; split.
  - intros ->; reflexivity.
  - intros ls l ->.
    pose proof (old_loop_last fs ls l fs Exit0 (same_shape_refl fs)) as H.
    destruct (old_loop (ls ++ [l]) fs Exit0) as [[t fs1] st];
      unfold old_status_of in *; cbn [fst snd] in *.
    rewrite H; [reflexivity|].
    intros ->; apply Hu; reflexivity.
Qed.

Lemma earlier_script_reports_the_last_find_only_witness :
  old_status_of (old_run (old_env_of "VITE_" [("VITE_A", "1"); ("VITE_B", "2")])
                         (web_app false "VITE_A VITE_B" "VITE_A VITE_B")) = OldExit0 /\
  old_files_of (old_run (old_env_of "VITE_" [("VITE_A", "1"); ("VITE_B", "2")])
                        (web_app false "VITE_A VITE_B" "VITE_A VITE_B"))
  = web_app false "VITE_A VITE_B" "1 2".
Proof.
  split; [|reflexivity].
  refine (proj2 (earlier_script_reports_the_last_find_only
                   (old_env_of "VITE_" [("VITE_A", "1"); ("VITE_B", "2")])
                   (web_app false "VITE_A VITE_B" "VITE_A VITE_B")
                   "V"%char (tx "ITE_") eq_refl _)
                [tx "VITE_A=1"] (tx "VITE_B=2") eq_refl).
  discriminate.
Defined.

(** ** The two trees *)

Lemma locate_plain (es : list (Fs.path * Fs.node)) (cs : list text) (cur q : Fs.path) :
  forallb (fun c => negb (teqb c (tx ".."))) cs = true ->
  locate es cur cs = Some q ->
  q = cur ++ filter (fun c => negb (is_nil c || teqb c (tx "."))) cs.
Proof.
  revert cur; induction cs as [|c cs IH]; intros cur Hc; cbn [locate filter].
  - rewrite app_nil_r; destruct cur as [|a cur]; [congruence|].
    destruct (Fs.lookup es (a :: cur)); [congruence | discriminate].
  - cbn [forallb] in Hc; apply andb_true_iff in Hc; destruct Hc as [Hc Hcs].
    apply negb_true_iff in Hc.
    destruct (Fs.is_dir es cur); [|discriminate].
    destruct (is_nil c || teqb c (tx ".")); cbn [negb]; [apply IH; exact Hcs|].
    rewrite Hc; intros H; rewrite (IH _ Hcs H), <- app_assoc; reflexivity.
Qed.

Lemma start_point_served (fs : Fs.t) (q : Fs.path) :
  start_point fs served_tree = Some q -> q = served_path.
Proof.
  intros H.
  exact (locate_plain (Fs.entries fs) (pieces (Ascii.eqb "/"%char) served_tree) [] q
                      eq_refl H).
Qed.

Lemma start_point_template (fs : Fs.t) (q : Fs.path) :
  start_point fs template_tree = Some q -> q = template_path.
Proof.
  intros H.
  exact (locate_plain (Fs.entries fs) (pieces (Ascii.eqb "/"%char) template_tree) [] q
                      eq_refl H).
Qed.

Lemma trees_apart (p : Fs.path) :
  Fs.under served_path p = true -> Fs.under template_path p = false.
Proof.
  destruct p as [|b p]; [intros H; discriminate H|].
  unfold served_path, template_path; cbn [Fs.under].
  destruct (teqb (tx "usr") b) eqn:Eb; [|intros H; discriminate H].
  apply teqb_eq in Eb; subst b; intros _; reflexivity.
Qed.

Lemma find_from_keep (s k v : text) (fs : Fs.t) (p : Fs.path) :
  (forall q, start_point fs s = Some q -> Fs.under q p = false) ->
  Fs.lookup (Fs.entries (fst (find_from s k v fs))) p = Fs.lookup (Fs.entries fs) p.
Proof.
  intros H; unfold find_from; destruct (start_point fs s) as [q|]; [|reflexivity].
  apply find_keep; left; apply H; reflexivity.
Qed.

Lemma old_loop_keep (ls : list text) (fs : Fs.t) (last : status) (p : Fs.path) :
  Fs.under served_path p = false ->
  Fs.under template_path p = false ->
  Fs.lookup (Fs.entries (snd (fst (old_loop ls fs last)))) p = Fs.lookup (Fs.entries fs) p.
Proof.
  intros HS HT; revert fs last; induction ls as [|l ls IH]; intros fs last;
    cbn [old_loop]; [reflexivity|].
  destruct (read_kv l) as [k v].
  destruct (mem "\"%char k || mem "\"%char v); [reflexivity|].
  assert (Fs.lookup (Fs.entries (fst (find_from served_tree k v fs))) p
          = Fs.lookup (Fs.entries fs) p) as H1.
  { apply find_from_keep; intros q Hq.
    rewrite (start_point_served fs q Hq); exact HS. }
  destruct (find_from served_tree k v fs) as [fs1 st1]; cbn [fst] in H1.
  destruct (is_unmodelled st1); [exact H1|].
  assert (Fs.lookup (Fs.entries (fst (find_from template_tree k v fs1))) p
          = Fs.lookup (Fs.entries fs1) p) as H2.
  { apply find_from_keep; intros q Hq.
    rewrite (start_point_template fs1 q Hq); exact HT. }
  destruct (find_from template_tree k v fs1) as [fs2 st2]; cbn [fst] in H2.
  destruct (is_unmodelled st2); [cbn [fst snd]; congruence|].
  specialize (IH fs2 st2).
  destruct (old_loop ls fs2 st2) as [[t fs3] st]; cbn [fst snd] in *.
  congruence.
Qed.

(** X14.  The earlier script changes contents only, and only in its two
    trees: after a run within the modelled commands, whatever its exit
    status, the directories, the files and their access rights are those
    of before, and every path outside [/usr/share/nginx/html/web-app] and
    [/tmpl/dist/web-app] holds what it held. *)
Theorem earlier_script_stays_in_its_two_trees (E : environ) (fs : Fs.t) :
  old_status_of (old_run E fs) <> OldUnmodelled ->
  same_shape fs (old_files_of (old_run E fs)) /\
  forall p, Fs.under served_path p = false ->
            Fs.under template_path p = false ->
            Fs.lookup (Fs.entries (old_files_of (old_run E fs))) p
            = Fs.lookup (Fs.entries fs) p.
Proof.
  intros _; unfold old_run, old_files_of.
  destruct (getvar E APP_ENV_PREFIX) as [[|c q]|];
    try (split; [apply same_shape_refl | reflexivity]).
  destruct (grep ("^"%char :: c :: q) (env_output E)) as [ls|];
    [|split; [apply same_shape_refl | reflexivity]].
  pose proof (old_loop_shape ls fs Exit0) as Hs.
  pose proof (fun p => old_loop_keep ls fs Exit0 p) as Hk.
  destruct (old_loop ls fs Exit0) as [[t fs1] st]; cbn [fst snd] in *.
  split; [exact Hs | exact Hk].
Qed.

Lemma earlier_script_stays_in_its_two_trees_witness :
  Fs.lookup (Fs.entries (old_files_of
     (old_run (old_env_of "VITE_" [("VITE_A", "1")]) (web_app true "VITE_A" "VITE_A"))))
     [tx "etc"; tx "motd"]
  = Some (Fs.File true (tx "VITE_A")) /\
  old_files_of (old_run (old_env_of "VITE_" [("VITE_A", "1")])
                        (web_app true "VITE_A" "VITE_A"))
  <> web_app true "VITE_A" "VITE_A".
Proof.
  split; [|discriminate].
  refine (proj2 (earlier_script_stays_in_its_two_trees
                   (old_env_of "VITE_" [("VITE_A", "1")]) (web_app true "VITE_A" "VITE_A") _)
                [tx "etc"; tx "motd"] eq_refl eq_refl).
  discriminate.
Defined.

(** ** A run that succeeds *)

Lemma find_exit0 (root : Fs.path) (k v : text) (fs : Fs.t) :
  snd (find_exec_sed root k v fs) = Exit0 ->
  fst (find_exec_sed root k v fs) = Fs.sed_i root (edit_of k v) fs.
Proof.
  unfold find_exec_sed, edit_of.
  destruct (existsb (Fs.is_target root) (Fs.entries fs)) eqn:Ht; cbn [negb].
  - destruct (Sed.compile k v); cbn [fst snd]; intros H;
      try discriminate H; reflexivity.
  - intros _; cbn [fst]; symmetry; apply sed_i_no_target; exact Ht.
Qed.

Lemma edits_of_cons (l : text) (ls : list text) (c : text) :
  edits_of (l :: ls) c = edits_of ls (edit_of (fst (read_kv l)) (snd (read_kv l)) c).
Proof. reflexivity. Qed.

Lemma while_read_exit0_files (d : text) (root : Fs.path) (fs0 : Fs.t)
      (ls : list text) (fs : Fs.t) :
  same_shape fs0 fs ->
  status_of (while_read d root ls fs) = Exit0 ->
  files_of (while_read d root ls fs) = Fs.sed_i root (edits_of ls) fs /\
  Forall (find_succeeds root fs0) ls.
Proof.
  revert fs; induction ls as [|l ls IH]; intros fs Hs.
  - intros _; split; [exact (eq_sym (sed_i_id root fs)) | constructor].
  - cbn [while_read]; unfold find_succeeds at 1.
    destruct (read_kv l) as [k v] eqn:Ekv.
    destruct (mem "\"%char k || mem "\"%char v) eqn:Eb; [intros H; discriminate H|].
    pose proof (find_shape root k v fs) as H1.
    pose proof (find_exit0 root k v fs) as H2.
    pose proof (find_status_shape root k v fs0 fs Hs) as H3.
    destruct (find_exec_sed root k v fs) as [fs1 st1]; cbn [fst snd] in *.
    destruct st1; [|intros H; discriminate H|intros H; discriminate H].
    specialize (IH fs1 (same_shape_trans _ _ _ Hs H1)).
    destruct (while_read d root ls fs1) as [[t fs2] st].
    unfold status_of, files_of in *; cbn [fst snd] in *.
    intros H; destruct (IH H) as [F G]; split.
    + rewrite F, (H2 eq_refl), sed_i_compose; apply sed_i_ext; intros c.
      rewrite edits_of_cons, Ekv; reflexivity.
    + constructor; [|exact G].
      unfold find_succeeds; rewrite Ekv; cbn [fst snd]; split; [exact Eb|].
      symmetry; exact H3.
Qed.

Lemma pipeline_exit0_files (prefix d : text) (root : Fs.path) (E : environ)
      (fs0 fs : Fs.t) :
  same_shape fs0 fs ->
  status_of (pipeline prefix d root E fs) = Exit0 ->
  grep ("^"%char :: prefix) (env_output E) <> None /\
  files_of (pipeline prefix d root E fs)
  = Fs.sed_i root (edits_of (selected_lines prefix E)) fs /\
  Forall (find_succeeds root fs0) (selected_lines prefix E).
Proof.
  intros Hs; unfold pipeline, selected_lines.
  destruct (grep ("^"%char :: prefix) (env_output E)) as [ls|];
    [|intros H; discriminate H].
  pose proof (while_read_exit0_files d root fs0 ls fs Hs) as H.
  destruct (while_read d root ls fs) as [[t fs1] st].
  unfold status_of, files_of in *; cbn [fst snd] in *.
  intros H0; split; [discriminate | exact (H H0)].
Qed.

Lemma passes_cons (ls : list text) (fs0 : Fs.t) (d : text) (ds : list text) (fs : Fs.t) :
  passes ls fs0 (d :: ds) fs
  = passes ls fs0 ds match Fs.directory fs0 d with
                     | Some root => Fs.sed_i root (edits_of ls) fs
                     | None => fs
                     end.
Proof. reflexivity. Qed.

Lemma for_dirs_exit0_files (prefix : text) (fs0 : Fs.t) (ds : list text)
      (E : environ) (fs : Fs.t) :
  same_shape fs0 fs ->
  getvar E (tx "dir") = None ->
  status_of (for_dirs prefix ds E fs) = Exit0 ->
  files_of (for_dirs prefix ds E fs) = passes (selected_lines prefix E) fs0 ds fs /\
  forall d root, In d ds -> Fs.directory fs0 d = Some root ->
    grep ("^"%char :: prefix) (env_output E) <> None /\
    Forall (find_succeeds root fs0) (selected_lines prefix E).
Proof.
  intros Hs Hdir; revert fs Hs; induction ds as [|d ds IH]; intros fs Hs.
  - intros _; split; [reflexivity | intros d root []].
  - cbn [for_dirs]; rewrite (setvar_absent E _ d Hdir), passes_cons.
    rewrite (same_shape_directory fs0 fs d Hs).
    destruct (Fs.directory fs0 d) as [root|] eqn:Ed.
    + pose proof (pipeline_exit0_files prefix d root E fs0 fs Hs) as H1.
      pose proof (pipeline_shape prefix d root E fs) as H2.
      destruct (pipeline prefix d root E fs) as [[t1 fs1] st1].
      unfold status_of, files_of in H1, H2; cbn [fst snd] in H1, H2.
      destruct st1; [|intros H; discriminate H|intros H; discriminate H].
      destruct (H1 eq_refl) as (Hg & Hf & Hfa).
      specialize (IH fs1 (same_shape_trans _ _ _ Hs H2)).
      destruct (for_dirs prefix ds E fs1) as [[t2 fs2] st2].
      unfold status_of, files_of in *; cbn [fst snd] in *.
      intros H; destruct (IH H) as [F G]; split; [rewrite F, Hf; reflexivity|].
      intros d' root' [<-|Hin] Hd'.
      * assert (root' = root) as -> by congruence; split; assumption.
      * exact (G d' root' Hin Hd').
    + specialize (IH fs Hs).
      destruct (for_dirs prefix ds E fs) as [[t fs1] st].
      unfold status_of, files_of in *; cbn [fst snd] in *.
      intros H; destruct (IH H) as [F G]; split; [exact F|].
      intros d' root' [<-|Hin] Hd'; [congruence | exact (G d' root' Hin Hd')].
Qed.

(** X15.  What a successful run has done, whatever the pairs are.  When
    the script ends with status zero (and [dir] is not an exported
    variable), the files are those obtained by giving every existing root,
    in the order of [ASSET_DIRS], the sed edits of the lines that the
    prefix selects from the environment: the same lines for every root,
    one edit per line in listing order, and nothing else. *)
Theorem successful_run_edits_every_existing_root_alike
        (E : environ) (fs : Fs.t) (prefix dirs : text) (ds : list text) :
  require E APP_PREFIX = Some prefix ->
  require E ASSET_DIRS = Some dirs ->
  expand_words dirs = Some ds ->
  getvar E (tx "dir") = None ->
  status_of (run E fs) = Exit0 ->
  files_of (run E fs) = passes (selected_lines prefix E) fs ds fs.
Proof.
  intros Hp Hd Hds Hdir; unfold run; rewrite Hp, Hd, Hds; intros Hrun.
  exact (proj1 (for_dirs_exit0_files prefix fs ds E fs (same_shape_refl fs) Hdir Hrun)).
Qed.

Lemma successful_run_edits_every_existing_root_alike_witness :
  files_of (run (env_two_lines "NOTE" "see" "PREFIX_.=1") (site true "PREFIX_X PREFIX_Y"))
  = site true "1 1".
Proof.
  exact (successful_run_edits_every_existing_root_alike
           (env_two_lines "NOTE" "see" "PREFIX_.=1") (site true "PREFIX_X PREFIX_Y")
           (tx "PREFIX_") (tx "/site") [tx "/site"]
           eq_refl eq_refl eq_refl eq_refl eq_refl).
Defined.

(** ** The two scripts side by side *)

Lemma walk_locate (es : list (Fs.path * Fs.node)) (cs : list text) (cur q : Fs.path) :
  Fs.walk es cur cs = Some q -> locate es cur cs = Some q.
Proof.
  revert cur; induction cs as [|c cs IH]; intros cur; cbn [Fs.walk locate].
  - unfold Fs.is_dir; destruct cur as [|a cur]; [intros H; exact H|].
    destruct (Fs.lookup es (a :: cur)) as [[|]|]; intros H; try discriminate H; exact H.
  - destruct (Fs.is_dir es cur); [|intros H; discriminate H].
    destruct (is_nil c || teqb c (tx ".")); [apply IH|].
    destruct (teqb c (tx "..")); apply IH.
Qed.

Lemma directory_start_point (fs : Fs.t) (s : text) (q : Fs.path) :
  Fs.directory fs s = Some q -> start_point fs s = Some q.
Proof.
  unfold Fs.directory, start_point; destruct s as [|c s]; [intros H; discriminate H|].
  apply walk_locate.
Qed.

Lemma rewrite_commute (S T : Fs.path) (f g : text -> text) (e : Fs.path * Fs.node) :
  (forall p, Fs.under S p = true -> Fs.under T p = false) ->
  Fs.rewrite S f (Fs.rewrite T g e) = Fs.rewrite T g (Fs.rewrite S f e).
Proof.
  intros H; destruct e as [p [|[|] c]]; try reflexivity.
  cbn [Fs.rewrite].
  destruct (Fs.under S p) eqn:ES; destruct (Fs.under T p) eqn:ET;
    cbn [Fs.rewrite]; rewrite ?ES, ?ET; try reflexivity.
  rewrite (H p ES) in ET; discriminate ET.
Qed.

Lemma sed_i_commute (S T : Fs.path) (f g : text -> text) (fs : Fs.t) :
  (forall p, Fs.under S p = true -> Fs.under T p = false) ->
  Fs.sed_i S f (Fs.sed_i T g fs) = Fs.sed_i T g (Fs.sed_i S f fs).
Proof.
  intros H; unfold Fs.sed_i; cbn [Fs.cwd Fs.entries]; rewrite !map_map; f_equal.
  apply map_ext; intros e; apply rewrite_commute; exact H.
Qed.

Lemma old_loop_good (fs0 : Fs.t) (S T : Fs.path) (ls : list text) (fs : Fs.t) :
  same_shape fs0 fs ->
  start_point fs0 served_tree = Some S ->
  start_point fs0 template_tree = Some T ->
  (forall p, Fs.under S p = true -> Fs.under T p = false) ->
  Forall (find_succeeds S fs0) ls ->
  Forall (find_succeeds T fs0) ls ->
  old_loop ls fs Exit0
  = (old_events ls, Fs.sed_i T (edits_of ls) (Fs.sed_i S (edits_of ls) fs), Exit0).
Proof.
  intros Hs HS HT Hd; revert fs Hs; induction ls as [|l ls IH]; intros fs Hs FS FT.
  - cbn [old_loop old_events flat_map].
    change (edits_of []) with (fun c : text => c); rewrite !sed_i_id; reflexivity.
  - inversion FS as [|? ? [Hb H1] FS']; inversion FT as [|? ? [_ H2] FT']; subst.
    cbn [old_loop]; unfold old_events; cbn [flat_map].
    pose proof (edits_of_cons l ls) as Hcons.
    destruct (read_kv l) as [k v]; cbn [fst snd] in *; rewrite Hb.
    unfold find_from at 1; rewrite (start_point_shape fs0 fs served_tree Hs), HS.
    pose proof (find_shape S k v fs) as G1.
    pose proof (find_exit0 S k v fs) as G2.
    pose proof (find_status_shape S k v fs0 fs Hs) as G3.
    destruct (find_exec_sed S k v fs) as [fs1 st1]; cbn [fst snd] in *.
    rewrite H1 in G3; subst st1; cbn [is_unmodelled].
    assert (same_shape fs0 fs1) as Hs1 by exact (same_shape_trans _ _ _ Hs G1).
    unfold find_from at 1; rewrite (start_point_shape fs0 fs1 template_tree Hs1), HT.
    pose proof (find_shape T k v fs1) as K1.
    pose proof (find_exit0 T k v fs1) as K2.
    pose proof (find_status_shape T k v fs0 fs1 Hs1) as K3.
    destruct (find_exec_sed T k v fs1) as [fs2 st2]; cbn [fst snd] in *.
    rewrite H2 in K3; subst st2; cbn [is_unmodelled].
    rewrite (IH fs2 (same_shape_trans _ _ _ Hs1 K1) FS' FT').
    rewrite (K2 eq_refl), (G2 eq_refl).
    f_equal; f_equal.
    rewrite (sed_i_commute S T (edits_of ls) (edit_of k v) (Fs.sed_i S (edit_of k v) fs) Hd).
    rewrite !sed_i_compose.
    rewrite (sed_i_ext S _ (edits_of (l :: ls)) fs (fun c => eq_sym (Hcons c))).
    apply sed_i_ext; intros c; symmetry; apply Hcons.
Qed.

(** X16.  The script of the README extends the earlier one.  Take an
    environment that gives both scripts the same prefix and gives the
    README script the two trees of the earlier one, in its order; let both
    trees be directories and [dir] not be exported.  Whenever the README
    script succeeds, the earlier script succeeds too and leaves exactly
    the same files. *)
Theorem readme_script_extends_the_earlier_one
        (E : environ) (fs : Fs.t) (prefix dirs : text) :
  getvar E APP_ENV_PREFIX = Some prefix ->
  require E APP_PREFIX = Some prefix ->
  require E ASSET_DIRS = Some dirs ->
  expand_words dirs = Some [served_tree; template_tree] ->
  getvar E (tx "dir") = None ->
  Fs.directory fs served_tree <> None ->
  Fs.directory fs template_tree <> None ->
  status_of (run E fs) = Exit0 ->
  old_files_of (old_run E fs) = files_of (run E fs) /\
  old_status_of (old_run E fs) = OldExit0.
Proof.
  intros Hold Hp Hd Hds Hdir HS HT; unfold run; rewrite Hp, Hd, Hds; intros Hrun.
  destruct (Fs.directory fs served_tree) as [S|] eqn:ES; [|contradiction HS; reflexivity].
  destruct (Fs.directory fs template_tree) as [T|] eqn:ET; [|contradiction HT; reflexivity].
  destruct (for_dirs_exit0_files prefix fs [served_tree; template_tree] E fs
              (same_shape_refl fs) Hdir Hrun) as [HF HG].
  destruct (HG served_tree S (or_introl eq_refl) ES) as [Hg FS].
  destruct (HG template_tree T (or_intror (or_introl eq_refl)) ET) as [_ FT].
  rewrite HF; unfold passes; cbn [fold_left]; rewrite ES, ET.
  unfold old_run; rewrite Hold.
  assert (exists c p, prefix = c :: p) as (c & p & ->).
  { unfold require in Hp; destruct (getvar E APP_PREFIX) as [[|c p]|];
      try discriminate Hp; inversion Hp; eauto. }
  unfold selected_lines in *.
  destruct (grep ("^"%char :: c :: p) (env_output E)) as [ls|];
    [|contradiction Hg; reflexivity].
  pose proof (directory_start_point fs _ _ ES) as PS.
  pose proof (directory_start_point fs _ _ ET) as PT.
  rewrite (old_loop_good fs S T ls fs (same_shape_refl fs) PS PT); [split; reflexivity| |exact FS|exact FT].
  intros q; rewrite (start_point_served fs S PS), (start_point_template fs T PT).
  apply trees_apart.
Qed.

Lemma readme_script_extends_the_earlier_one_witness :
  old_files_of (old_run ((APP_ENV_PREFIX, tx "VITE_") ::
                         env_of "VITE_" "/usr/share/nginx/html/web-app /tmpl/dist/web-app"
                                [("VITE_A", "1"); ("VITE_B", "2")])
                        (web_app true "VITE_A VITE_B" "VITE_B"))
  = files_of (run ((APP_ENV_PREFIX, tx "VITE_") ::
                   env_of "VITE_" "/usr/share/nginx/html/web-app /tmpl/dist/web-app"
                          [("VITE_A", "1"); ("VITE_B", "2")])
                  (web_app true "VITE_A VITE_B" "VITE_B")) /\
  Fs.lookup (Fs.entries
     (files_of (run ((APP_ENV_PREFIX, tx "VITE_") ::
                     env_of "VITE_" "/usr/share/nginx/html/web-app /tmpl/dist/web-app"
                            [("VITE_A", "1"); ("VITE_B", "2")])
                    (web_app true "VITE_A VITE_B" "VITE_B"))))
     (served_path ++ [tx "index.js"])
  = Some (Fs.File true (tx "1 2")).
Proof.
  split; [|reflexivity].
  refine (proj1 (readme_script_extends_the_earlier_one
                   ((APP_ENV_PREFIX, tx "VITE_") ::
                    env_of "VITE_" "/usr/share/nginx/html/web-app /tmpl/dist/web-app"
                           [("VITE_A", "1"); ("VITE_B", "2")])
                   (web_app true "VITE_A VITE_B" "VITE_B")
                   (tx "VITE_")
                   (tx "/usr/share/nginx/html/web-app /tmpl/dist/web-app")
                   eq_refl eq_refl eq_refl eq_refl eq_refl _ _ eq_refl));
    discriminate.
Defined.
